(** * Dragabyte: a shallow embedding of the storage-analysis front end

    The development follows the TypeScript sources:
    - [Treemap]      src/features/scan/Treemap.tsx (slice-and-dice layout),
    - [Js]           the JavaScript string and number primitives the code calls,
    - [Predicate]    the filter and search-query engine of the scan view,
    - [RemoteList]   the remote listing request/response bookkeeping of the scan view,
    - [RemotePanel]  src/features/remote/RemotePanel.tsx (connection panel),
    - [Watchdog]     the invariant of the timers that guard remote listings,
    - [Utils]        src/lib/utils.ts (shortening of labels),
    - [ScanView]     helpers of the scan view: paths, selection history,
                     largest files, usage bars, context menu,
    - [Explorer]     the rows and the folder index of the explorer tree,
    - [UsageCharts]  the segments of the usage chart,
    - [Settings]     src/features/settings/SettingsPanel.tsx (bind address).

    Byte counts are integers ([Z]); geometry, which the code computes in
    IEEE doubles, is taken over the rationals ([Q]).  A size written in
    a query is read as [Number] reads it, to the nearest double.  A
    regular expression is an object with state: a call of [test]
    returns the object as it leaves it. *)

From Stdlib Require Import ZArith QArith Qround Qminmax Lqa Lia String Ascii List Permutation Sorted.
From stdpp Require Import base option list gmap strings pretty.

Local Open Scope Z_scope.

(** ** Treemap.tsx *)

Module Treemap.

(** The fields of [ScanNode] that the layout reads. *)
Record ScanNode := mkScanNode {
  path : string;
  name : string;
  sizeBytes : Z
}.

Record Rect := mkRect {
  x : Q;
  y : Q;
  w : Q;
  h : Q;
  node : ScanNode
}.

Fixpoint sumNodeSizes (nodes : list ScanNode) : Z :=
  match nodes with
  | [] => 0
  | n :: rest => sizeBytes n + sumNodeSizes rest
  end.

(** [Array.prototype.sort] is stable; with the comparator
    [b.sizeBytes - a.sizeBytes] an element moves in front of the first
    element that is not larger than it. *)
Fixpoint insertBySize (a : ScanNode) (sorted : list ScanNode) : list ScanNode :=
  match sorted with
  | [] => [a]
  | b :: rest =>
      if sizeBytes b <=? sizeBytes a then a :: b :: rest
      else b :: insertBySize a rest
  end.

Fixpoint sortBySize (nodes : list ScanNode) : list ScanNode :=
  match nodes with
  | [] => []
  | a :: rest => insertBySize a (sortBySize rest)
  end.

(** The loop of [getSplitIndex], from index [i] with running sum
    [currentSum]; [None] when the loop runs off the end of the array. *)
Fixpoint getSplitIndex_loop (nodes : list ScanNode) (total : Z)
    (i : nat) (currentSum : Z) : option nat :=
  match nodes with
  | [] => None
  | n :: rest =>
      let currentSum := currentSum + sizeBytes n in
      if Qle_bool (inject_Z total / 2) (inject_Z currentSum)
      then Some (i + 1)%nat
      else getSplitIndex_loop rest total (i + 1)%nat currentSum
  end.

Definition getSplitIndex (nodes : list ScanNode) (total : Z) : nat :=
  match getSplitIndex_loop nodes total 0%nat 0 with
  | Some i => i
  | None => 1%nat
  end.

(** [recursiveSplit] with an explicit bound on the recursion depth;
    [None] means the bound was hit. *)
Fixpoint recursiveSplit_fuel (fuel : nat) (nodes : list ScanNode)
    (x y w h : Q) : option (list Rect) :=
  match nodes with
  | [] => Some []
  | [node] => Some [mkRect x y w h node]
  | _ =>
      let sorted := sortBySize nodes in
      let total := sumNodeSizes sorted in
      if total <=? 0 then Some []
      else
        match fuel with
        | O => None
        | S fuel =>
            let splitIndex := getSplitIndex sorted total in
            let groupA := firstn splitIndex sorted in
            let groupB := skipn splitIndex sorted in
            let sizeA := sumNodeSizes groupA in
            let ratioA := (inject_Z sizeA / inject_Z total)%Q in
            if Qlt_le_dec h w then
              let wA := (w * ratioA)%Q in
              match recursiveSplit_fuel fuel groupA x y wA h,
                    recursiveSplit_fuel fuel groupB (x + wA)%Q y (w - wA)%Q h with
              | Some ra, Some rb => Some (ra ++ rb)
              | _, _ => None
              end
            else
              let hA := (h * ratioA)%Q in
              match recursiveSplit_fuel fuel groupA x y w hA,
                    recursiveSplit_fuel fuel groupB x (y + hA)%Q w (h - hA)%Q with
              | Some ra, Some rb => Some (ra ++ rb)
              | _, _ => None
              end
        end
  end.

(** Every recursive call is on a strictly shorter array, so the length
    of the input bounds the depth. *)
Definition recursiveSplit (nodes : list ScanNode) (x y w h : Q)
    : option (list Rect) :=
  recursiveSplit_fuel (length nodes) nodes x y w h.

(** Geometry of a placed rectangle: the half-open box
    [x, x+w) x [y, y+h). *)
Definition inside (r : Rect) (px py : Q) : Prop :=
  (x r <= px /\ px < x r + w r /\ y r <= py /\ py < y r + h r)%Q.

Definition insideBox (x y w h px py : Q) : Prop :=
  (x <= px /\ px < x + w /\ y <= py /\ py < y + h)%Q.

Definition area (r : Rect) : Q := (w r * h r)%Q.

Definition overlap (r1 r2 : Rect) : Prop :=
  exists px py, inside r1 px py /\ inside r2 px py.

Definition pairwiseDisjoint (rects : list Rect) : Prop :=
  forall (i j : nat) r1 r2, i <> j ->
    nth_error rects i = Some r1 -> nth_error rects j = Some r2 ->
    ~ overlap r1 r2.

(** What the layout contract asks of the rectangles placed for [nodes]
    in the box [x, y, w, h]: one rectangle per node, the box covered
    exactly, no two rectangles sharing a point, and areas in proportion
    to sizes (stated cross-multiplied). *)
Definition layoutSpec (nodes : list ScanNode) (x y w h : Q)
    (rects : list Rect) : Prop :=
  Permutation (map node rects) nodes /\
  (forall px py, insideBox x y w h px py <->
                 exists r, In r rects /\ inside r px py) /\
  pairwiseDisjoint rects /\
  Forall (fun r => (area r * inject_Z (sumNodeSizes nodes) ==
                    w * h * inject_Z (sizeBytes (node r)))%Q) rects.

Definition descending (l : list ScanNode) : Prop :=
  StronglySorted (fun a b => sizeBytes b <= sizeBytes a) l.

(** Sample inputs. *)
Definition sampleNodes : list ScanNode :=
  [mkScanNode "/root/a" "a" 3; mkScanNode "/root/b" "b" 1;
   mkScanNode "/root/c" "c" 4].

Definition emptyNode : ScanNode := mkScanNode "/root/empty" "empty" 0.

End Treemap.

(** ** JavaScript primitives

    Strings are byte strings; case conversion and white space are the
    ASCII ones. *)

Module Js.
Local Open Scope string_scope.

Definition isUpper (c : ascii) : bool :=
  let n := nat_of_ascii c in Nat.leb 65 n && Nat.leb n 90.

Definition toLowerChar (c : ascii) : ascii :=
  if isUpper c then ascii_of_nat (nat_of_ascii c + 32) else c.

Fixpoint toLowerCase (s : string) : string :=
  match s with
  | EmptyString => EmptyString
  | String c rest => String (toLowerChar c) (toLowerCase rest)
  end.

(** Space, tab, line feed, vertical tab, form feed, carriage return. *)
Definition isWhitespace (c : ascii) : bool :=
  let n := nat_of_ascii c in Nat.eqb n 32 || (Nat.leb 9 n && Nat.leb n 13).

Fixpoint trimStart (s : string) : string :=
  match s with
  | EmptyString => EmptyString
  | String c rest => if isWhitespace c then trimStart rest else s
  end.

Fixpoint trimEnd (s : string) : string :=
  match s with
  | EmptyString => EmptyString
  | String c rest =>
      match trimEnd rest with
      | EmptyString => if isWhitespace c then EmptyString else String c EmptyString
      | rest' => String c rest'
      end
  end.

Definition trim (s : string) : string := trimEnd (trimStart s).

(** A string is truthy when it is not empty. *)
Definition truthy (s : string) : bool := negb (String.eqb s "").

Definition startsWith (s p : string) : bool := String.prefix p s.

Fixpoint includes (s t : string) : bool :=
  if String.prefix t s then true
  else match s with
       | EmptyString => false
       | String _ rest => includes rest t
       end.

Fixpoint indexOf_from (c : ascii) (s : string) (i : Z) : Z :=
  match s with
  | EmptyString => -1
  | String d rest => if Ascii.eqb c d then i else indexOf_from c rest (i + 1)
  end.

(** [s.indexOf(c)] for a one-character needle; -1 when absent. *)
Definition indexOf (s : string) (c : ascii) : Z := indexOf_from c s 0.

Fixpoint lastIndexOf_from (c : ascii) (s : string) (i found : Z) : Z :=
  match s with
  | EmptyString => found
  | String d rest =>
      lastIndexOf_from c rest (i + 1) (if Ascii.eqb c d then i else found)
  end.

(** [s.lastIndexOf(c)] for a one-character needle; -1 when absent. *)
Definition lastIndexOf (s : string) (c : ascii) : Z :=
  lastIndexOf_from c s 0 (-1).

Fixpoint dropChars (n : nat) (s : string) : string :=
  match n, s with
  | O, _ => s
  | S n, String _ rest => dropChars n rest
  | S _, EmptyString => EmptyString
  end.

Fixpoint takeChars (n : nat) (s : string) : string :=
  match n, s with
  | S n, String c rest => String c (takeChars n rest)
  | _, _ => EmptyString
  end.

(** [s.slice(start)] and [s.slice(start, end)] for indices within
    [0 .. length]. *)
Definition sliceFrom (s : string) (start : Z) : string :=
  dropChars (Z.to_nat start) s.

Definition slice (s : string) (start stop : Z) : string :=
  takeChars (Z.to_nat (stop - start)) (dropChars (Z.to_nat start) s).

(** [s.split(sep)] for a separator that is one character of a class. *)
Fixpoint splitOn (sep : ascii -> bool) (s : string) : list string :=
  match s with
  | EmptyString => [EmptyString]
  | String c rest =>
      if sep c then EmptyString :: splitOn sep rest
      else match splitOn sep rest with
           | [] => [String c EmptyString]
           | word :: words => String c word :: words
           end
  end.

Definition isDigit (c : ascii) : bool :=
  let n := nat_of_ascii c in Nat.leb 48 n && Nat.leb n 57.

Fixpoint takeDigits (s : string) : string * string :=
  match s with
  | EmptyString => (EmptyString, EmptyString)
  | String c rest =>
      if isDigit c then
        let '(ds, tail) := takeDigits rest in (String c ds, tail)
      else (EmptyString, s)
  end.

Fixpoint digitsValue (s : string) (acc : Z) : Z :=
  match s with
  | EmptyString => acc
  | String c rest => digitsValue rest (10 * acc + (Z.of_nat (nat_of_ascii c) - 48))
  end.

(** The value of the numeral [intPart] or [intPart.fracPart], taken
    exactly. *)
Definition decimalValue (intPart : string) (fracPart : option string) : Q :=
  match fracPart with
  | None => inject_Z (digitsValue intPart 0)
  | Some frac =>
      Qmake (digitsValue frac (digitsValue intPart 0))
            (Z.to_pos (10 ^ Z.of_nat (String.length frac)))
  end.

(** The double nearest to the rational [p / q] (for [p] not negative),
    a tie going to the even mantissa, as [Number] reads a numeral; [None]
    when the result is beyond the range of the doubles, where the code
    sees [Infinity].  The mantissa has 53 bits and the exponent is at
    least -1022. *)
Definition nearestDouble (p : Z) (q : positive) : option Q :=
  (if p <=? 0 then Some 0%Q
  else
    let e0 := Z.log2 p - Z.log2 (Z.pos q) in
    let below :=
      if 0 <=? e0 then p <? Z.pos q * 2 ^ e0
      else p * 2 ^ (- e0) <? Z.pos q in
    let e := Z.max (-1022) (if below then e0 - 1 else e0) in
    let num := p * 2 ^ Z.max 0 (52 - e) in
    let den := Z.pos q * 2 ^ Z.max 0 (e - 52) in
    let m := num / den in
    let r := num mod den in
    let m :=
      if (den <? 2 * r) || ((den =? 2 * r) && Z.odd m) then m + 1 else m in
    let value :=
      if 0 <=? e - 52 then inject_Z (m * 2 ^ (e - 52))
      else Qmake m (Z.to_pos (2 ^ (52 - e))) in
    if Qle_bool (inject_Z (2 ^ 1024)) value then None else Some value)%Z.

(** [Math.round]: the nearest integer, halves rounded up. *)
Definition mathRound (q : Q) : Z := Qfloor (q + (1 # 2)).

(** [Math.floor]. *)
Definition mathFloor (q : Q) : Z := Qfloor q.

(** What the code takes from the host: regular expressions and the
    conversion [Number(value)].  [newRegExp pattern flags] is [None] when
    the constructor throws.  A [RegExp] is an object with state: with the
    flag [g] or [y], [test] starts at the object's [lastIndex] and moves
    it, so [regexTest] returns the result together with the object as
    the call leaves it.  [toNumber] is [None] when the result is not
    finite. *)
Class Host := {
  RegExp : Type;
  newRegExp : string -> string -> option RegExp;
  regexTest : RegExp -> string -> bool * RegExp;
  toNumber : string -> option Q
}.

(** A regular expression whose [test] leaves it as it was, as one
    without the flags [g] and [y] does. *)
Definition stateless {host : Host} (re : RegExp) : Prop :=
  forall s, snd (regexTest re s) = re.

(** The regular expressions of a small host used for concrete runs: the
    pattern is read as a literal substring, with the flags [i], [g] and
    [y]. *)
Record LiteralRegExp := mkLiteralRegExp {
  source : string;
  ignoreCase : bool;
  global : bool;
  sticky : bool;
  lastIndex : nat
}.

Definition isFlag (c : ascii) : bool :=
  existsb (Ascii.eqb c) ["d"; "g"; "i"; "m"; "s"; "u"; "v"; "y"]%char.

(** Flags are valid when each is a flag letter and none is repeated. *)
Fixpoint validFlags (flags : string) : bool :=
  match flags with
  | EmptyString => true
  | String c rest =>
      isFlag c && negb (includes rest (String c EmptyString)) &&
      validFlags rest
  end.

Definition newLiteralRegExp (pattern flags : string) : option LiteralRegExp :=
  if validFlags flags && negb (includes flags "u" && includes flags "v")
  then Some (mkLiteralRegExp pattern (includes flags "i") (includes flags "g")
               (includes flags "y") 0)
  else None.

(** The index of the first occurrence of [t] in [s]. *)
Fixpoint findIndex (s t : string) : option nat :=
  if String.prefix t s then Some 0%nat
  else match s with
       | EmptyString => None
       | String _ rest => option_map S (findIndex rest t)
       end.

Definition withLastIndex (re : LiteralRegExp) (i : nat) : LiteralRegExp :=
  mkLiteralRegExp (source re) (ignoreCase re) (global re) (sticky re) i.

(** [re.test(s)]: without [g] and [y] a search of the whole string;
    with one of them a search from [lastIndex] (with [y], a match at
    [lastIndex] itself), which is then moved behind the match, or back
    to 0 when there is none. *)
Definition literalTest (re : LiteralRegExp) (s : string)
    : bool * LiteralRegExp :=
  let subject := if ignoreCase re then toLowerCase s else s in
  let pattern := if ignoreCase re then toLowerCase (source re) else source re in
  if global re || sticky re then
    if Nat.ltb (String.length s) (lastIndex re) then (false, withLastIndex re 0)
    else
      let rest := dropChars (lastIndex re) subject in
      let found :=
        if sticky re
        then (if String.prefix pattern rest then Some 0%nat else None)
        else findIndex rest pattern in
      match found with
      | Some i =>
          (true, withLastIndex re (lastIndex re + i + String.length pattern))
      | None => (false, withLastIndex re 0)
      end
  else (includes subject pattern, re).

(** [Number] of this host reads a numeral of the shape digits or
    digits.digits; it takes every other text as not a number. *)
Definition literalNumber (s : string) : option Q :=
  match takeDigits s with
  | (String c ds, EmptyString) =>
      nearestDouble (digitsValue (String c ds) 0) 1
  | (String c ds, String "." afterDot) =>
      match takeDigits afterDot with
      | (String d frac, EmptyString) =>
          let value := decimalValue (String c ds) (Some (String d frac)) in
          nearestDouble (Qnum value) (Qden value)
      | _ => None
      end
  | _ => None
  end.

Definition literalHost : Host := {|
  RegExp := LiteralRegExp;
  newRegExp := newLiteralRegExp;
  regexTest := literalTest;
  toNumber := literalNumber
|}.

End Js.

(** ** The filter and search-query engine of the scan view *)

Module Predicate.
Import Js.
Local Open Scope string_scope.
Local Open Scope list_scope.
Local Open Scope Z_scope.

(** [ScanFilters], with the fields the scan view fills in. *)
Record ScanFilters := mkScanFilters {
  includeExtensions : list string;
  excludeExtensions : list string;
  includeNames : list string;
  excludeNames : list string;
  minSizeBytes : option Z;
  maxSizeBytes : option Z;
  includeRegex : option string;
  excludeRegex : option string;
  includePaths : list string;
  excludePaths : list string
}.

(** [ScanFile]; a [SearchEntry] has the same three fields. *)
Record ScanFile := mkScanFile {
  path : string;
  name : string;
  sizeBytes : Z
}.

Definition isListSeparator (c : ascii) : bool :=
  Ascii.eqb c "," || Ascii.eqb c "010".

(** [replace(/^\./, "")] *)
Definition stripLeadingDot (s : string) : string :=
  match s with
  | String "." rest => rest
  | _ => s
  end.

Fixpoint parseListInput_loop (parts : list string) (seen : gset string)
    (result : list string) : list string :=
  match parts with
  | [] => result
  | raw :: parts =>
      if negb (truthy raw) then parseListInput_loop parts seen result
      else
        let cleaned := toLowerCase (stripLeadingDot (trim raw)) in
        if negb (truthy cleaned) || bool_decide (cleaned ∈ seen)
        then parseListInput_loop parts seen result
        else parseListInput_loop parts ({[cleaned]} ∪ seen) (result ++ [cleaned])
  end.

Definition parseListInput (value : string) : list string :=
  parseListInput_loop (splitOn isListSeparator value) ∅ [].

Definition SIZE_UNITS (unit : string) : option Z :=
  if String.eqb unit "b" then Some 1
  else if String.eqb unit "kb" then Some 1024
  else if String.eqb unit "mb" then Some (1024 ^ 2)
  else if String.eqb unit "gb" then Some (1024 ^ 3)
  else if String.eqb unit "tb" then Some (1024 ^ 4)
  else None.

(** The match of [/^(\d+(?:\.\d+)?)(b|kb|mb|gb|tb)?$/]: integer digits,
    fraction digits if any, unit if any. *)
Definition matchSizeValue (s : string)
    : option (string * option string * option string) :=
  let '(intPart, afterInt) := takeDigits s in
  if negb (truthy intPart) then None
  else
    let '(fracPart, afterNumber) :=
      match afterInt with
      | String "." afterDot =>
          let '(frac, afterFrac) := takeDigits afterDot in
          if truthy frac then (Some frac, afterFrac) else (None, afterInt)
      | _ => (None, afterInt)
      end in
    if negb (truthy afterNumber) then Some (intPart, fracPart, None)
    else match SIZE_UNITS afterNumber with
         | Some _ => Some (intPart, fracPart, Some afterNumber)
         | None => None
         end.

(** [Number(match[1])] for the numeral the pattern matched: the nearest
    double, [None] when it is not finite. *)
Definition numberOfNumeral (intPart : string) (fracPart : option string)
    : option Q :=
  let value := decimalValue intPart fracPart in
  nearestDouble (Qnum value) (Qden value).

(** [Infinity] as a size: the least integer above every finite double.
    Every size a double can hold is below it, as it is below
    [Infinity]. *)
Definition INFINITE_SIZE : Z := 2 ^ 1024.

(** [Math.round(value * multiplier)].  The multipliers are powers of
    two, so the double product is the exact product unless it leaves the
    range of the doubles; then it is [Infinity], which [Math.round]
    returns as it is. *)
Definition roundScaled (value : Q) (multiplier : Z) : Z :=
  let scaled := (value * inject_Z multiplier)%Q in
  if Qle_bool (inject_Z INFINITE_SIZE) scaled then INFINITE_SIZE
  else mathRound scaled.

Definition parseSizeValue (raw : string) : option Z :=
  match matchSizeValue (toLowerCase (trim raw)) with
  | None => None
  | Some (intPart, fracPart, unit) =>
      let value := numberOfNumeral intPart fracPart in
      let unit := match unit with Some u => u | None => "b" end in
      match value, SIZE_UNITS unit with
      | Some value, Some multiplier => Some (roundScaled value multiplier)
      | _, _ => None
      end
  end.

Fixpoint noLineTerminator (s : string) : bool :=
  match s with
  | EmptyString => true
  | String c rest =>
      negb (Ascii.eqb c "010" || Ascii.eqb c "013") && noLineTerminator rest
  end.

Fixpoint matchSizeOperator (operators : list string) (rest : string)
    : option (string * string) :=
  match operators with
  | [] => None
  | operator :: operators =>
      let sizeToken := dropChars (String.length operator) rest in
      if startsWith rest operator && truthy sizeToken && noLineTerminator sizeToken
      then Some (operator, sizeToken)
      else matchSizeOperator operators rest
  end.

(** The match of [/^size(<=|>=|=|<|>)(.+)$/]: operator and size text;
    the alternatives are tried in the order written. *)
Definition matchSizeToken (token : string) : option (string * string) :=
  if startsWith token "size"
  then matchSizeOperator ["<="; ">="; "="; "<"; ">"] (dropChars 4 token)
  else None.

Section WithHost.
Context {host : Host}.

Definition parseRegexToken (value : string) : option RegExp :=
  let trimmed := trim value in
  if negb (truthy trimmed) then None
  else if startsWith trimmed "/" && (0 <? lastIndexOf trimmed "/") then
    let lastSlash := lastIndexOf trimmed "/" in
    let pattern := slice trimmed 1 lastSlash in
    let flags :=
      let given := sliceFrom trimmed (lastSlash + 1) in
      if truthy given then given else "i" in
    newRegExp pattern flags
  else newRegExp trimmed "i".

Definition getPathExtension (path : string) : option string :=
  let lastDot := lastIndexOf path "." in
  if (lastDot <=? 0) || (lastDot =? Z.of_nat (String.length path) - 1)
  then None
  else Some (toLowerCase (sliceFrom path (lastDot + 1))).

Record SearchParams := mkSearchParams {
  terms : list string;
  nameTerms : list string;
  pathTerms : list string;
  exts : gset string;
  regex : option RegExp;
  minSize : option Z;
  maxSize : option Z
}.

Definition setMinSize (params : SearchParams) (v : Z) : SearchParams :=
  mkSearchParams (terms params) (nameTerms params) (pathTerms params)
    (exts params) (regex params) (Some v) (maxSize params).

Definition setMaxSize (params : SearchParams) (v : Z) : SearchParams :=
  mkSearchParams (terms params) (nameTerms params) (pathTerms params)
    (exts params) (regex params) (minSize params) (Some v).

(** [Some params'] stands for the result [true] with [params] mutated
    to [params']; [None] for the result [false]. *)
Definition applySizeToken (params : SearchParams) (token : string)
    : option SearchParams :=
  match matchSizeToken token with
  | None => None
  | Some (operator, sizeToken) =>
      if negb (truthy sizeToken) then Some params
      else
        match parseSizeValue sizeToken with
        | None => Some params
        | Some sizeValue =>
            let params :=
              if String.eqb operator ">" || String.eqb operator ">="
              then setMinSize params sizeValue else params in
            let params :=
              if String.eqb operator "<" || String.eqb operator "<="
              then setMaxSize params sizeValue else params in
            let params :=
              if String.eqb operator "="
              then setMaxSize (setMinSize params sizeValue) sizeValue
              else params in
            Some params
        end
  end.

Fixpoint addExtensions (extensions : list string) (exts : gset string)
    : gset string :=
  match extensions with
  | [] => exts
  | ext :: extensions =>
      addExtensions extensions (if truthy ext then {[ext]} ∪ exts else exts)
  end.

Definition applyKeyToken (params : SearchParams) (token : string)
    : option SearchParams :=
  let colonIndex := indexOf token ":" in
  if colonIndex <=? 0 then None
  else
    let key := slice token 0 colonIndex in
    let value := sliceFrom token (colonIndex + 1) in
    Some
      (if String.eqb key "name" then
         mkSearchParams (terms params) (nameTerms params ++ [value])
           (pathTerms params) (exts params) (regex params)
           (minSize params) (maxSize params)
       else if String.eqb key "path" then
         mkSearchParams (terms params) (nameTerms params)
           (pathTerms params ++ [value]) (exts params) (regex params)
           (minSize params) (maxSize params)
       else if String.eqb key "ext" then
         mkSearchParams (terms params) (nameTerms params)
           (pathTerms params)
           (addExtensions (parseListInput value) (exts params))
           (regex params) (minSize params) (maxSize params)
       else if String.eqb key "regex" then
         match parseRegexToken value with
         | Some re =>
             mkSearchParams (terms params) (nameTerms params)
               (pathTerms params) (exts params) (Some re)
               (minSize params) (maxSize params)
         | None => params
         end
       else
         mkSearchParams (terms params ++ [token]) (nameTerms params)
           (pathTerms params) (exts params) (regex params)
           (minSize params) (maxSize params)).

Definition emptySearchParams : SearchParams :=
  mkSearchParams [] [] [] ∅ None None None.

Fixpoint parseSearchQuery_loop (tokens : list string)
    (params : SearchParams) : SearchParams :=
  match tokens with
  | [] => params
  | rawToken :: tokens =>
      if negb (truthy rawToken) then parseSearchQuery_loop tokens params
      else
        let token := toLowerCase rawToken in
        match applySizeToken params token with
        | Some params => parseSearchQuery_loop tokens params
        | None =>
            match applyKeyToken params token with
            | Some params => parseSearchQuery_loop tokens params
            | None =>
                parseSearchQuery_loop tokens
                  (mkSearchParams (terms params ++ [token])
                     (nameTerms params) (pathTerms params) (exts params)
                     (regex params) (minSize params) (maxSize params))
            end
        end
  end.

(** [split(/\s+/).filter(Boolean)]: splitting at every white-space
    character and dropping the empty pieces gives the same tokens. *)
Definition parseSearchQuery (query : string) : SearchParams :=
  let tokens := List.filter truthy (splitOn isWhitespace (trim query)) in
  parseSearchQuery_loop tokens emptySearchParams.

Fixpoint matchesAllTokens (value : string) (tokens : list string) : bool :=
  match tokens with
  | [] => true
  | token :: tokens =>
      if negb (truthy token) then matchesAllTokens value tokens
      else if negb (includes value token) then false
      else matchesAllTokens value tokens
  end.

Fixpoint matchesSearchTerms (name path : string) (terms : list string)
    : bool :=
  match terms with
  | [] => true
  | term :: terms =>
      if negb (truthy term) then matchesSearchTerms name path terms
      else if negb (includes name term) && negb (includes path term) then false
      else matchesSearchTerms name path terms
  end.

Definition matchesSizeConstraints (sizeBytes : Z)
    (minSize maxSize : option Z) : bool :=
  match minSize with
  | Some m => if sizeBytes <? m then false else
      match maxSize with
      | Some M => if M <? sizeBytes then false else true
      | None => true
      end
  | None =>
      match maxSize with
      | Some M => if M <? sizeBytes then false else true
      | None => true
      end
  end.

(** [re.test(path) || re.test(name)]: the name is tested only when the
    path did not match, on the object as the first call left it. *)
Definition testPathOrName (re : RegExp) (path name : string) : bool * RegExp :=
  let '(inPath, re) := regexTest re path in
  if inPath then (true, re)
  else regexTest re name.

(** The result, and the regular expression as the calls of [test] left
    it. *)
Definition matchesRegexConstraint (name path : string)
    (regex : option RegExp) : bool * option RegExp :=
  match regex with
  | Some re =>
      let '(matched, re) := testPathOrName re path name in
      (matched, Some re)
  | None => (true, None)
  end.

Definition setRegex (params : SearchParams) (v : option RegExp) : SearchParams :=
  mkSearchParams (terms params) (nameTerms params) (pathTerms params)
    (exts params) v (minSize params) (maxSize params).

(** The result, and [params] with its regular expression as the call
    left it: the object is shared by the calls for all entries. *)
Definition matchesSearchEntry (entry : ScanFile) (params : SearchParams)
    : bool * SearchParams :=
  let name := toLowerCase (name entry) in
  let path := toLowerCase (path entry) in
  if negb (matchesAllTokens name (nameTerms params)) then (false, params)
  else if negb (matchesAllTokens path (pathTerms params)) then (false, params)
  else if negb (matchesSearchTerms name path (terms params))
  then (false, params)
  else if (0 <? Z.of_nat (size (exts params))) &&
          match getPathExtension path with
          | Some ext => negb (truthy ext) || negb (bool_decide (ext ∈ exts params))
          | None => true
          end
  then (false, params)
  else if negb (matchesSizeConstraints (sizeBytes entry)
                  (minSize params) (maxSize params))
  then (false, params)
  else
    let '(matched, regex) := matchesRegexConstraint name path (regex params) in
    (matched, setRegex params regex).

Record FilterMatchers := mkFilterMatchers {
  includeExts : gset string;
  excludeExts : gset string;
  includeRegexM : option RegExp;
  excludeRegexM : option RegExp;
  includePathsM : list string;
  excludePathsM : list string
}.

Definition buildFilterMatchers (filters : ScanFilters) : FilterMatchers :=
  {| includeExts := list_to_set (includeExtensions filters);
     excludeExts := list_to_set (excludeExtensions filters);
     includeRegexM :=
       parseRegexToken
         (match includeRegex filters with Some s => s | None => "" end);
     excludeRegexM :=
       parseRegexToken
         (match excludeRegex filters with Some s => s | None => "" end);
     includePathsM := includePaths filters;
     excludePathsM := excludePaths filters |}.

Fixpoint pathContainsAny (path : string) (values : list string) : bool :=
  match values with
  | [] => false
  | value :: values =>
      if truthy value && includes path value then true
      else pathContainsAny path values
  end.

Definition matchesPathFilters (path : string)
    (includePaths excludePaths : list string) : bool :=
  let normalized := toLowerCase path in
  if (0 <? Z.of_nat (length includePaths)) &&
     negb (pathContainsAny normalized includePaths) then false
  else if (0 <? Z.of_nat (length excludePaths)) &&
          pathContainsAny normalized excludePaths then false
  else true.

Definition matchesExtensionFilters (path : string)
    (includeExts excludeExts : gset string) : bool :=
  let ext := getPathExtension path in
  if (0 <? Z.of_nat (size includeExts)) &&
     match ext with
     | Some e => negb (truthy e) || negb (bool_decide (e ∈ includeExts))
     | None => true
     end
  then false
  else if (0 <? Z.of_nat (size excludeExts)) &&
          match ext with
          | Some e => truthy e && bool_decide (e ∈ excludeExts)
          | None => false
          end
  then false
  else true.

(** The result, and the two regular expressions as the calls of [test]
    left them; the exclude expression is not tested when the include
    expression has rejected the entry. *)
Definition matchesRegexFilters (path name : string)
    (includeRegex excludeRegex : option RegExp)
    : bool * (option RegExp * option RegExp) :=
  let '(included, includeRegex) :=
    match includeRegex with
    | Some re =>
        let '(matched, re) := testPathOrName re path name in
        (matched, Some re)
    | None => (true, None)
    end in
  if negb included then (false, (includeRegex, excludeRegex))
  else
    match excludeRegex with
    | Some re =>
        let '(matched, re) := testPathOrName re path name in
        (negb matched, (includeRegex, Some re))
    | None => (true, (includeRegex, None))
    end.

(** The result, and [matchers] with its regular expressions as the
    call left them: the compiled matchers are shared by the calls for
    all files. *)
Definition matchesFilterFile (file : ScanFile) (matchers : FilterMatchers)
    : bool * FilterMatchers :=
  let path := toLowerCase (path file) in
  let name := toLowerCase (name file) in
  if negb (matchesExtensionFilters path (includeExts matchers)
             (excludeExts matchers)) then (false, matchers)
  else if negb (matchesPathFilters path (includePathsM matchers)
                  (excludePathsM matchers)) then (false, matchers)
  else
    let '(matched, (includeRegex, excludeRegex)) :=
      matchesRegexFilters path name (includeRegexM matchers)
        (excludeRegexM matchers) in
    (matched,
     mkFilterMatchers (includeExts matchers) (excludeExts matchers)
       includeRegex excludeRegex (includePathsM matchers)
       (excludePathsM matchers)).

(** *** The combination rule, category by category

    Each category reads: the include list, when supplied, must be
    met by at least one of its members, and no member of the exclude
    list may be met. *)

Definition extensionOf (file : ScanFile) : option string :=
  getPathExtension (toLowerCase (path file)).

Definition extensionsSatisfied (filters : ScanFilters) (file : ScanFile)
    : Prop :=
  (includeExtensions filters <> [] ->
     exists e, extensionOf file = Some e /\ In e (includeExtensions filters)) /\
  (forall e, extensionOf file = Some e -> ~ In e (excludeExtensions filters)).


Definition pathsSatisfied (filters : ScanFilters) (file : ScanFile)
    : Prop :=
  (includePaths filters <> [] ->
     exists v, In v (includePaths filters) /\ v <> "" /\
               includes (toLowerCase (path file)) v = true) /\
  (forall v, In v (excludePaths filters) -> v <> "" ->
             includes (toLowerCase (path file)) v = false).


Definition compiledRegex (source : option string) : option RegExp :=
  parseRegexToken (match source with Some s => s | None => "" end).

Definition regexSatisfied (filters : ScanFilters) (file : ScanFile)
    : Prop :=
  (forall re, compiledRegex (includeRegex filters) = Some re ->
     fst (regexTest re (toLowerCase (path file))) = true \/
     fst (regexTest re (toLowerCase (name file))) = true) /\
  (forall re, compiledRegex (excludeRegex filters) = Some re ->
     fst (regexTest re (toLowerCase (path file))) = false /\
     fst (regexTest re (toLowerCase (name file))) = false).

(** The compiled regular expressions of the filter have no state. *)
Definition statelessRegexes (filters : ScanFilters) : Prop :=
  (forall re, compiledRegex (includeRegex filters) = Some re -> stateless re) /\
  (forall re, compiledRegex (excludeRegex filters) = Some re -> stateless re).


(** The categories the compiled matchers carry. *)
Definition satisfiesCompiledCategories (filters : ScanFilters)
    (file : ScanFile) : Prop :=
  extensionsSatisfied filters file /\ pathsSatisfied filters file /\
  regexSatisfied filters file.

End WithHost.

(** Sample inputs. *)
Definition vacationQuery : string := "size>10mb ext:png,jpg name:vacation".

Definition vacationPhoto : ScanFile :=
  mkScanFile "/pics/vacation_photo.png" "vacation_photo.png" (15 * 1024 ^ 2).

Definition report (path : string) : ScanFile :=
  mkScanFile path "report.pdf" (15 * 1024 ^ 2).

Definition noFilters : ScanFilters :=
  mkScanFilters [] [] [] [] None None None None [] [].


Definition tinyFile : ScanFile := mkScanFile "/tmp/note.txt" "note.txt" 1.

(** [n] zeros, to write long numerals. *)
Fixpoint zeros (n : nat) : string :=
  match n with
  | O => EmptyString
  | S n => String "0" (zeros n)
  end.

End Predicate.

(** ** Remote listing: requests, responses and the watchdog

    The part of the scan view that tracks [list] requests: the refs
    [remoteListRequestIdRef], [remoteListRequestMapRef] and
    [remoteListTimeoutsRef], the React state they feed, and the window
    timers.  A state setter takes effect at once. *)

Module RemoteList.
Import Js.
Local Open Scope string_scope.
Local Open Scope list_scope.
Local Open Scope Z_scope.

Record RemoteTreeNode := mkRemoteTreeNode {
  path : string;
  name : string;
  isDir : bool;
  children : option (list string);
  loading : bool;
  error : option string
}.

Record RemoteEntry := mkRemoteEntry {
  entryPath : string;
  entryName : string;
  entryIsDir : bool
}.

(** [RemoteListPayload]: [entries], [os] and [path] may be missing. *)
Record RemoteListPayload := mkRemoteListPayload {
  entries : option (list RemoteEntry);
  os : option string;
  listedPath : option string
}.

Record RemoteEventPayload := mkRemoteEventPayload {
  event : string;
  id : option string;
  data : option RemoteListPayload;
  message : option string
}.

Record State := mkState {
  remoteSyncEnabled : bool;
  isRemoteConnected : bool;
  remoteListRequestIdRef : option string;
  remoteListRequestMapRef : gmap string (option string);
  remoteListTimeoutsRef : gmap string Z;
  remoteTree : gmap string RemoteTreeNode;
  remoteTreeRoots : list string;
  remoteTreeExpanded : gset string;
  remoteFocusPath : option string;
  remoteListLoading : bool;
  remoteListError : option string;
  remoteOs : option string;
  (** armed window timers: timer id, with the request id its callback
      closes over and its delay in milliseconds *)
  timers : gmap Z (string * Z);
  nextTimerId : Z;
  (** the [requestRemoteList(requestId, path)] calls made so far *)
  sent : list (string * option string)
}.

Definition initialState (syncEnabled connected : bool) : State :=
  mkState syncEnabled connected None ∅ ∅ ∅ [] ∅ None false None None ∅ 1 [].

Definition setRequestIdRef (v : option string) (s : State) : State :=
  mkState (remoteSyncEnabled s) (isRemoteConnected s) v
    (remoteListRequestMapRef s) (remoteListTimeoutsRef s) (remoteTree s)
    (remoteTreeRoots s) (remoteTreeExpanded s) (remoteFocusPath s)
    (remoteListLoading s) (remoteListError s) (remoteOs s) (timers s)
    (nextTimerId s) (sent s).

Definition setRequestMap (v : gmap string (option string)) (s : State) : State :=
  mkState (remoteSyncEnabled s) (isRemoteConnected s) (remoteListRequestIdRef s)
    v (remoteListTimeoutsRef s) (remoteTree s)
    (remoteTreeRoots s) (remoteTreeExpanded s) (remoteFocusPath s)
    (remoteListLoading s) (remoteListError s) (remoteOs s) (timers s)
    (nextTimerId s) (sent s).

Definition setTimeouts (v : gmap string Z) (s : State) : State :=
  mkState (remoteSyncEnabled s) (isRemoteConnected s) (remoteListRequestIdRef s)
    (remoteListRequestMapRef s) v (remoteTree s)
    (remoteTreeRoots s) (remoteTreeExpanded s) (remoteFocusPath s)
    (remoteListLoading s) (remoteListError s) (remoteOs s) (timers s)
    (nextTimerId s) (sent s).

Definition setRemoteTree (v : gmap string RemoteTreeNode) (s : State) : State :=
  mkState (remoteSyncEnabled s) (isRemoteConnected s) (remoteListRequestIdRef s)
    (remoteListRequestMapRef s) (remoteListTimeoutsRef s) v
    (remoteTreeRoots s) (remoteTreeExpanded s) (remoteFocusPath s)
    (remoteListLoading s) (remoteListError s) (remoteOs s) (timers s)
    (nextTimerId s) (sent s).

Definition setRemoteTreeRoots (v : list string) (s : State) : State :=
  mkState (remoteSyncEnabled s) (isRemoteConnected s) (remoteListRequestIdRef s)
    (remoteListRequestMapRef s) (remoteListTimeoutsRef s) (remoteTree s)
    v (remoteTreeExpanded s) (remoteFocusPath s)
    (remoteListLoading s) (remoteListError s) (remoteOs s) (timers s)
    (nextTimerId s) (sent s).

Definition setRemoteTreeExpanded (v : gset string) (s : State) : State :=
  mkState (remoteSyncEnabled s) (isRemoteConnected s) (remoteListRequestIdRef s)
    (remoteListRequestMapRef s) (remoteListTimeoutsRef s) (remoteTree s)
    (remoteTreeRoots s) v (remoteFocusPath s)
    (remoteListLoading s) (remoteListError s) (remoteOs s) (timers s)
    (nextTimerId s) (sent s).

Definition setRemoteFocusPath (v : option string) (s : State) : State :=
  mkState (remoteSyncEnabled s) (isRemoteConnected s) (remoteListRequestIdRef s)
    (remoteListRequestMapRef s) (remoteListTimeoutsRef s) (remoteTree s)
    (remoteTreeRoots s) (remoteTreeExpanded s) v
    (remoteListLoading s) (remoteListError s) (remoteOs s) (timers s)
    (nextTimerId s) (sent s).

Definition setRemoteListLoading (v : bool) (s : State) : State :=
  mkState (remoteSyncEnabled s) (isRemoteConnected s) (remoteListRequestIdRef s)
    (remoteListRequestMapRef s) (remoteListTimeoutsRef s) (remoteTree s)
    (remoteTreeRoots s) (remoteTreeExpanded s) (remoteFocusPath s)
    v (remoteListError s) (remoteOs s) (timers s)
    (nextTimerId s) (sent s).

Definition setRemoteListError (v : option string) (s : State) : State :=
  mkState (remoteSyncEnabled s) (isRemoteConnected s) (remoteListRequestIdRef s)
    (remoteListRequestMapRef s) (remoteListTimeoutsRef s) (remoteTree s)
    (remoteTreeRoots s) (remoteTreeExpanded s) (remoteFocusPath s)
    (remoteListLoading s) v (remoteOs s) (timers s)
    (nextTimerId s) (sent s).

Definition setRemoteOs (v : option string) (s : State) : State :=
  mkState (remoteSyncEnabled s) (isRemoteConnected s) (remoteListRequestIdRef s)
    (remoteListRequestMapRef s) (remoteListTimeoutsRef s) (remoteTree s)
    (remoteTreeRoots s) (remoteTreeExpanded s) (remoteFocusPath s)
    (remoteListLoading s) (remoteListError s) v (timers s)
    (nextTimerId s) (sent s).

Definition setTimers (v : gmap Z (string * Z)) (next : Z) (s : State) : State :=
  mkState (remoteSyncEnabled s) (isRemoteConnected s) (remoteListRequestIdRef s)
    (remoteListRequestMapRef s) (remoteListTimeoutsRef s) (remoteTree s)
    (remoteTreeRoots s) (remoteTreeExpanded s) (remoteFocusPath s)
    (remoteListLoading s) (remoteListError s) (remoteOs s) v next (sent s).

Definition pushSent (v : string * option string) (s : State) : State :=
  mkState (remoteSyncEnabled s) (isRemoteConnected s) (remoteListRequestIdRef s)
    (remoteListRequestMapRef s) (remoteListTimeoutsRef s) (remoteTree s)
    (remoteTreeRoots s) (remoteTreeExpanded s) (remoteFocusPath s)
    (remoteListLoading s) (remoteListError s) (remoteOs s) (timers s)
    (nextTimerId s) (sent s ++ [v]).

(** Truthiness of [string | null | undefined]. *)
Definition truthyOpt (v : option string) : bool :=
  match v with
  | Some s => truthy s
  | None => false
  end.

Definition sameString (a b : option string) : bool :=
  match a, b with
  | Some x, Some y => String.eqb x y
  | None, None => true
  | _, _ => false
  end.

Definition isPathSeparator (c : ascii) : bool :=
  Ascii.eqb c "/" || Ascii.eqb c "\".

Fixpoint stripTrailingSeparators (s : string) : string :=
  match s with
  | EmptyString => EmptyString
  | String c rest =>
      match stripTrailingSeparators rest with
      | EmptyString => if isPathSeparator c then EmptyString else String c EmptyString
      | rest' => String c rest'
      end
  end.

Definition getRemoteNodeName (path : string) : string :=
  if String.eqb path "/" then "/"
  else
    let trimmed := stripTrailingSeparators path in
    let parts := List.filter truthy (splitOn isPathSeparator trimmed) in
    List.last parts path.

(** [window.clearTimeout(timeoutId)] *)
Definition clearTimeout (timeoutId : Z) (s : State) : State :=
  setTimers (delete timeoutId (timers s)) (nextTimerId s) s.

(** The three statements that retire a request id: delete it from the
    request map, clear its timer if there is one, delete it from the
    timer map. *)
Definition forgetRequest (requestId : string) (s : State) : State :=
  let s := setRequestMap (delete requestId (remoteListRequestMapRef s)) s in
  let s :=
    match remoteListTimeoutsRef s !! requestId with
    | Some timeoutId => if timeoutId =? 0 then s else clearTimeout timeoutId s
    | None => s
    end in
  setTimeouts (delete requestId (remoteListTimeoutsRef s)) s.

Fixpoint addListedEntries (entries : list RemoteEntry)
    (next : gmap string RemoteTreeNode) : gmap string RemoteTreeNode :=
  match entries with
  | [] => next
  | entry :: entries =>
      let existingChildren :=
        match next !! entryPath entry with
        | Some existing => children existing
        | None => None
        end in
      addListedEntries entries
        (<[entryPath entry :=
             mkRemoteTreeNode (entryPath entry) (entryName entry)
               (entryIsDir entry) existingChildren false None]> next)
  end.

Definition applyListing (entries : list RemoteEntry) (listPath : option string)
    (previous : gmap string RemoteTreeNode) : gmap string RemoteTreeNode :=
  let next := addListedEntries entries previous in
  let childPaths := List.map entryPath entries in
  match listPath with
  | Some p =>
      if truthy p then
        <[p := mkRemoteTreeNode p (getRemoteNodeName p) true
                 (Some childPaths) false None]> next
      else next
  | None => next
  end.

Definition markNodeFailed (requestPath : string) (text : string)
    (previous : gmap string RemoteTreeNode) : gmap string RemoteTreeNode :=
  match previous !! requestPath with
  | Some existing =>
      <[requestPath :=
          mkRemoteTreeNode (path existing) (name existing) (isDir existing)
            (children existing) false (Some text)]> previous
  | None => previous
  end.

Definition lookupRequestPath (s : State) (requestId : string) : option string :=
  match remoteListRequestMapRef s !! requestId with
  | Some recorded => recorded
  | None => None
  end.

Definition handleListComplete (s : State) (payload : RemoteEventPayload)
    : State :=
  let listId := remoteListRequestIdRef s in
  if truthyOpt (id payload) && truthyOpt listId &&
     negb (sameString (id payload) listId)
  then s
  else
    let '(s, requestPath) :=
      match data payload with
      | None => (s, None)
      | Some data =>
          let entries :=
            match entries data with Some l => l | None => [] end in
          let s := if truthyOpt (os data) then setRemoteOs (os data) s else s in
          let requestPath :=
            match id payload with
            | Some i => if truthy i then lookupRequestPath s i else None
            | None => None
            end in
          let isWindows := sameString (os data) (Some "windows") in
          let normalizedListPath :=
            if isWindows && sameString (listedPath data) (Some "/")
            then None else listedPath data in
          let listPath :=
            match normalizedListPath with
            | Some p => Some p
            | None => requestPath
            end in
          let s := setRemoteFocusPath listPath s in
          let s :=
            match id payload with
            | Some i => if truthy i then forgetRequest i s else s
            | None => s
            end in
          let s := setRemoteTree (applyListing entries listPath (remoteTree s)) s in
          let s :=
            match requestPath, listPath with
            | None, Some "/" =>
                setRemoteTreeExpanded ({["/"]} ∪ remoteTreeExpanded s)
                  (setRemoteTreeRoots ["/"] s)
            | None, None =>
                setRemoteTreeRoots (List.map entryPath entries) s
            | _, _ => s
            end in
          (s, requestPath)
      end in
    match requestPath with
    | None => setRemoteListError None (setRemoteListLoading false s)
    | Some _ => s
    end.

Definition messageOr (message : option string) (fallback : string) : string :=
  match message with
  | Some m => m
  | None => fallback
  end.

Definition failTrackedRequest (s : State) (requestId : string)
    (text : string) : State :=
  let requestPath := lookupRequestPath s requestId in
  let s := forgetRequest requestId s in
  match requestPath with
  | Some p =>
      if truthy p then setRemoteTree (markNodeFailed p text (remoteTree s)) s
      else s
  | None => s
  end.

Definition handleListError (s : State) (payload : RemoteEventPayload)
    : State :=
  let text := messageOr (message payload) "Failed to list remote folder" in
  if truthyOpt (id payload) then
    match id payload with
    | Some i => failTrackedRequest s i text
    | None => s
    end
  else setRemoteListError (Some text) (setRemoteListLoading false s).

Definition handleErrorEvent (s : State) (payload : RemoteEventPayload)
    : State :=
  let text := messageOr (message payload) "Remote error" in
  let s :=
    match id payload with
    | Some i => if truthy i then failTrackedRequest s i text else s
    | None => s
    end in
  setRemoteListError (Some text) (setRemoteListLoading false s).

(** The listing branches of [handleRemoteEvent]; the disk and scan
    branches touch none of the fields of [State]. *)
Definition handleRemoteEvent (s : State) (payload : RemoteEventPayload)
    : State :=
  if negb (remoteSyncEnabled s) then s
  else if String.eqb (event payload) "list-complete" then handleListComplete s payload
  else if String.eqb (event payload) "list-error" then handleListError s payload
  else if String.eqb (event payload) "error" then handleErrorEvent s payload
  else s.

Definition LIST_TIMEOUT_MS : Z := 5000.

(** [requestRemoteListing(path)], with the id [createRemoteRequestId]
    returned. *)
Definition requestRemoteListing (s : State) (requestId : string)
    (path : option string) : State :=
  if negb (remoteSyncEnabled s)
  then setRemoteListError (Some "Remote sync is disabled.") s
  else if negb (isRemoteConnected s)
  then setRemoteListError (Some "No remote server connected.") s
  else
    let isTopLevelRequest := negb (truthyOpt path) in
    let s := setRequestIdRef (Some requestId) s in
    let s := setRequestMap (<[requestId := path]> (remoteListRequestMapRef s)) s in
    let s :=
      match remoteListTimeoutsRef s !! requestId with
      | Some previousTimeout =>
          let s := if previousTimeout =? 0 then s
                   else clearTimeout previousTimeout s in
          setTimeouts (delete requestId (remoteListTimeoutsRef s)) s
      | None => s
      end in
    let s :=
      if isTopLevelRequest
      then setRemoteListError None (setRemoteListLoading true s)
      else s in
    let s := setRemoteFocusPath path s in
    let s :=
      match path with
      | Some p =>
          if truthy p then
            let s := setRemoteTreeExpanded ({[p]} ∪ remoteTreeExpanded s) s in
            setRemoteTree
              (match remoteTree s !! p with
               | None =>
                   <[p := mkRemoteTreeNode p (getRemoteNodeName p) true None
                            true None]> (remoteTree s)
               | Some existing =>
                   <[p := mkRemoteTreeNode (RemoteList.path existing)
                            (name existing) (isDir existing)
                            (children existing) true None]> (remoteTree s)
               end) s
          else s
      | None => s
      end in
    let timeoutId := nextTimerId s in
    let s := setTimers (<[timeoutId := (requestId, LIST_TIMEOUT_MS)]> (timers s))
               (timeoutId + 1) s in
    let s := setTimeouts (<[requestId := timeoutId]> (remoteListTimeoutsRef s)) s in
    pushSent (requestId, path) s.

(** The callback handed to [window.setTimeout]. *)
Definition listTimeoutCallback (s : State) (requestId : string) : State :=
  let requestPath := lookupRequestPath s requestId in
  let s := setRequestMap (delete requestId (remoteListRequestMapRef s)) s in
  let s := setTimeouts (delete requestId (remoteListTimeoutsRef s)) s in
  if negb (truthyOpt requestPath) then
    setRemoteListError (Some "Remote list request timed out.")
      (setRemoteListLoading false s)
  else
    match requestPath with
    | Some p =>
        setRemoteTree
          (markNodeFailed p "Remote list request timed out." (remoteTree s)) s
    | None => s
    end.

(** An armed timer expires: it leaves the armed set and its callback
    runs.  A cleared timer never expires. *)
Definition timerExpires (s : State) (timeoutId : Z) : State :=
  match timers s !! timeoutId with
  | Some (requestId, _) =>
      listTimeoutCallback (clearTimeout timeoutId s) requestId
  | None => s
  end.

(** The [catch] handler of [requestRemoteList]. *)
Definition listRequestRejected (s : State) (isTopLevelRequest : bool)
    (text : string) : State :=
  if isTopLevelRequest
  then setRemoteListError (Some text) (setRemoteListLoading false s)
  else s.

(** Sample runs. *)
Definition listing (path : string) (children : list (string * string))
    : RemoteListPayload :=
  mkRemoteListPayload
    (Some (List.map (fun c => mkRemoteEntry (fst c) (snd c) true) children))
    (Some "linux") (Some path).

Definition listComplete (requestId : string) (payload : RemoteListPayload)
    : RemoteEventPayload :=
  mkRemoteEventPayload "list-complete" (Some requestId) (Some payload) None.

Definition listError (requestId : string) (text : string)
    : RemoteEventPayload :=
  mkRemoteEventPayload "list-error" (Some requestId) None (Some text).

(** Two listings in flight: first [/a] under id [req-1], then [/b]
    under id [req-2]. *)
Definition twoInFlight : State :=
  requestRemoteListing
    (requestRemoteListing (initialState true true) "req-1" (Some "/a"))
    "req-2" (Some "/b").

Definition responseA : RemoteEventPayload :=
  listComplete "req-1" (listing "/a" [("/a/x", "x")]).

Definition responseB : RemoteEventPayload :=
  listComplete "req-2" (listing "/b" [("/b/y", "y")]).

(** A top-level listing under id [req-1], its watchdog expiring, and
    the response arriving after that. *)
Definition topLevelPending : State :=
  requestRemoteListing (initialState true true) "req-1" None.

Definition topLevelTimedOut : State := timerExpires topLevelPending 1.

Definition lateRootResponse : RemoteEventPayload :=
  listComplete "req-1" (listing "/" [("/home", "home")]).

(** The same for a listing of the folder [/a]. *)
Definition folderPending : State :=
  requestRemoteListing (initialState true true) "req-1" (Some "/a").

Definition folderTimedOut : State := timerExpires folderPending 1.

End RemoteList.

(** ** RemotePanel.tsx *)

Module RemotePanel.
Import Js.
Local Open Scope string_scope.
Local Open Scope list_scope.
Local Open Scope Z_scope.

Inductive RemoteStatus :=
| StatusDisconnected
| StatusConnecting
| StatusConnected
| StatusError.

Definition isConnecting (status : RemoteStatus) : bool :=
  match status with
  | StatusConnecting => true
  | _ => false
  end.

Definition isConnected (status : RemoteStatus) : bool :=
  match status with
  | StatusConnected => true
  | _ => false
  end.

Record RemoteServer := mkRemoteServer {
  id : string;
  name : string;
  host : string;
  port : Z;
  token : string;
  favorite : bool;
  status : RemoteStatus;
  lastMessage : option string
}.

(** The status push of [listenRemoteStatus]. *)
Record RemoteStatusPayload := mkRemoteStatusPayload {
  pushedStatus : RemoteStatus;
  address : option string;
  pushedMessage : option string
}.

(** What the panel reads and writes: the server list and the active id
    of the store, and its own error banner and input fields. *)
Record PanelState := mkPanelState {
  remoteServers : list RemoteServer;
  activeRemoteServerId : option string;
  error : option string;
  nameInput : string;
  hostInput : string;
  portInput : string;
  tokenInput : string
}.

(** Calls into the remote API. *)
Inductive ApiCall :=
| ConnectRemote (server : RemoteServer)
| DisconnectRemote.

Definition setError (v : option string) (s : PanelState) : PanelState :=
  mkPanelState (remoteServers s) (activeRemoteServerId s) v
    (nameInput s) (hostInput s) (portInput s) (tokenInput s).

(** Modelled from the spec: the store action [setActiveRemoteServerId]
    (the store module is missing from the sources); it records the id of
    the server the panel treats as active. *)
Definition setActiveRemoteServerId (v : option string) (s : PanelState)
    : PanelState :=
  mkPanelState (remoteServers s) v (error s)
    (nameInput s) (hostInput s) (portInput s) (tokenInput s).

Definition setRemoteServers (v : list RemoteServer) (s : PanelState)
    : PanelState :=
  mkPanelState v (activeRemoteServerId s) (error s)
    (nameInput s) (hostInput s) (portInput s) (tokenInput s).

Definition withStatus (server : RemoteServer) (status : RemoteStatus)
    (message : option string) : RemoteServer :=
  mkRemoteServer (id server) (name server) (host server) (port server)
    (token server) (favorite server) status message.

(** Modelled from the spec: the store action [updateRemoteServerStatus]
    (the store module is missing from the sources).  The data model says
    that a RemoteServer's connection status and last status message are
    mutated by connection-status events: the action sets both on the
    server with the given id and leaves the other servers alone.  An
    omitted message is taken as [null]. *)
Definition updateRemoteServerStatus (servers : list RemoteServer)
    (serverId : string) (status : RemoteStatus) (message : option string)
    : list RemoteServer :=
  List.map (fun server =>
              if String.eqb (id server) serverId
              then withStatus server status message else server) servers.

(** Modelled from the spec: the store action [addRemoteServer] (the
    store module is missing from the sources); a RemoteServer is created
    by the user and joins the list. *)
Definition addRemoteServer (servers : list RemoteServer)
    (server : RemoteServer) : list RemoteServer :=
  servers ++ [server].

Definition updateStatus (serverId : string) (status : RemoteStatus)
    (message : option string) (s : PanelState) : PanelState :=
  setRemoteServers
    (updateRemoteServerStatus (remoteServers s) serverId status message) s.

Section WithHost.
Context {jsHost : Host}.

Definition parsePort (value : string) : option Z :=
  match toNumber value with
  | None => None
  | Some parsed =>
      if Qlt_le_dec parsed 1 then None
      else if Qlt_le_dec 65535 parsed then None
      else Some (mathFloor parsed)
  end.

(** [inl] is the [error] variant, [inr] the [data] variant with name,
    host, port and token. *)
Definition getServerInput (nameInput hostInput portInput tokenInput : string)
    : string + (string * string * Z * string) :=
  let port := parsePort portInput in
  let host := trim hostInput in
  let name := trim nameInput in
  let token := trim tokenInput in
  match port with
  | None => inl "Provide a valid host and port."
  | Some port =>
      if negb (truthy host) then inl "Provide a valid host and port."
      else if negb (truthy token)
      then inl "Token is required for authentication."
      else inr (name, host, port, token)
  end.

(** [handleAddServer], with the id [createId] returned. *)
Definition handleAddServer (s : PanelState) (newId : string) : PanelState :=
  match getServerInput (nameInput s) (hostInput s) (portInput s)
          (tokenInput s) with
  | inl text => setError (Some text) s
  | inr (name, host, port, token) =>
      let server :=
        mkRemoteServer newId (if truthy name then name else host) host port
          token false StatusDisconnected None in
      mkPanelState (addRemoteServer (remoteServers s) server)
        (Some newId) None "" "" "4799" ""
  end.

End WithHost.

(** The loop of [resetConnectingServers] over the array it was handed,
    acting on the store. *)
Fixpoint resetConnectingServers (servers : list RemoteServer)
    (activeId : string) (store : list RemoteServer) : list RemoteServer :=
  match servers with
  | [] => store
  | server :: servers =>
      if String.eqb (id server) activeId
      then resetConnectingServers servers activeId store
      else if isConnecting (status server)
      then resetConnectingServers servers activeId
             (updateRemoteServerStatus store (id server) StatusDisconnected None)
      else resetConnectingServers servers activeId store
  end.

Fixpoint findServerByAddress_loop (servers : list RemoteServer)
    (normalized : string) : option RemoteServer :=
  match servers with
  | [] => None
  | server :: servers =>
      let serverAddress := host server +:+ ":" +:+ pretty (port server) in
      if String.eqb serverAddress normalized then Some server
      else findServerByAddress_loop servers normalized
  end.

Definition findServerByAddress (servers : list RemoteServer)
    (address : option string) : option RemoteServer :=
  match address with
  | None => None
  | Some address =>
      if negb (truthy address) then None
      else
        let normalized := trim address in
        if negb (truthy normalized) then None
        else findServerByAddress_loop servers normalized
  end.

(** The memo [connectingServerId]: the first server that is connecting. *)
Fixpoint connectingServerId (servers : list RemoteServer) : option string :=
  match servers with
  | [] => None
  | server :: servers =>
      if isConnecting (status server) then Some (id server)
      else connectingServerId servers
  end.

(** [handleConnect] up to the call of [connectRemote]: the new state and
    the calls made. *)
Definition handleConnect (s : PanelState) (server : RemoteServer)
    : PanelState * list ApiCall :=
  if negb (truthy (trim (token server)))
  then (setError (Some "Token is required for authentication.") s, [])
  else
    let blocked :=
      match connectingServerId (remoteServers s) with
      | Some connectingId =>
          truthy connectingId && negb (String.eqb connectingId (id server))
      | None => false
      end in
    if blocked
    then (setError (Some "Another connection is in progress.") s, [])
    else
      let s := setError None s in
      let s := setActiveRemoteServerId (Some (id server)) s in
      let s :=
        setRemoteServers
          (resetConnectingServers (remoteServers s) (id server)
             (remoteServers s)) s in
      let s := updateStatus (id server) StatusConnecting None s in
      (s, [ConnectRemote server]).

(** The [catch] branch of [handleConnect], with the text
    [formatConnectError] gave. *)
Definition connectRejected (s : PanelState) (serverId text : string)
    : PanelState :=
  setError (Some text) (updateStatus serverId StatusError (Some text) s).

(** [handleDisconnect] up to the call of [disconnectRemote]. *)
Definition handleDisconnect (s : PanelState) (server : RemoteServer)
    : PanelState * list ApiCall :=
  (setActiveRemoteServerId (Some (id server)) (setError None s),
   [DisconnectRemote]).

Definition disconnectResolved (s : PanelState) (serverId : string)
    : PanelState :=
  updateStatus serverId StatusDisconnected None s.

Definition disconnectRejected (s : PanelState) (serverId text : string)
    : PanelState :=
  setError (Some text) (updateStatus serverId StatusError (Some text) s).

(** The server a status push is applied to: the one at the pushed
    address, else the active one. *)
Definition pushTarget (s : PanelState) (payload : RemoteStatusPayload)
    : option string :=
  match findServerByAddress (remoteServers s) (address payload) with
  | Some matched => Some (id matched)
  | None => activeRemoteServerId s
  end.

(** The callback of [listenRemoteStatus]. *)
Definition onRemoteStatus (s : PanelState) (payload : RemoteStatusPayload)
    : PanelState :=
  let matched := findServerByAddress (remoteServers s) (address payload) in
  match pushTarget s payload with
  | None => s
  | Some targetId =>
      if negb (truthy targetId) then s
      else
        let s := updateStatus targetId (pushedStatus payload)
                   (pushedMessage payload) s in
        match matched with
        | Some m =>
            if isConnected (pushedStatus payload) && truthy (id m)
            then setActiveRemoteServerId (Some (id m)) s else s
        | None => s
        end
  end.

(** The continuation of [requestRemoteStatus] in the panel's effect. *)
Definition onStatusPolled (s : PanelState) (connected : bool) : PanelState :=
  match activeRemoteServerId s with
  | None => s
  | Some activeId =>
      if negb (truthy activeId) then s
      else if connected then updateStatus activeId StatusConnected None s
      else setActiveRemoteServerId None
             (updateStatus activeId StatusDisconnected None s)
  end.

Definition countConnecting (servers : list RemoteServer) : nat :=
  length (List.filter (fun server => isConnecting (status server)) servers).

(** The steps of the panel.  [admits] says which status pushes the
    channel may deliver in a given state. *)
Inductive step (admits : PanelState -> RemoteStatusPayload -> Prop)
    : PanelState -> PanelState -> Prop :=
| step_connect s server :
    In server (remoteServers s) ->
    step admits s (fst (handleConnect s server))
| step_connect_rejected s serverId text :
    step admits s (connectRejected s serverId text)
| step_disconnect s server :
    In server (remoteServers s) ->
    step admits s (fst (handleDisconnect s server))
| step_disconnect_resolved s serverId :
    step admits s (disconnectResolved s serverId)
| step_disconnect_rejected s serverId text :
    step admits s (disconnectRejected s serverId text)
| step_status s payload :
    admits s payload ->
    step admits s (onRemoteStatus s payload)
| step_polled s connected :
    step admits s (onStatusPolled s connected).

Inductive reachable (admits : PanelState -> RemoteStatusPayload -> Prop)
    (s0 : PanelState) : PanelState -> Prop :=
| reachable_refl : reachable admits s0 s0
| reachable_step s s' :
    reachable admits s0 s -> step admits s s' -> reachable admits s0 s'.

(** Every well-formed push is delivered. *)
Definition anyPush (s : PanelState) (payload : RemoteStatusPayload) : Prop :=
  True.

(** A push of [connecting] is delivered only for the attempt in flight:
    no server other than its target is connecting. *)
Definition pushOfAttemptInFlight (s : PanelState)
    (payload : RemoteStatusPayload) : Prop :=
  pushedStatus payload = StatusConnecting ->
  forall server, In server (remoteServers s) ->
    status server = StatusConnecting ->
    pushTarget s payload = Some (id server).

(** Sample servers and panels. *)
Definition serverA : RemoteServer :=
  mkRemoteServer "srv-a" "alpha" "10.0.0.1" 4799 "secret-a" false
    StatusDisconnected None.

Definition serverB : RemoteServer :=
  mkRemoteServer "srv-b" "beta" "10.0.0.2" 4799 "secret-b" false
    StatusDisconnected None.

Definition blankTokenServer : RemoteServer :=
  mkRemoteServer "srv-c" "gamma" "10.0.0.3" 4799 "   " false
    StatusDisconnected None.

Definition panelOf (servers : list RemoteServer) : PanelState :=
  mkPanelState servers None None "" "" "4799" "".

Definition pushConnecting (addr : string) : RemoteStatusPayload :=
  mkRemoteStatusPayload StatusConnecting (Some addr) None.

Definition twoServers : PanelState := panelOf [serverA; serverB].

(** The user has pressed Connect on the first server. *)
Definition connectingA : PanelState := fst (handleConnect twoServers serverA).

(** The channel reports [connecting] for one address, then for the
    other. *)
Definition afterTwoPushes : PanelState :=
  onRemoteStatus
    (onRemoteStatus twoServers (pushConnecting "10.0.0.1:4799"))
    (pushConnecting "10.0.0.2:4799").

(** Every connecting server of the list has the id [serverId]. *)
Definition onlyConnecting (servers : list RemoteServer) (serverId : string)
    : Prop :=
  forall server, In server servers ->
    status server = StatusConnecting -> id server = serverId.

Definition distinctIds (s : PanelState) : Prop :=
  NoDup (List.map id (remoteServers s)).

(** Ids are distinct and at most one server is connecting. *)
Definition panelInvariant (s : PanelState) : Prop :=
  distinctIds s /\ (countConnecting (remoteServers s) <= 1)%nat.

End RemotePanel.

(** ** The watchdog timers of the remote listing *)

Module Watchdog.
Import RemoteList.
Local Open Scope Z_scope.

(** The part of the state that tracks requests in flight. *)
Definition tracking (s : State)
    : gmap string (option string) * gmap string Z * gmap Z (string * Z) * Z :=
  (remoteListRequestMapRef s, remoteListTimeoutsRef s, timers s, nextTimerId s).

(** The timer map and the armed timers mirror each other: a request has
    a timer recorded exactly when that timer is armed for it, armed
    timers have ids handed out so far and the list delay, and a request
    has a timer exactly when it has an entry in the request map. *)
Definition timersTracked (s : State) : Prop :=
  (forall requestId timeoutId,
     remoteListTimeoutsRef s !! requestId = Some timeoutId <->
     timers s !! timeoutId = Some (requestId, LIST_TIMEOUT_MS)) /\
  (forall timeoutId armed,
     timers s !! timeoutId = Some armed ->
     0 < timeoutId < nextTimerId s /\ snd armed = LIST_TIMEOUT_MS) /\
  (forall requestId,
     remoteListTimeoutsRef s !! requestId = None <->
     remoteListRequestMapRef s !! requestId = None) /\
  0 < nextTimerId s.

End Watchdog.

(** ** lib/utils.ts *)

Module Utils.
Import Js.
Local Open Scope string_scope.
Local Open Scope Z_scope.

(** [truncateMiddle]; [scale keep] stands for the double product
    [keep * 0.35], whose rounding is left to the caller of the model. *)
Definition truncateMiddle (scale : Z -> Q) (value : string) (maxLength : Q)
    : string :=
  let safeMax := mathFloor maxLength in
  if safeMax <=? 0 then ""
  else if Z.of_nat (String.length value) <=? safeMax then value
  else if safeMax <=? 4 then slice value 0 safeMax
  else
    let keep := safeMax - 3 in
    let startLen := Z.max 2 (mathFloor (scale keep)) in
    let endLen := Z.max 2 (keep - startLen) in
    slice value 0 startLen +:+ "..." +:+
    sliceFrom value (Z.of_nat (String.length value) - endLen).

(** The product taken exactly. *)
Definition exactScale (keep : Z) : Q := inject_Z keep * (35 # 100).

End Utils.

(** ** Helpers of the scan view *)

Module ScanView.
Import Js.
Local Open Scope string_scope.
Local Open Scope list_scope.
Local Open Scope Z_scope.

(** [path.replace(/[\\/]+$/, "")] is the stripping already used by
    [getRemoteNodeName]. *)
Definition getParentPath (path : string) : option string :=
  let trimmed := RemoteList.stripTrailingSeparators path in
  let slashIndex := Z.max (lastIndexOf trimmed "/") (lastIndexOf trimmed "\") in
  if slashIndex <=? 0 then None
  else Some (slice trimmed 0 slashIndex).

Inductive SelectionKind :=
| KindFolder
| KindFile.

(** [parentPath] is optional; a missing and a [null] parent compare equal. *)
Record SelectionEntry := mkSelectionEntry {
  kind : SelectionKind;
  path : string;
  parentPath : option string
}.

Definition sameKind (a b : SelectionKind) : bool :=
  match a, b with
  | KindFolder, KindFolder => true
  | KindFile, KindFile => true
  | _, _ => false
  end.

Definition isSameSelection (leftEntry : option SelectionEntry)
    (rightEntry : SelectionEntry) : bool :=
  match leftEntry with
  | None => false
  | Some leftEntry =>
      sameKind (kind leftEntry) (kind rightEntry) &&
      String.eqb (path leftEntry) (path rightEntry) &&
      RemoteList.sameString (parentPath leftEntry) (parentPath rightEntry)
  end.

Definition MAX_SELECTION_HISTORY : Z := 50.

(** The pair is [{ history, index }]. *)
Definition createNextSelectionHistory (items : list SelectionEntry)
    (currentIndex : Z) (entry : SelectionEntry) (limit : Z)
    : list SelectionEntry * Z :=
  let safeIndex :=
    Z.min (Z.max currentIndex (-1)) (Z.of_nat (length items) - 1) in
  let head := firstn (Z.to_nat (safeIndex + 1)) items in
  let last := List.last (List.map Some head) None in
  if isSameSelection last entry
  then (head, Z.of_nat (length head) - 1)
  else
    let next := head ++ [entry] in
    let trimmed :=
      if limit <? Z.of_nat (length next)
      then skipn (Z.to_nat (Z.of_nat (length next) - limit)) next
      else next in
    (trimmed, Z.of_nat (length trimmed) - 1).

(** The selection state of the scan view: the history, the index into
    it (kept both as state and in [historyIndexRef]) and the folder and
    file shown as selected.  A state setter takes effect at once. *)
Record Selection := mkSelection {
  selectionHistory : list SelectionEntry;
  selectionHistoryIndex : Z;
  historyIndexRef : Z;
  selectedPath : option string;
  selectedFilePath : option string
}.

Definition initialSelection : Selection := mkSelection [] (-1) (-1) None None.

Definition addSelectionHistory (entry : SelectionEntry) (s : Selection)
    : Selection :=
  let '(history, index) :=
    createNextSelectionHistory (selectionHistory s) (historyIndexRef s) entry
      MAX_SELECTION_HISTORY in
  mkSelection history index index (selectedPath s) (selectedFilePath s).

Definition applySelectionFromHistory (entry : SelectionEntry) (s : Selection)
    : Selection :=
  match kind entry with
  | KindFile =>
      mkSelection (selectionHistory s) (selectionHistoryIndex s)
        (historyIndexRef s) (parentPath entry) (Some (path entry))
  | KindFolder =>
      mkSelection (selectionHistory s) (selectionHistoryIndex s)
        (historyIndexRef s) (Some (path entry)) None
  end.

Definition navigateToHistoryIndex (nextIndex : Z) (s : Selection) : Selection :=
  if (nextIndex <? 0) || (Z.of_nat (length (selectionHistory s)) <=? nextIndex)
  then s
  else
    match nth_error (selectionHistory s) (Z.to_nat nextIndex) with
    | None => s
    | Some entry =>
        applySelectionFromHistory entry
          (mkSelection (selectionHistory s) nextIndex nextIndex
             (selectedPath s) (selectedFilePath s))
    end.

Definition goBack (s : Selection) : Selection :=
  if selectionHistoryIndex s <=? 0 then s
  else navigateToHistoryIndex (selectionHistoryIndex s - 1) s.

Definition goForward (s : Selection) : Selection :=
  if Z.of_nat (length (selectionHistory s)) - 1 <=? selectionHistoryIndex s
  then s
  else navigateToHistoryIndex (selectionHistoryIndex s + 1) s.

Definition selectFolder (folderPath : string) (s : Selection) : Selection :=
  addSelectionHistory (mkSelectionEntry KindFolder folderPath None)
    (mkSelection (selectionHistory s) (selectionHistoryIndex s)
       (historyIndexRef s) (Some folderPath) None).

Definition selectFile (filePath folderPath : string) (s : Selection)
    : Selection :=
  addSelectionHistory (mkSelectionEntry KindFile filePath (Some folderPath))
    (mkSelection (selectionHistory s) (selectionHistoryIndex s)
       (historyIndexRef s) (Some folderPath) (Some filePath)).

(** What [applySelectionFromHistory] shows for an entry: the selected
    folder and the selected file. *)
Definition shownFor (entry : SelectionEntry) : option string * option string :=
  match kind entry with
  | KindFile => (parentPath entry, Some (path entry))
  | KindFolder => (Some (path entry), None)
  end.

(** The history and the selection agree: state and ref hold the same
    index, the index is -1 for an empty history and a position of it
    otherwise, the history is within its limit, no entry repeats the one
    before it, and what is shown is the entry at the index. *)
Definition selectionConsistent (s : Selection) : Prop :=
  selectionHistoryIndex s = historyIndexRef s /\
  (selectionHistory s = [] /\ selectionHistoryIndex s = -1 \/
   0 <= selectionHistoryIndex s < Z.of_nat (length (selectionHistory s))) /\
  Z.of_nat (length (selectionHistory s)) <= MAX_SELECTION_HISTORY /\
  (forall front a b rest,
     selectionHistory s = front ++ a :: b :: rest ->
     isSameSelection (Some a) b = false) /\
  (forall entry,
     0 <= selectionHistoryIndex s ->
     nth_error (selectionHistory s) (Z.to_nat (selectionHistoryIndex s)) =
       Some entry ->
     (selectedPath s, selectedFilePath s) = shownFor entry).

(** [ScanNode] with the files and child folders it holds. *)
#[warnings="-register-all"]
Inductive ScanTree :=
| mkScanTree (treePath treeName : string) (treeSizeBytes treeFileCount : Z)
    (treeFiles : list Predicate.ScanFile) (treeChildren : list ScanTree).

Definition treeFiles (t : ScanTree) : list Predicate.ScanFile :=
  match t with mkScanTree _ _ _ _ files _ => files end.

Definition treeChildren (t : ScanTree) : list ScanTree :=
  match t with mkScanTree _ _ _ _ _ children => children end.

Definition treeSizeBytes (t : ScanTree) : Z :=
  match t with mkScanTree _ _ size _ _ _ => size end.

Definition treeFileCount (t : ScanTree) : Z :=
  match t with mkScanTree _ _ _ count _ _ => count end.

Definition isEmptyFolder (node : ScanTree) : bool :=
  (treeSizeBytes node =? 0) && (treeFileCount node =? 0).

(** The stable sort with comparator [b.sizeBytes - a.sizeBytes]. *)
Fixpoint insertFileBySize (a : Predicate.ScanFile)
    (sorted : list Predicate.ScanFile) : list Predicate.ScanFile :=
  match sorted with
  | [] => [a]
  | b :: rest =>
      if Predicate.sizeBytes b <=? Predicate.sizeBytes a then a :: b :: rest
      else b :: insertFileBySize a rest
  end.

Fixpoint sortFilesBySize (files : list Predicate.ScanFile)
    : list Predicate.ScanFile :=
  match files with
  | [] => []
  | a :: rest => insertFileBySize a (sortFilesBySize rest)
  end.

(** [updateLargestFiles] mutates [largest]; here it returns the new
    array.  [limit] is a length. *)
Definition updateLargestFiles (largest : list Predicate.ScanFile)
    (file : Predicate.ScanFile) (limit : nat) : list Predicate.ScanFile :=
  if Predicate.sizeBytes file <=? 0 then largest
  else if Nat.ltb (length largest) limit
  then sortFilesBySize (largest ++ [file])
  else
    let smallest :=
      match List.last (List.map Some largest) None with
      | Some f => Predicate.sizeBytes f
      | None => 0
      end in
    if Predicate.sizeBytes file <=? smallest then largest
    else firstn limit (sortFilesBySize (largest ++ [file])).

Fixpoint scanFilesOf (files : list Predicate.ScanFile)
    (shouldInclude : option (Predicate.ScanFile -> bool))
    (largest : list Predicate.ScanFile) (limit : nat)
    : list Predicate.ScanFile :=
  match files with
  | [] => largest
  | file :: files =>
      let skip :=
        match shouldInclude with
        | Some include => negb (include file)
        | None => false
        end in
      scanFilesOf files shouldInclude
        (if skip then largest else updateLargestFiles largest file limit) limit
  end.

(** The [while] loop of [getLargestFilesForNode]; the head of [stack] is
    the top of the stack, so pushing the children in order puts the last
    child on top.  [None] when the bound on the iterations is hit. *)
Fixpoint getLargestFiles_loop (fuel : nat) (stack : list ScanTree)
    (shouldInclude : option (Predicate.ScanFile -> bool))
    (largest : list Predicate.ScanFile) (limit : nat)
    : option (list Predicate.ScanFile) :=
  match stack with
  | [] => Some largest
  | current :: stack =>
      match fuel with
      | O => None
      | S fuel =>
          getLargestFiles_loop fuel
            (List.rev (treeChildren current) ++ stack) shouldInclude
            (scanFilesOf (treeFiles current) shouldInclude largest limit)
            limit
      end
  end.

Fixpoint treeNodeCount (t : ScanTree) : nat :=
  match t with
  | mkScanTree _ _ _ _ _ children =>
      S (list_sum (List.map treeNodeCount children))
  end.

(** One iteration per folder of the tree. *)
Definition getLargestFilesForNode (node : ScanTree) (limit : nat)
    (shouldInclude : option (Predicate.ScanFile -> bool))
    : option (list Predicate.ScanFile) :=
  getLargestFiles_loop (treeNodeCount node) [node] shouldInclude [] limit.

(** A file of the tree: in the folder or in one below it. *)
Inductive FileIn (f : Predicate.ScanFile) : ScanTree -> Prop :=
| FileIn_here t : In f (treeFiles t) -> FileIn f t
| FileIn_below t c : In c (treeChildren t) -> FileIn f c -> FileIn f t.

Definition filesDescending (files : list Predicate.ScanFile) : Prop :=
  StronglySorted
    (fun a b => Predicate.sizeBytes b <= Predicate.sizeBytes a) files.

(** [largest] holds the [limit] largest of the files that satisfy
    [seen]: it is sorted, within the limit, made of such files, and
    a file left out is no larger than any file kept in a full list. *)
Definition keepsLargest (limit : nat) (seen : Predicate.ScanFile -> Prop)
    (largest : list Predicate.ScanFile) : Prop :=
  filesDescending largest /\
  (length largest <= limit)%nat /\
  Forall seen largest /\
  forall f, seen f ->
    In f largest \/
    (length largest = limit /\
     Forall (fun g => Predicate.sizeBytes f <= Predicate.sizeBytes g) largest).

(** The files [getLargestFilesForNode] considers: files of the tree of
    positive size that pass the optional predicate. *)
Definition candidateFile (node : ScanTree)
    (shouldInclude : option (Predicate.ScanFile -> bool))
    (f : Predicate.ScanFile) : Prop :=
  FileIn f node /\ 0 < Predicate.sizeBytes f /\
  match shouldInclude with
  | Some include => include f = true
  | None => True
  end.


Definition MENU_WIDTH : Q := 220.
Definition MENU_HEIGHT : Q := 152.

(** [getMenuPosition], with the pointer position and the window size the
    event and [window] give. *)
Definition getMenuPosition (clientX clientY innerWidth innerHeight
    menuWidth menuHeight : Q) : Q * Q :=
  let maxX := (innerWidth - menuWidth - 8)%Q in
  let maxY := (innerHeight - menuHeight - 8)%Q in
  (Qmax 8 (Qmin clientX maxX), Qmax 8 (Qmin clientY maxY)).

(** Sample inputs. *)
Definition sampleHistory : list SelectionEntry :=
  [mkSelectionEntry KindFolder "/root" None;
   mkSelectionEntry KindFolder "/root/a" None].

End ScanView.

(** ** The folder tree of the explorer *)

Module Explorer.
Import Js ScanView.
Local Open Scope string_scope.
Local Open Scope list_scope.
Local Open Scope Z_scope.

Definition treePath (t : ScanTree) : string :=
  match t with mkScanTree path _ _ _ _ _ => path end.

Definition treeName (t : ScanTree) : string :=
  match t with mkScanTree _ name _ _ _ _ => name end.

(** [FlatNode]: a row of the explorer. *)
Record FlatNode := mkFlatNode {
  depth : Z;
  kind : SelectionKind;
  path : string;
  name : string;
  sizeBytes : Z;
  hasChildren : bool;
  node : option ScanTree;
  file : option Predicate.ScanFile;
  parentPath : option string
}.

Definition folderRow (current : ScanTree) (depth : Z) (showFiles : bool)
    : FlatNode :=
  mkFlatNode depth KindFolder (treePath current) (treeName current)
    (treeSizeBytes current)
    ((0 <? Z.of_nat (length (treeChildren current))) ||
     (showFiles && (0 <? Z.of_nat (length (treeFiles current)))))
    (Some current) None None.

Definition fileRow (parent : ScanTree) (depth : Z) (f : Predicate.ScanFile)
    : FlatNode :=
  mkFlatNode (depth + 1) KindFile (Predicate.path f) (Predicate.name f)
    (Predicate.sizeBytes f) false None (Some f) (Some (treePath parent)).

(** An entry of the work stack of [buildTreeItems]. *)
Record StackEntry := mkStackEntry {
  entryNode : ScanTree;
  entryDepth : Z;
  isRoot : bool
}.

(** The [while] loop of [buildTreeItems]; the head of [stack] is the top
    of the stack, so pushing the child folders from the last to the
    first puts the first child on top.  The files are pushed onto the
    result from the last of the sorted array to the first.  [None] when
    the bound on the iterations is hit. *)
Fixpoint buildTreeItems_loop (fuel : nat) (stack : list StackEntry)
    (expanded : gset string) (showFiles hideEmptyFolders : bool)
    (result : list FlatNode) : option (list FlatNode) :=
  match stack with
  | [] => Some result
  | current :: stack =>
      match fuel with
      | O => None
      | S fuel =>
          let shouldHide :=
            hideEmptyFolders && negb (isRoot current) &&
            isEmptyFolder (entryNode current) in
          if shouldHide
          then buildTreeItems_loop fuel stack expanded showFiles
                 hideEmptyFolders result
          else
            let result :=
              result ++
              [folderRow (entryNode current) (entryDepth current) showFiles] in
            if negb (bool_decide (treePath (entryNode current) ∈ expanded))
            then buildTreeItems_loop fuel stack expanded showFiles
                   hideEmptyFolders result
            else
              let childFolders := treeChildren (entryNode current) in
              let childFiles :=
                if showFiles then sortFilesBySize (treeFiles (entryNode current))
                else [] in
              let result :=
                result ++
                List.map (fileRow (entryNode current) (entryDepth current))
                  (List.rev childFiles) in
              buildTreeItems_loop fuel
                (List.map
                   (fun child => mkStackEntry child (entryDepth current + 1) false)
                   childFolders ++ stack)
                expanded showFiles hideEmptyFolders result
      end
  end.

(** One iteration per folder that is reached. *)
Definition buildTreeItems (root : ScanTree) (expanded : gset string)
    (showFiles hideEmptyFolders : bool) : option (list FlatNode) :=
  buildTreeItems_loop (treeNodeCount root) [mkStackEntry root 0 true]
    expanded showFiles hideEmptyFolders [].

(** The rows of a folder in pre-order, by recursion on the tree: the
    folder itself unless it is hidden, and when it is expanded its files
    from the smallest to the largest and then its child folders in
    order, each with its own rows. *)
Fixpoint preorderRows (expanded : gset string)
    (showFiles hideEmptyFolders : bool) (current : ScanTree) (depth : Z)
    (isRoot : bool) : list FlatNode :=
  match current with
  | mkScanTree path _ _ _ files children =>
      if hideEmptyFolders && negb isRoot && isEmptyFolder current then []
      else
        folderRow current depth showFiles ::
        (if bool_decide (path ∈ expanded) then
           List.map (fileRow current depth)
             (List.rev (if showFiles then sortFilesBySize files else [])) ++
           List.flat_map
             (fun child =>
                preorderRows expanded showFiles hideEmptyFolders child
                  (depth + 1) false)
             children
         else [])
  end.

(** The [while] loop of [buildNodeMap]; the head of [stack] is the top
    of the stack. *)
Fixpoint buildNodeMap_loop (fuel : nat) (stack : list ScanTree)
    (map : gmap string ScanTree) : option (gmap string ScanTree) :=
  match stack with
  | [] => Some map
  | current :: stack =>
      match fuel with
      | O => None
      | S fuel =>
          buildNodeMap_loop fuel (List.rev (treeChildren current) ++ stack)
            (<[treePath current := current]> map)
      end
  end.

Definition buildNodeMap (root : ScanTree) : option (gmap string ScanTree) :=
  buildNodeMap_loop (treeNodeCount root) [root] ∅.

(** A folder of the tree: the root or a folder below it. *)
Inductive FolderIn (t : ScanTree) : ScanTree -> Prop :=
| FolderIn_here : FolderIn t t
| FolderIn_below root child :
    In child (treeChildren root) -> FolderIn t child -> FolderIn t root.

End Explorer.

(** ** UsageCharts.tsx *)

Module UsageCharts.
Import Js.
Local Open Scope string_scope.
Local Open Scope list_scope.
Local Open Scope Z_scope.

Record ChartSegment := mkChartSegment {
  label : string;
  sizeBytes : Z
}.

(** The fields of the charted [ScanNode] that [buildSegments] reads. *)
Record ChartNode := mkChartNode {
  nodeSizeBytes : Z;
  children : list Treemap.ScanNode
}.

(** [sumSizes] and [sortBySize] have the bodies of the treemap's
    [sumNodeSizes] and [sortBySize]. *)
Definition sumSizes (nodes : list Treemap.ScanNode) : Z :=
  Treemap.sumNodeSizes nodes.

Definition sortBySize (nodes : list Treemap.ScanNode) : list Treemap.ScanNode :=
  Treemap.sortBySize nodes.

Fixpoint sumSegmentBytes (segments : list ChartSegment) : Z :=
  match segments with
  | [] => 0
  | segment :: segments => sizeBytes segment + sumSegmentBytes segments
  end.

Definition getTotalBytes (node : ChartNode) : Z :=
  if 0 <? nodeSizeBytes node then nodeSizeBytes node
  else sumSizes (children node).

(** The [for] loop of [buildSegments]: the segments pushed and the bytes
    used. *)
Fixpoint buildSegments_loop (sorted : list Treemap.ScanNode) (limit : Z)
    (segments : list ChartSegment) (used : Z) : list ChartSegment * Z :=
  match sorted with
  | [] => (segments, used)
  | item :: sorted =>
      if Z.of_nat (length segments) <? limit then
        if Treemap.sizeBytes item <=? 0
        then buildSegments_loop sorted limit segments used
        else buildSegments_loop sorted limit
               (segments ++ [mkChartSegment (Treemap.name item) (Treemap.sizeBytes item)])
               (used + Treemap.sizeBytes item)
      else (segments, used)
  end.

(** [None] is the [null] node. *)
Definition buildSegments (node : option ChartNode) (limit : Z)
    : list ChartSegment :=
  match node with
  | None => []
  | Some node =>
      match children node with
      | [] => []
      | _ =>
          let sorted := sortBySize (children node) in
          let total := getTotalBytes node in
          let '(segments, used) := buildSegments_loop sorted limit [] 0 in
          if used <? total
          then segments ++ [mkChartSegment "Other" (total - used)]
          else segments
      end
  end.

End UsageCharts.

(** ** SettingsPanel.tsx *)

Module Settings.
Import Js.
Local Open Scope string_scope.
Local Open Scope list_scope.
Local Open Scope Z_scope.

Fixpoint allDigits (s : string) : bool :=
  match s with
  | EmptyString => true
  | String c rest => isDigit c && allDigits rest
  end.

(** The match of the bind-address pattern (any text, a colon, one or more
    digits up to the end): the greedy first group ends at the last colon
    and holds no line terminator; the second group is the digits. *)
Definition matchBindAddress (s : string) : option (string * string) :=
  let colon := lastIndexOf s ":" in
  if colon <? 0 then None
  else
    let before := slice s 0 colon in
    let after := sliceFrom s (colon + 1) in
    if truthy after && allDigits after && Predicate.noLineTerminator before
    then Some (before, after) else None.

(** [Number] of a digit string beyond the range of a double is infinite;
    it fails the same test as a port above 65535. *)
Definition validateTcpBind (value : string) : option string :=
  let trimmed := trim value in
  if negb (truthy trimmed) then None
  else if String.eqb (toLowerCase trimmed) "localhost"
  then Some "Use an IP address like 127.0.0.1:4799."
  else
    match matchBindAddress trimmed with
    | None => Some "Bind address must include a port (e.g. 127.0.0.1:4799)."
    | Some (hostText, portText) =>
        let host := trim hostText in
        let portValue := digitsValue portText 0 in
        if negb (truthy host) then Some "Bind address host is required."
        else if (portValue <? 1) || (65535 <? portValue)
        then Some "Port must be between 1 and 65535."
        else None
    end.

End Settings.

(** * Properties *)

(** ** Treemap: sums, sorting and the split index *)

Section TreemapFacts.
Import Treemap.

Lemma sumNodeSizes_app l1 l2 :
  sumNodeSizes (l1 ++ l2) = sumNodeSizes l1 + sumNodeSizes l2.
Proof. induction l1 as [|a l1 IH]; simpl; lia. Qed.

Lemma sumNodeSizes_split k l :
  sumNodeSizes (firstn k l) + sumNodeSizes (skipn k l) = sumNodeSizes l.
Proof. rewrite <- sumNodeSizes_app. now rewrite firstn_skipn. Qed.

Lemma sumNodeSizes_perm l1 l2 :
  Permutation l1 l2 -> sumNodeSizes l1 = sumNodeSizes l2.
Proof. induction 1; simpl; lia. Qed.

Lemma sumNodeSizes_pos l :
  l <> [] -> Forall (fun n => 0 < sizeBytes n) l -> 0 < sumNodeSizes l.
Proof.
  intros Hne Hall. destruct l as [|a l]; [congruence|].
  inversion Hall as [|? ? Ha Hl]; subst. clear Hne Hall. simpl.
  enough (0 <= sumNodeSizes l) by lia.
  induction Hl as [|b l Hb Hl IH]; simpl; lia.
Qed.

Lemma insertBySize_perm a l : Permutation (insertBySize a l) (a :: l).
Proof.
  induction l as [|b l IH]; simpl; [reflexivity|].
  destruct (sizeBytes b <=? sizeBytes a); [reflexivity|].
  rewrite IH. apply perm_swap.
Qed.

Lemma sortBySize_perm l : Permutation (sortBySize l) l.
Proof.
  induction l as [|a l IH]; simpl; [reflexivity|].
  rewrite insertBySize_perm. now constructor.
Qed.

Lemma sortBySize_length l : length (sortBySize l) = length l.
Proof. apply Permutation_length, sortBySize_perm. Qed.

Lemma sortBySize_sum l : sumNodeSizes (sortBySize l) = sumNodeSizes l.
Proof. apply sumNodeSizes_perm, sortBySize_perm. Qed.

Lemma insertBySize_descending a l :
  descending l -> descending (insertBySize a l).
Proof.
  unfold descending. induction 1 as [|b l Hl IH Hb]; simpl.
  - repeat constructor.
  - destruct (Z.leb_spec (sizeBytes b) (sizeBytes a)) as [Hle|Hlt].
    + constructor; [now constructor|].
      constructor; [exact Hle|].
      eapply Forall_impl; [exact Hb|]. simpl. intros c Hc. lia.
    + constructor; [exact IH|].
      eapply Permutation_Forall; [symmetry; apply insertBySize_perm|].
      constructor; [lia|exact Hb].
Qed.

Lemma sortBySize_descending l : descending (sortBySize l).
Proof.
  induction l as [|a l IH]; simpl.
  - constructor.
  - now apply insertBySize_descending.
Qed.

(** The test [currentSum >= total / 2] on integers. *)
Lemma half_test total c :
  Qle_bool (inject_Z total / 2) (inject_Z c) = true <-> total <= 2 * c.
Proof.
  rewrite Qle_bool_iff. unfold Qle, Qdiv, Qmult, Qinv, inject_Z. simpl. lia.
Qed.

Lemma getSplitIndex_loop_some l total i c k :
  getSplitIndex_loop l total i c = Some k ->
  exists j : nat, k = (i + j + 1)%nat /\ (j < length l)%nat /\
    total <= 2 * (c + sumNodeSizes (firstn (j + 1) l)) /\
    forall j' : nat, (j' < j)%nat ->
      2 * (c + sumNodeSizes (firstn (j' + 1) l)) < total.
Proof.
  revert i c. induction l as [|a l IH]; intros i c; simpl; [discriminate|].
  destruct (Qle_bool _ _) eqn:Ht.
  - intros [= <-]. exists 0%nat. apply half_test in Ht.
    repeat split; simpl; lia.
  - intros Hk. apply IH in Hk as (j & -> & Hj & Hhit & Hmiss).
    exists (S j). repeat split; simpl; try lia.
    intros [|j'] Hlt; simpl.
    + destruct (Z.le_gt_cases total (2 * (c + sizeBytes a))) as [Hle|]; [|lia].
      apply half_test in Hle. congruence.
    + specialize (Hmiss j'). lia.
Qed.

Lemma getSplitIndex_loop_none l total i c :
  getSplitIndex_loop l total i c = None ->
  forall j : nat, (j < length l)%nat ->
    2 * (c + sumNodeSizes (firstn (j + 1) l)) < total.
Proof.
  revert i c. induction l as [|a l IH]; intros i c; simpl; [lia|].
  destruct (Qle_bool _ _) eqn:Ht; [discriminate|].
  intros Hk [|j] Hj; simpl.
  - destruct (Z.le_gt_cases total (2 * (c + sizeBytes a))) as [Hle|]; [|lia].
    apply half_test in Hle. congruence.
  - specialize (IH _ _ Hk j). lia.
Qed.

Lemma descending_head_max a l b :
  descending (a :: l) -> In b (a :: l) -> sizeBytes b <= sizeBytes a.
Proof.
  intros Hs [<-|Hin]; [lia|].
  apply StronglySorted_inv in Hs as [_ Hall].
  exact (proj1 (List.Forall_forall _ _) Hall b Hin).
Qed.

(** On a descending array of at least two nodes with positive total the
    loop stops before the last element. *)
Lemma getSplitIndex_bounds l :
  descending l -> (2 <= length l)%nat -> 0 < sumNodeSizes l ->
  (0 < getSplitIndex l (sumNodeSizes l) < length l)%nat.
Proof.
  intros Hs Hlen Hpos. unfold getSplitIndex.
  destruct (getSplitIndex_loop l (sumNodeSizes l) 0 0) as [k|] eqn:Hk.
  - apply getSplitIndex_loop_some in Hk as (j & -> & Hj & Hhit & Hmiss).
    split; [lia|].
    destruct (Nat.eq_dec (S j) (length l)) as [Hlast|]; [|lia].
    exfalso.
    destruct l as [|a l]; [simpl in Hlen; lia|].
    pose proof (Hmiss 0%nat ltac:(simpl in *; lia)) as H0.
    simpl in H0.
    pose proof (Hmiss (j - 1)%nat ltac:(simpl in *; lia)) as H1.
    replace (j - 1 + 1)%nat with j in H1 by (simpl in *; lia).
    pose proof (sumNodeSizes_split j (a :: l)) as Hsplit.
    assert (Hlens : length (skipn j (a :: l)) = 1%nat)
      by (rewrite length_skipn; lia).
    destruct (skipn j (a :: l)) as [|z [|? ?]] eqn:Hz; try discriminate.
    assert (Hin : In z (a :: l)).
    { rewrite <- (firstn_skipn j (a :: l)), Hz. apply in_or_app. right. now left. }
    pose proof (descending_head_max _ _ _ Hs Hin) as Hmax.
    simpl in Hsplit. simpl sumNodeSizes at 2 in H1. lia.
  - pose proof (getSplitIndex_loop_none _ _ _ _ Hk (length l - 1)%nat ltac:(lia)) as H.
    replace (length l - 1 + 1)%nat with (length l) in H by lia.
    rewrite firstn_all in H. lia.
Qed.

(** Both groups of a split are non-empty and strictly shorter. *)
Lemma groups_shorter nodes :
  (2 <= length nodes)%nat -> 0 < sumNodeSizes nodes ->
  let sorted := sortBySize nodes in
  let k := getSplitIndex sorted (sumNodeSizes sorted) in
  (0 < k < length nodes)%nat /\
  (0 < length (firstn k sorted) < length nodes)%nat /\
  (0 < length (skipn k sorted) < length nodes)%nat.
Proof.
  intros Hlen Hpos sorted k.
  assert (Hk : (0 < k < length sorted)%nat).
  { apply getSplitIndex_bounds.
    - apply sortBySize_descending.
    - unfold sorted. rewrite sortBySize_length. exact Hlen.
    - unfold sorted. rewrite sortBySize_sum. exact Hpos. }
  rewrite length_firstn, length_skipn.
  unfold sorted in *. rewrite sortBySize_length in *. lia.
Qed.

(** One unfolding of the recursive case. *)
Lemma recursiveSplit_fuel_step fuel a b rest x y w h :
  let sorted := sortBySize (a :: b :: rest) in
  let total := sumNodeSizes sorted in
  let k := getSplitIndex sorted total in
  let ratioA := (inject_Z (sumNodeSizes (firstn k sorted)) / inject_Z total)%Q in
  0 < total ->
  recursiveSplit_fuel (S fuel) (a :: b :: rest) x y w h =
    if Qlt_le_dec h w then
      match recursiveSplit_fuel fuel (firstn k sorted) x y (w * ratioA)%Q h,
            recursiveSplit_fuel fuel (skipn k sorted)
              (x + w * ratioA)%Q y (w - w * ratioA)%Q h with
      | Some ra, Some rb => Some (ra ++ rb)
      | _, _ => None
      end
    else
      match recursiveSplit_fuel fuel (firstn k sorted) x y w (h * ratioA)%Q,
            recursiveSplit_fuel fuel (skipn k sorted)
              x (y + h * ratioA)%Q w (h - h * ratioA)%Q with
      | Some ra, Some rb => Some (ra ++ rb)
      | _, _ => None
      end.
Proof.
  intros sorted total k ratioA Hpos.
  cbn [recursiveSplit_fuel]. fold sorted. fold total.
  destruct (Z.leb_spec total 0) as [Hle|_]; [lia|]. reflexivity.
Qed.

Lemma recursiveSplit_fuel_nonpos fuel a b rest x y w h :
  sumNodeSizes (a :: b :: rest) <= 0 ->
  recursiveSplit_fuel fuel (a :: b :: rest) x y w h = Some [].
Proof.
  intros Hle. rewrite <- sortBySize_sum in Hle.
  destruct fuel; cbn [recursiveSplit_fuel];
    destruct (Z.leb_spec (sumNodeSizes (sortBySize (a :: b :: rest))) 0);
    (reflexivity || lia).
Qed.

Ltac use_total IH :=
  match goal with
  | |- context [recursiveSplit_fuel ?f ?l ?x ?y ?w ?h] =>
      let r := fresh "r" in
      let E := fresh "E" in
      destruct (IH l x y w h) as [r E]; [lia|]; rewrite E
  end.

Ltac use_irrel IH f2 :=
  match goal with
  | |- context [recursiveSplit_fuel ?f ?l ?x ?y ?w ?h] =>
      lazymatch f with
      | f2 => fail
      | _ => rewrite (IH f2 l x y w h) by lia
      end
  end.

Lemma recursiveSplit_fuel_total fuel :
  forall nodes x y w h, (length nodes <= fuel)%nat ->
    exists rects, recursiveSplit_fuel fuel nodes x y w h = Some rects.
Proof.
  induction fuel as [|fuel IH]; intros nodes x y w h Hlen.
  - destruct nodes; [|simpl in Hlen; lia]. now exists [].
  - destruct nodes as [|a [|b rest]]; [now exists [] | now eexists |].
    destruct (Z.le_gt_cases (sumNodeSizes (a :: b :: rest)) 0) as [Hle|Hpos].
    + rewrite recursiveSplit_fuel_nonpos by exact Hle. now eexists.
    + pose proof (groups_shorter (a :: b :: rest)
                    ltac:(simpl; lia) ltac:(lia)) as (_ & HA & HB).
      rewrite recursiveSplit_fuel_step
        by (rewrite sortBySize_sum; lia).
      destruct (Qlt_le_dec h w); repeat use_total IH; now eexists.
Qed.

Lemma recursiveSplit_fuel_irrel f1 :
  forall f2 nodes x y w h,
    (length nodes <= f1)%nat -> (length nodes <= f2)%nat ->
    recursiveSplit_fuel f1 nodes x y w h = recursiveSplit_fuel f2 nodes x y w h.
Proof.
  induction f1 as [|f1 IH]; intros f2 nodes x y w h H1 H2.
  - destruct nodes; [|simpl in H1; lia]. now destruct f2.
  - destruct nodes as [|a [|b rest]];
      [now destruct f2 | now destruct f2 |].
    destruct (Z.le_gt_cases (sumNodeSizes (a :: b :: rest)) 0) as [Hle|Hpos].
    + now rewrite !recursiveSplit_fuel_nonpos by exact Hle.
    + destruct f2 as [|f2]; [simpl in H2; lia|].
      pose proof (groups_shorter (a :: b :: rest)
                    ltac:(simpl; lia) ltac:(lia)) as (_ & HA & HB).
      rewrite !recursiveSplit_fuel_step by (rewrite sortBySize_sum; lia).
      destruct (Qlt_le_dec h w); repeat use_irrel IH f2; reflexivity.
Qed.

End TreemapFacts.

(** ** Treemap: geometry of one split *)

Section TreemapLayout.
Import Treemap.
Local Open Scope Q_scope.

Lemma inject_Z_pos z : (0 < z)%Z -> 0 < inject_Z z.
Proof. intros Hz. unfold Qlt, inject_Z. simpl. lia. Qed.

(** If a rectangle takes the share [s / tA] of a box that itself takes
    the share [tA / tT] of the parent, it takes [s / tT] of the parent. *)
Lemma area_share (a s tA tT boxA box : Q) :
  0 < tA -> a * tA == boxA * s -> boxA * tT == box * tA ->
  a * tT == box * s.
Proof.
  intros Hpos H1 H2. apply (Qmult_inj_r _ _ tA); [lra|].
  transitivity ((a * tA) * tT); [ring|]. rewrite H1.
  transitivity ((boxA * tT) * s); [ring|]. rewrite H2. ring.
Qed.

Lemma overlap_sym r1 r2 : overlap r1 r2 -> overlap r2 r1.
Proof. intros (px & py & H1 & H2). now exists px, py. Qed.

Lemma pairwiseDisjoint_app ra rb :
  pairwiseDisjoint ra -> pairwiseDisjoint rb ->
  (forall r1 r2, In r1 ra -> In r2 rb -> ~ overlap r1 r2) ->
  pairwiseDisjoint (ra ++ rb).
Proof.
  intros Ha Hb Hab i j r1 r2 Hij H1 H2.
  destruct (lt_dec i (length ra)) as [Hi|Hi], (lt_dec j (length ra)) as [Hj|Hj].
  - rewrite nth_error_app1 in H1, H2 by assumption. eapply Ha; eauto.
  - rewrite nth_error_app1 in H1 by assumption.
    rewrite nth_error_app2 in H2 by lia.
    apply Hab; eapply nth_error_In; eauto.
  - rewrite nth_error_app2 in H1 by lia.
    rewrite nth_error_app1 in H2 by assumption.
    intros Ho. apply overlap_sym in Ho. revert Ho.
    apply Hab; eapply nth_error_In; eauto.
  - rewrite nth_error_app2 in H1, H2 by lia.
    eapply (Hb (i - length ra)%nat (j - length ra)%nat); eauto. lia.
Qed.

Lemma layoutSpec_single a x y w h :
  layoutSpec [a] x y w h [mkRect x y w h a].
Proof.
  split; [|split; [intros px py; split|split]].
  - reflexivity.
  - intros Hin. exists (mkRect x y w h a). split; [now left|exact Hin].
  - intros (r & [<-|[]] & Hr). exact Hr.
  - intros [|[|i]] [|[|j]] r1 r2 Hij H1 H2; simpl in *;
      try congruence; try (destruct i; discriminate);
      try (destruct j; discriminate).
  - constructor; [|constructor]. unfold area. simpl.
    rewrite Z.add_0_r. reflexivity.
Qed.

Lemma layoutSpec_perm n1 n2 x y w h rects :
  Permutation n1 n2 -> layoutSpec n1 x y w h rects ->
  layoutSpec n2 x y w h rects.
Proof.
  intros Hp (Hperm & Hcover & Hdisj & Harea).
  split; [|split; [|split]].
  - now rewrite Hperm.
  - exact Hcover.
  - exact Hdisj.
  - now rewrite <- (sumNodeSizes_perm _ _ Hp).
Qed.

(** Two laid-out groups whose boxes partition the parent box, with the
    parent's area shared in proportion to the group sizes, lay out the
    concatenated array. *)
Lemma layoutSpec_join A B ra rb x y w h xa ya wa ha xb yb wb hb :
  (0 < sumNodeSizes A)%Z -> (0 < sumNodeSizes B)%Z ->
  (forall px py, insideBox x y w h px py <->
     insideBox xa ya wa ha px py \/ insideBox xb yb wb hb px py) ->
  (forall px py,
     ~ (insideBox xa ya wa ha px py /\ insideBox xb yb wb hb px py)) ->
  wa * ha * inject_Z (sumNodeSizes (A ++ B)) == w * h * inject_Z (sumNodeSizes A) ->
  wb * hb * inject_Z (sumNodeSizes (A ++ B)) == w * h * inject_Z (sumNodeSizes B) ->
  layoutSpec A xa ya wa ha ra -> layoutSpec B xb yb wb hb rb ->
  layoutSpec (A ++ B) x y w h (ra ++ rb).
Proof.
  intros HpA HpB Hcover Hsep HareaA HareaB
    (HpermA & HcovA & HdisjA & HarA) (HpermB & HcovB & HdisjB & HarB).
  apply inject_Z_pos in HpA, HpB.
  split; [|split; [intros px py; split|split]].
  - rewrite map_app. now apply Permutation_app.
  - intros Hin. apply Hcover in Hin as [Hin|Hin].
    + apply HcovA in Hin as (r & Hr & Hin). exists r. split; [|exact Hin].
      apply in_or_app. now left.
    + apply HcovB in Hin as (r & Hr & Hin). exists r. split; [|exact Hin].
      apply in_or_app. now right.
  - intros (r & Hr & Hin). apply Hcover. apply in_app_or in Hr as [Hr|Hr].
    + left. apply HcovA. eauto.
    + right. apply HcovB. eauto.
  - apply pairwiseDisjoint_app; [assumption|assumption|].
    intros r1 r2 H1 H2 (px & py & Hi1 & Hi2). apply (Hsep px py). split.
    + apply HcovA. eauto.
    + apply HcovB. eauto.
  - apply Forall_app. split.
    + eapply Forall_impl; [exact HarA|]. simpl. intros r Hr.
      exact (area_share _ _ _ _ _ _ HpA Hr HareaA).
    + eapply Forall_impl; [exact HarB|]. simpl. intros r Hr.
      exact (area_share _ _ _ _ _ _ HpB Hr HareaB).
Qed.

Lemma ratio_bounds (sA sB : Z) :
  (0 < sA)%Z -> (0 < sB)%Z ->
  let r := inject_Z sA / inject_Z (sA + sB) in
  0 < r /\ r < 1 /\ r * inject_Z (sA + sB) == inject_Z sA.
Proof.
  intros HA HB r. unfold r. rewrite inject_Z_plus.
  apply inject_Z_pos in HA, HB.
  split; [|split].
  - apply Qlt_shift_div_l; lra.
  - apply Qlt_shift_div_r; lra.
  - field. lra.
Qed.

(** The box is cut at [x + w * r] (split along the width). *)
Lemma split_along_width x y w h r px py :
  0 < r -> r < 1 -> 0 < w ->
  (insideBox x y w h px py <->
     insideBox x y (w * r) h px py \/
     insideBox (x + w * r) y (w - w * r) h px py) /\
  ~ (insideBox x y (w * r) h px py /\
     insideBox (x + w * r) y (w - w * r) h px py).
Proof.
  intros Hr0 Hr1 Hw.
  assert (Hwa : 0 < w * r /\ w * r < w) by (split; nra).
  destruct Hwa as [Hwa0 Hwa1]. generalize dependent (w * r). intros wa Hwa0 Hwa1.
  unfold insideBox. split; [split|].
  - intros (H1 & H2 & H3 & H4).
    destruct (Qlt_le_dec px (x + wa)); [left|right]; repeat split; lra.
  - intros [(H1 & H2 & H3 & H4)|(H1 & H2 & H3 & H4)]; repeat split; lra.
  - intros [(H1 & H2 & H3 & H4) (H5 & H6 & H7 & H8)]. lra.
Qed.

(** The box is cut at [y + h * r] (split along the height). *)
Lemma split_along_height x y w h r px py :
  0 < r -> r < 1 -> 0 < h ->
  (insideBox x y w h px py <->
     insideBox x y w (h * r) px py \/
     insideBox x (y + h * r) w (h - h * r) px py) /\
  ~ (insideBox x y w (h * r) px py /\
     insideBox x (y + h * r) w (h - h * r) px py).
Proof.
  intros Hr0 Hr1 Hh.
  assert (Hha : 0 < h * r /\ h * r < h) by (split; nra).
  destruct Hha as [Hha0 Hha1]. generalize dependent (h * r). intros ha Hha0 Hha1.
  unfold insideBox. split; [split|].
  - intros (H1 & H2 & H3 & H4).
    destruct (Qlt_le_dec py (y + ha)); [left|right]; repeat split; lra.
  - intros [(H1 & H2 & H3 & H4)|(H1 & H2 & H3 & H4)]; repeat split; lra.
  - intros [(H1 & H2 & H3 & H4) (H5 & H6 & H7 & H8)]. lra.
Qed.

Lemma recursiveSplit_fuel_layout fuel :
  forall nodes x y w h,
    (length nodes <= fuel)%nat -> nodes <> [] ->
    Forall (fun n => (0 < sizeBytes n)%Z) nodes -> 0 < w -> 0 < h ->
    exists rects,
      recursiveSplit_fuel fuel nodes x y w h = Some rects /\
      layoutSpec nodes x y w h rects.
Proof.
  induction fuel as [|fuel IH]; intros nodes x y w h Hlen Hne Hall Hw Hh.
  { destruct nodes; [congruence|simpl in Hlen; lia]. }
  destruct nodes as [|a [|b rest]]; [congruence| |].
  { eexists. split; [reflexivity|apply layoutSpec_single]. }
  assert (Hpos : (0 < sumNodeSizes (a :: b :: rest))%Z)
    by (apply sumNodeSizes_pos; assumption).
  pose proof (groups_shorter (a :: b :: rest)
                ltac:(simpl; lia) Hpos) as (_ & HA & HB).
  rewrite recursiveSplit_fuel_step by (rewrite sortBySize_sum; exact Hpos).
  pose proof (sortBySize_perm (a :: b :: rest)) as Hperm.
  assert (HallS : Forall (fun n => (0 < sizeBytes n)%Z) (sortBySize (a :: b :: rest)))
    by (eapply Permutation_Forall; [symmetry; exact Hperm|exact Hall]).
  set (sorted := sortBySize (a :: b :: rest)) in *.
  set (k := getSplitIndex sorted (sumNodeSizes sorted)) in *.
  pose proof (firstn_skipn k sorted) as Hcat.
  pose proof (sumNodeSizes_split k sorted) as Hsum.
  assert (HallA : Forall (fun n => (0 < sizeBytes n)%Z) (firstn k sorted))
    by (now apply Forall_take).
  assert (HallB : Forall (fun n => (0 < sizeBytes n)%Z) (skipn k sorted))
    by (now apply Forall_drop).
  set (A := firstn k sorted) in *. set (B := skipn k sorted) in *.
  assert (HneA : A <> []) by (intros E; rewrite E in HA; simpl in HA; lia).
  assert (HneB : B <> []) by (intros E; rewrite E in HB; simpl in HB; lia).
  pose proof (sumNodeSizes_pos A HneA HallA) as HpA.
  pose proof (sumNodeSizes_pos B HneB HallB) as HpB.
  rewrite <- Hsum.
  destruct (ratio_bounds _ _ HpA HpB) as (Hr0 & Hr1 & Hr).
  set (r := inject_Z (sumNodeSizes A) / inject_Z (sumNodeSizes A + sumNodeSizes B)) in *.
  assert (HareaB : (1 - r) * inject_Z (sumNodeSizes A + sumNodeSizes B)
                   == inject_Z (sumNodeSizes B)).
  { transitivity (inject_Z (sumNodeSizes A + sumNodeSizes B)
                  - r * inject_Z (sumNodeSizes A + sumNodeSizes B)); [ring|].
    rewrite Hr, inject_Z_plus. ring. }
  destruct (Qlt_le_dec h w) as [Hwide|Htall].
  - destruct (IH A x y (w * r) h) as (ra & Era & La);
      [lia|assumption|assumption|nra|assumption|].
    destruct (IH B (x + w * r) y (w - w * r) h) as (rb & Erb & Lb);
      [lia|assumption|assumption|nra|assumption|].
    rewrite Era, Erb. eexists. split; [reflexivity|].
    apply (layoutSpec_perm (A ++ B)); [now rewrite Hcat|].
    eapply layoutSpec_join; [exact HpA|exact HpB| | | | |exact La|exact Lb].
    + intros px py. now apply split_along_width.
    + intros px py. now apply split_along_width.
    + rewrite sumNodeSizes_app, <- Hr. ring.
    + rewrite sumNodeSizes_app, <- HareaB. ring.
  - destruct (IH A x y w (h * r)) as (ra & Era & La);
      [lia|assumption|assumption|assumption|nra|].
    destruct (IH B x (y + h * r) w (h - h * r)) as (rb & Erb & Lb);
      [lia|assumption|assumption|assumption|nra|].
    rewrite Era, Erb. eexists. split; [reflexivity|].
    apply (layoutSpec_perm (A ++ B)); [now rewrite Hcat|].
    eapply layoutSpec_join; [exact HpA|exact HpB| | | | |exact La|exact Lb].
    + intros px py. now apply split_along_height.
    + intros px py. now apply split_along_height.
    + rewrite sumNodeSizes_app, <- Hr. ring.
    + rewrite sumNodeSizes_app, <- HareaB. ring.
Qed.

Lemma share_of_area (a s total box : Q) :
  0 < total -> 0 < box -> a * total == box * s -> a / box == s / total.
Proof.
  intros Ht Hb H. apply (Qmult_inj_r _ _ (box * total)); [nra|].
  transitivity (a * total); [field; lra|]. rewrite H. field. lra.
Qed.

(** C1. For a non-empty list of children of strictly positive size and
    a box of positive width and height, [recursiveSplit] returns one
    rectangle per child; no two rectangles share a point, a point lies in
    the box exactly when it lies in some returned rectangle, and each
    rectangle's area over the box's area equals the child's size over the
    total size (over the rationals). *)
Theorem recursiveSplit_layout_complete nodes x y w h :
  nodes <> [] -> Forall (fun n => (0 < sizeBytes n)%Z) nodes ->
  0 < w -> 0 < h ->
  exists rects,
    recursiveSplit nodes x y w h = Some rects /\
    length rects = length nodes /\
    Permutation (map node rects) nodes /\
    pairwiseDisjoint rects /\
    (forall px py, insideBox x y w h px py <->
                   exists r, In r rects /\ inside r px py) /\
    Forall (fun r => area r / (w * h) ==
                     inject_Z (sizeBytes (node r)) /
                     inject_Z (sumNodeSizes nodes)) rects.
Proof.
  intros Hne Hall Hw Hh.
  destruct (recursiveSplit_fuel_layout (length nodes) nodes x y w h)
    as (rects & E & Hperm & Hcover & Hdisj & Harea); try assumption; [lia|].
  exists rects. split; [exact E|]. split; [|split; [|split; [|split]]].
  - rewrite <- (Permutation_length Hperm). now rewrite length_map.
  - exact Hperm.
  - exact Hdisj.
  - exact Hcover.
  - eapply Forall_impl; [exact Harea|]. simpl. intros r Hr.
    apply share_of_area; [|nra|exact Hr].
    apply inject_Z_pos, sumNodeSizes_pos; assumption.
Qed.

Lemma recursiveSplit_layout_complete_witness :
  exists rects,
    recursiveSplit sampleNodes 0 0 100 50 = Some rects /\
    length rects = length sampleNodes /\
    Permutation (map node rects) sampleNodes /\
    pairwiseDisjoint rects /\
    (forall px py, insideBox 0 0 100 50 px py <->
                   exists r, In r rects /\ inside r px py) /\
    Forall (fun r => area r / (100 * 50) ==
                     inject_Z (sizeBytes (node r)) /
                     inject_Z (sumNodeSizes sampleNodes)) rects.
Proof.
  apply (recursiveSplit_layout_complete sampleNodes 0 0 100 50).
  - discriminate.
  - repeat constructor.
  - reflexivity.
  - reflexivity.
Defined.

End TreemapLayout.

Section TreemapClaims.
Import Treemap.

(** C9. [recursiveSplit] returns on every input, and any larger bound on
    the depth gives the same result; the reason is that for at least two
    nodes of positive total size the split index computed on the sorted
    array lies strictly between 0 and the length, so both groups are
    strictly shorter than the input. *)
Theorem recursiveSplit_terminates nodes x y w h :
  (exists rects,
     recursiveSplit nodes x y w h = Some rects /\
     forall fuel, (length nodes <= fuel)%nat ->
       recursiveSplit_fuel fuel nodes x y w h = Some rects) /\
  ((2 <= length nodes)%nat -> 0 < sumNodeSizes nodes ->
     let sorted := sortBySize nodes in
     let splitIndex := getSplitIndex sorted (sumNodeSizes sorted) in
     (0 < splitIndex < length nodes)%nat /\
     (length (firstn splitIndex sorted) < length nodes)%nat /\
     (length (skipn splitIndex sorted) < length nodes)%nat).
Proof.
  split.
  - destruct (recursiveSplit_fuel_total (length nodes) nodes x y w h)
      as [rects E]; [lia|].
    exists rects. split; [exact E|]. intros fuel Hfuel.
    rewrite <- E. apply recursiveSplit_fuel_irrel; lia.
  - intros Hlen Hpos sorted splitIndex.
    destruct (groups_shorter nodes Hlen Hpos) as (Hk & HA & HB).
    repeat split; (apply Hk || apply HA || apply HB).
Qed.

Lemma recursiveSplit_terminates_witness :
  (0 < getSplitIndex (sortBySize sampleNodes)
         (sumNodeSizes (sortBySize sampleNodes)) < length sampleNodes)%nat.
Proof.
  apply (proj2 (recursiveSplit_terminates sampleNodes 0%Q 0%Q 1%Q 1%Q)).
  - simpl. lia.
  - reflexivity.
Defined.

(** C6, as the code has it. A list whose total size is zero and that
    does not consist of exactly one child yields no rectangle; a list of
    exactly one child yields the whole box for that child, whatever its
    size. *)
Theorem recursiveSplit_zero_total nodes x y w h :
  (sumNodeSizes nodes = 0 -> length nodes <> 1%nat ->
     recursiveSplit nodes x y w h = Some []) /\
  (forall n, recursiveSplit [n] x y w h = Some [mkRect x y w h n]).
Proof.
  split; [|reflexivity].
  intros Hsum Hlen. destruct nodes as [|a [|b rest]];
    [reflexivity|simpl in Hlen; congruence|].
  apply recursiveSplit_fuel_nonpos. lia.
Qed.

Lemma recursiveSplit_zero_total_witness :
  recursiveSplit [emptyNode; emptyNode] 0%Q 0%Q 100%Q 50%Q = Some [].
Proof.
  apply (proj1 (recursiveSplit_zero_total [emptyNode; emptyNode]
                  0%Q 0%Q 100%Q 50%Q)).
  - reflexivity.
  - discriminate.
Defined.

(** C6 as stated fails on a single empty child: the list has total size
    zero, yet the child is given the whole box. *)
Lemma recursiveSplit_single_empty_child :
  sumNodeSizes [emptyNode] = 0 /\
  recursiveSplit [emptyNode] 0%Q 0%Q 100%Q 50%Q
    = Some [mkRect 0%Q 0%Q 100%Q 50%Q emptyNode] /\
  recursiveSplit [emptyNode] 0%Q 0%Q 100%Q 50%Q <> Some [].
Proof. repeat split. discriminate. Qed.

End TreemapClaims.

(** ** Strings *)

Section JsFacts.
Import Js.

Lemma toLowerChar_idem c : toLowerChar (toLowerChar c) = toLowerChar c.
Proof. destruct c as [[] [] [] [] [] [] [] []]; reflexivity. Qed.

Lemma toLowerCase_idem s : toLowerCase (toLowerCase s) = toLowerCase s.
Proof.
  induction s as [|c s IH]; simpl; [reflexivity|].
  now rewrite toLowerChar_idem, IH.
Qed.

Lemma toLowerCase_empty s : toLowerCase s = EmptyString -> s = EmptyString.
Proof. destruct s; [reflexivity|discriminate]. Qed.

Lemma truthy_true s : truthy s = true <-> s <> EmptyString.
Proof.
  unfold truthy. destruct (String.eqb_spec s EmptyString) as [->|Hne]; simpl.
  - split; [discriminate|congruence].
  - split; [intros _; exact Hne|reflexivity].
Qed.

Lemma length_append s t :
  String.length (String.append s t) = (String.length s + String.length t)%nat.
Proof. induction s as [|c s IH]; simpl; [reflexivity|now rewrite IH]. Qed.

Lemma dropChars_append s t :
  dropChars (String.length s) (String.append s t) = t.
Proof. induction s as [|c s IH]; simpl; [now destruct t|exact IH]. Qed.

Lemma dropChars_nonempty n s :
  (n < String.length s)%nat -> dropChars n s <> EmptyString.
Proof.
  revert s. induction n as [|n IH]; intros [|c s] Hlt; simpl in *;
    try lia; [discriminate|apply IH; lia].
Qed.

Lemma lastIndexOf_from_append c s t i found :
  lastIndexOf_from c (String.append s t) i found =
  lastIndexOf_from c t (i + Z.of_nat (String.length s))
    (lastIndexOf_from c s i found).
Proof.
  revert i found. induction s as [|d s IH]; intros i found; simpl.
  - now rewrite Z.add_0_r.
  - rewrite IH. f_equal. lia.
Qed.

Lemma lastIndexOf_from_absent c s i found :
  ~ In c (list_ascii_of_string s) -> lastIndexOf_from c s i found = found.
Proof.
  revert i found. induction s as [|d s IH]; intros i found Hnot; simpl;
    [reflexivity|].
  destruct (Ascii.eqb_spec c d) as [->|Hne].
  - exfalso. apply Hnot. now left.
  - apply IH. intros Hin. apply Hnot. now right.
Qed.

Lemma lastIndexOf_from_range c s i found :
  lastIndexOf_from c s i found = found \/
  i <= lastIndexOf_from c s i found < i + Z.of_nat (String.length s).
Proof.
  revert i found. induction s as [|d s IH]; intros i found; simpl;
    [now left|].
  destruct (IH (i + 1) (if Ascii.eqb c d then i else found)) as [E|Hr].
  - rewrite E. destruct (Ascii.eqb c d); [right; lia|now left].
  - right. lia.
Qed.

(** The last dot of [pre.suf], for a dot-free [suf], is at [|pre|]. *)
Lemma lastIndexOf_last_dot pre suf :
  ~ In "."%char (list_ascii_of_string suf) ->
  lastIndexOf (String.append pre (String "." suf)) "." =
    Z.of_nat (String.length pre).
Proof.
  intros Hnot. unfold lastIndexOf. rewrite lastIndexOf_from_append. simpl.
  now rewrite lastIndexOf_from_absent.
Qed.

End JsFacts.

(** ** Extensions *)

Section ExtensionFacts.
Import Js Predicate.

Lemma getPathExtension_no_dot path :
  ~ In "."%char (list_ascii_of_string path) -> getPathExtension path = None.
Proof.
  intros Hnot. unfold getPathExtension, lastIndexOf.
  now rewrite lastIndexOf_from_absent.
Qed.

Lemma sliceFrom_after_char pre c suf :
  sliceFrom (String.append pre (String c suf))
    (Z.of_nat (String.length pre) + 1) = suf.
Proof.
  unfold sliceFrom.
  replace (Z.to_nat (Z.of_nat (String.length pre) + 1))
    with (S (String.length pre)) by lia.
  induction pre as [|d pre IH]; simpl; [now destruct suf|exact IH].
Qed.

Lemma length_zero_empty s : String.length s = 0%nat <-> s = EmptyString.
Proof. destruct s; simpl; split; congruence. Qed.

Lemma getPathExtension_after_last_dot pre suf :
  ~ In "."%char (list_ascii_of_string suf) ->
  getPathExtension (String.append pre (String "." suf)) =
    if String.eqb pre EmptyString || String.eqb suf EmptyString then None
    else Some (toLowerCase suf).
Proof.
  intros Hnot. unfold getPathExtension.
  rewrite lastIndexOf_last_dot by exact Hnot.
  rewrite length_append, sliceFrom_after_char.
  change (String.length (String "." suf)) with (S (String.length suf)).
  pose proof (length_zero_empty pre) as Hp.
  pose proof (length_zero_empty suf) as Hs.
  destruct (String.eqb_spec pre EmptyString) as [Ep|Np];
    destruct (String.eqb_spec suf EmptyString) as [Es|Ns];
    destruct (Z.leb_spec (Z.of_nat (String.length pre)) 0);
    destruct (Z.eqb_spec (Z.of_nat (String.length pre))
                (Z.of_nat (String.length pre + S (String.length suf)) - 1));
    simpl orb; cbv iota; try reflexivity; exfalso;
    first [ apply Np, Hp; lia | apply Ns, Hs; lia
          | apply Hp in Ep; lia | apply Hs in Es; lia ].
Qed.

Lemma getPathExtension_nonempty path e :
  getPathExtension path = Some e -> e <> EmptyString.
Proof.
  unfold getPathExtension, lastIndexOf.
  destruct (lastIndexOf_from_range "." path 0 (-1)) as [E|Hr].
  - rewrite E. simpl. discriminate.
  - destruct (Z.leb_spec (lastIndexOf_from "." path 0 (-1)) 0); simpl;
      [discriminate|].
    destruct (Z.eqb_spec (lastIndexOf_from "." path 0 (-1))
                (Z.of_nat (String.length path) - 1)); [discriminate|].
    intros [= <-] Hempty. apply toLowerCase_empty in Hempty.
    revert Hempty. apply dropChars_nonempty. lia.
Qed.

End ExtensionFacts.

(** ** The compiled filter *)

Section FilterFacts.
Import Js Predicate.
Context {host : Host}.

Lemma size_positive (X : gset string) :
  (0 <? Z.of_nat (size X)) = true <-> exists x, x ∈ X.
Proof.
  rewrite Z.ltb_lt. split.
  - intros Hpos. apply size_pos_elem_of. lia.
  - intros [x Hx]. destruct (size X) eqn:E; [|lia].
    apply size_empty_iff in E. set_solver.
Qed.



(** Two rejecting tests in a row. *)
Lemma two_rejections (a b : bool) (A B : Prop) :
  (a = false <-> A) -> (b = false <-> B) ->
  ((if a then false else if b then false else true) = true <-> A /\ B).
Proof.
  intros HA HB. destruct a, b; (split; [try discriminate|try (intros; reflexivity)]).
  - intros [H _]. apply HA in H. discriminate.
  - intros [H _]. apply HA in H. discriminate.
  - intros [_ H]. apply HB in H. discriminate.
  - intros _. split; [now apply HA|now apply HB].
Qed.

Lemma matchesExtensionFilters_true path inc exc :
  matchesExtensionFilters path inc exc = true <->
  ((exists x, x ∈ inc) ->
     exists e, getPathExtension path = Some e /\ e ∈ inc) /\
  (forall e, getPathExtension path = Some e -> e ∉ exc).
Proof.
  unfold matchesExtensionFilters.
  pose proof (size_positive inc) as Hi. pose proof (size_positive exc) as He.
  apply two_rejections.
  - destruct (getPathExtension path) as [e|] eqn:E.
    + assert (Ht : truthy e = true)
        by (apply truthy_true; eapply getPathExtension_nonempty; eauto).
      rewrite Ht. simpl. case_bool_decide as Hin; simpl.
      * rewrite andb_false_r. split; [|reflexivity]. intros _ _. eauto.
      * rewrite andb_true_r. split.
        -- intros Hs [x Hx]. assert (Hex : exists x, x ∈ inc) by eauto.
           apply Hi in Hex. congruence.
        -- intros H. destruct (0 <? Z.of_nat (size inc)); [|reflexivity].
           destruct H as (e' & [= <-] & Hin'); [now apply Hi|contradiction].
    + rewrite andb_true_r. split.
      * intros Hs [x Hx]. assert (Hex : exists x, x ∈ inc) by eauto.
        apply Hi in Hex. congruence.
      * intros H. destruct (0 <? Z.of_nat (size inc)); [|reflexivity].
        destruct H as (e' & [=] & _). now apply Hi.
  - destruct (getPathExtension path) as [e|] eqn:E.
    + assert (Ht : truthy e = true)
        by (apply truthy_true; eapply getPathExtension_nonempty; eauto).
      rewrite Ht. simpl. case_bool_decide as Hin; simpl.
      * assert (Hs : (0 <? Z.of_nat (size exc)) = true) by (apply He; eauto).
        rewrite Hs. simpl. split; [discriminate|].
        intros H. exfalso. exact (H e eq_refl Hin).
      * rewrite andb_false_r. split; [|reflexivity].
        now intros _ e' [= <-].
    + rewrite andb_false_r. split; [|reflexivity]. intros _ e' [=].
Qed.




Lemma testPathOrName_stateless re p n :
  stateless re ->
  testPathOrName re p n =
    (fst (regexTest re p) || fst (regexTest re n), re).
Proof.
  intros Hre. unfold testPathOrName.
  pose proof (Hre p) as Hp. pose proof (Hre n) as Hn.
  destruct (regexTest re p) as [inPath re1]. simpl in Hp. subst re1.
  destruct inPath; [reflexivity|].
  destruct (regexTest re n) as [inName re2]. simpl in Hn. subst re2.
  reflexivity.
Qed.


End FilterFacts.

Section PredicateClaims.
Import Js Predicate.




(** A regular expression with the flag [g] keeps its [lastIndex] from
    one file to the next: of two files that both satisfy the filter the
    second is rejected, because the search starts behind the match in
    the first. *)
Lemma global_regex_rejects_next_file :
  let filters := mkScanFilters [] [] [] [] None None (Some "/docs/g") None [] [] in
  let first := mkScanFile "/docs/a.txt" "a.txt" 1 in
  let second := mkScanFile "/docs/b.txt" "b.txt" 1 in
  let matchers := buildFilterMatchers (host := literalHost) filters in
  fst (matchesFilterFile (host := literalHost) first matchers) = true /\
  fst (matchesFilterFile (host := literalHost) second
         (snd (matchesFilterFile (host := literalHost) first matchers))) = false /\
  satisfiesCompiledCategories (host := literalHost) filters second /\
  ~ statelessRegexes (host := literalHost) filters.
Proof.
  cbv zeta. split; [vm_compute; reflexivity|].
  split; [vm_compute; reflexivity|]. split.
  - split; [|split].
    + split; [intros H; contradiction H; reflexivity|intros e _ []].
    + split; [intros H; contradiction H; reflexivity|intros v []].
    + split.
      * intros re H. vm_compute in H. injection H as <-. left.
        vm_compute. reflexivity.
      * intros re H. vm_compute in H. discriminate.
  - intros [H _].
    specialize (H (mkLiteralRegExp "docs" false true false 0) eq_refl "docs"%string).
    vm_compute in H. discriminate.
Qed.

(** C5. The query [size>10mb ext:png,jpg name:vacation] matches the
    15 MB file [vacation_photo.png] at [/pics/vacation_photo.png]; it
    matches no 15 MB entry named [report.pdf], wherever it lies, and for
    such an entry at [/docs/report.pdf] the [ext:] token alone already
    rejects it. *)
Theorem vacation_query_example {host : Host} :
  fst (matchesSearchEntry vacationPhoto (parseSearchQuery vacationQuery)) = true /\
  (forall path,
     fst (matchesSearchEntry (report path) (parseSearchQuery vacationQuery))
       = false) /\
  fst (matchesSearchEntry (report "/docs/report.pdf")
         (parseSearchQuery "ext:png,jpg")) = false.
Proof.
  split; [vm_compute; reflexivity|]. split; [|vm_compute; reflexivity].
  intros path.
  assert (Hn : nameTerms (parseSearchQuery vacationQuery) = ["vacation"%string])
    by (vm_compute; reflexivity).
  unfold matchesSearchEntry. rewrite Hn. reflexivity.
Qed.

(** C10, as the code has it. [getPathExtension] works on the whole
    path: without a dot there is no extension; otherwise the extension
    is the lower-cased text after the last dot, unless that dot is the
    first or the last character. So [/data.d/readme] has the extension
    [d/readme], and the extension filters and the [ext:] constraint of a
    query act on that value: they accept or reject the file as one with
    extension [d/readme], not as one without extension. *)
Theorem getPathExtension_whole_path {host : Host} :
  (forall path, ~ In "."%char (list_ascii_of_string path) ->
     getPathExtension path = None) /\
  (forall pre suf, ~ In "."%char (list_ascii_of_string suf) ->
     getPathExtension (String.append pre (String "." suf)) =
       if String.eqb pre EmptyString || String.eqb suf EmptyString then None
       else Some (toLowerCase suf)) /\
  getPathExtension "/data.d/readme" = Some "d/readme"%string /\
  (forall path e inc exc, getPathExtension path = Some e ->
     (matchesExtensionFilters path inc exc = true <->
      (inc = ∅ \/ e ∈ inc) /\ e ∉ exc)) /\
  (forall entry params e,
     getPathExtension (toLowerCase (path entry)) = Some e ->
     exts params <> ∅ -> e ∉ exts params ->
     fst (matchesSearchEntry entry params) = false) /\
  fst (matchesSearchEntry (mkScanFile "/data.d/readme" "readme" 10)
         (parseSearchQuery "ext:d/readme")) = true /\
  fst (matchesSearchEntry (mkScanFile "/data/readme" "readme" 10)
         (parseSearchQuery "ext:d/readme")) = false.
Proof.
  split; [exact getPathExtension_no_dot|].
  split; [exact getPathExtension_after_last_dot|].
  split; [reflexivity|].
  split; [|split; [|split; vm_compute; reflexivity]].
  - intros path e inc exc He. rewrite matchesExtensionFilters_true, He.
    split.
    + intros [H1 H2]. split; [|now apply H2].
      destruct (decide (inc = ∅)) as [|Hne]; [now left|right].
      apply set_choose_L in Hne. destruct (H1 Hne) as (e' & [= <-] & Hin).
      exact Hin.
    + intros [[->|Hin] Hexc]; split.
      * intros [x Hx]. set_solver.
      * now intros e' [= <-].
      * intros _. eauto.
      * now intros e' [= <-].
  - intros entry params e He Hne Hnot. unfold matchesSearchEntry.
    rewrite He.
    assert (Hs : (0 <? Z.of_nat (size (exts params))) = true).
    { apply size_positive. now apply set_choose_L. }
    rewrite Hs. rewrite (bool_decide_eq_false_2 _ Hnot).
    rewrite orb_true_r. simpl.
    destruct (negb (matchesAllTokens _ _)); [reflexivity|].
    destruct (negb (matchesAllTokens _ _)); [reflexivity|].
    destruct (negb (matchesSearchTerms _ _ _)); reflexivity.
Qed.

Lemma getPathExtension_whole_path_witness :
  matchesExtensionFilters "/data.d/readme" ∅ {["d/readme"%string]} = true <->
  ((∅ : gset string) = ∅ \/ "d/readme"%string ∈ (∅ : gset string)) /\
  "d/readme"%string ∉ ({["d/readme"%string]} : gset string).
Proof.
  apply (proj1 (proj2 (proj2 (proj2
           (getPathExtension_whole_path (host := literalHost)))))).
  reflexivity.
Defined.

(** C10 as stated fails on when there is no extension: the text says
    only when the last dot is the first or the last character, but a
    path without any dot has none either.  For [/data/readme] the index
    of the last dot is -1, which is neither 0 nor the last index. *)
Lemma getPathExtension_none_without_dot :
  lastIndexOf "/data/readme" "." = -1 /\
  lastIndexOf "/data/readme" "." <> 0 /\
  lastIndexOf "/data/readme" "." <>
    Z.of_nat (String.length "/data/readme") - 1 /\
  getPathExtension "/data/readme" = None.
Proof.
  split; [reflexivity|]. split; [discriminate|].
  split; [discriminate|reflexivity].
Qed.

End PredicateClaims.

(** ** Remote listing *)

Section RemoteListClaims.
Import Js RemoteList.

(** A [list-complete] response whose id is not the id of the latest
    request is dropped, whatever the request map holds for it. *)
Lemma list_complete_for_earlier_request_dropped s payload requestId latest :
  remoteSyncEnabled s = true ->
  event payload = "list-complete"%string ->
  id payload = Some requestId ->
  remoteListRequestIdRef s = Some latest ->
  requestId <> EmptyString -> latest <> EmptyString -> requestId <> latest ->
  handleRemoteEvent s payload = s.
Proof.
  intros Hsync Hev Hid Href Hr Hl Hne.
  unfold handleRemoteEvent, handleListComplete.
  rewrite Hsync, Hev, Hid, Href. simpl.
  apply truthy_true in Hr, Hl. rewrite Hr, Hl.
  destruct (String.eqb_spec requestId latest); [contradiction|reflexivity].
Qed.

(** C3, on the code. With [/a] requested under [req-1] and then [/b]
    under [req-2], both ids are tracked, yet the [list-complete] response
    for [req-1] changes nothing: [/a] stays in the loading state with no
    children, before and after the response for [req-2] has been
    applied.  A [list-error] for [req-1] in the same state does reach
    [/a]. *)
Theorem earlier_list_response_is_dropped :
  remoteListRequestMapRef twoInFlight !! "req-1"%string = Some (Some "/a"%string) /\
  remoteListRequestMapRef twoInFlight !! "req-2"%string = Some (Some "/b"%string) /\
  handleRemoteEvent twoInFlight responseA = twoInFlight /\
  remoteTree (handleRemoteEvent twoInFlight responseA) !! "/a"%string =
    Some (mkRemoteTreeNode "/a" "a" true None true None) /\
  remoteTree (handleRemoteEvent twoInFlight responseB) !! "/b"%string =
    Some (mkRemoteTreeNode "/b" "b" true (Some ["/b/y"%string]) false None) /\
  handleRemoteEvent (handleRemoteEvent twoInFlight responseB) responseA =
    handleRemoteEvent twoInFlight responseB /\
  remoteTree (handleRemoteEvent twoInFlight (listError "req-1" "denied"))
    !! "/a"%string =
    Some (mkRemoteTreeNode "/a" "a" true None false (Some "denied"%string)).
Proof. repeat apply conj; vm_compute; reflexivity. Qed.

(** Expiry of the watchdog of a tracked request fails it locally: a
    top-level request clears the loading flag and records the time-out
    text; a folder request does so on the folder's node. *)
Lemma watchdog_fails_request s timeoutId requestId delay :
  timers s !! timeoutId = Some (requestId, delay) ->
  let s' := timerExpires s timeoutId in
  remoteListRequestMapRef s' !! requestId = None /\
  match lookupRequestPath s requestId with
  | Some (String c p) =>
      forall node, remoteTree s !! String c p = Some node ->
        exists node', remoteTree s' !! String c p = Some node' /\
          loading node' = false /\
          error node' = Some "Remote list request timed out."%string
  | _ =>
      remoteListLoading s' = false /\
      remoteListError s' = Some "Remote list request timed out."%string
  end.
Proof.
  intros Ht s'. unfold s', timerExpires. rewrite Ht.
  unfold listTimeoutCallback.
  change (lookupRequestPath (clearTimeout timeoutId s) requestId)
    with (lookupRequestPath s requestId).
  destruct (lookupRequestPath s requestId) as [[|c p]|]; simpl.
  - split; [apply lookup_delete_eq|]. split; reflexivity.
  - split; [apply lookup_delete_eq|]. intros node Hnode.
    unfold markNodeFailed. rewrite Hnode. eexists.
    rewrite lookup_insert_eq. split; [reflexivity|]. split; reflexivity.
  - split; [apply lookup_delete_eq|]. split; reflexivity.
Qed.

(** C4, on the code. The watchdog is armed for 5000 ms and its expiry
    fails the request locally; but the [list-complete] response for the
    same id that arrives afterwards is applied: it sets the focus path
    and the tree roots, fills the tree, and clears the recorded
    time-out, for a top-level request as for a folder. *)
Theorem late_list_response_is_applied :
  timers topLevelPending !! 1 = Some ("req-1"%string, 5000) /\
  remoteListLoading topLevelPending = true /\
  remoteListLoading topLevelTimedOut = false /\
  remoteListError topLevelTimedOut = Some "Remote list request timed out."%string /\
  remoteListRequestMapRef topLevelTimedOut !! "req-1"%string = None /\
  remoteFocusPath topLevelTimedOut = None /\
  remoteTreeRoots topLevelTimedOut = [] /\
  remoteTree topLevelTimedOut !! "/"%string = None /\
  remoteFocusPath (handleRemoteEvent topLevelTimedOut lateRootResponse)
    = Some "/"%string /\
  remoteTreeRoots (handleRemoteEvent topLevelTimedOut lateRootResponse)
    = ["/"%string] /\
  remoteTree (handleRemoteEvent topLevelTimedOut lateRootResponse) !! "/"%string
    = Some (mkRemoteTreeNode "/" "/" true (Some ["/home"%string]) false None) /\
  remoteListError (handleRemoteEvent topLevelTimedOut lateRootResponse) = None /\
  remoteTree folderTimedOut !! "/a"%string =
    Some (mkRemoteTreeNode "/a" "a" true None false
            (Some "Remote list request timed out."%string)) /\
  remoteTree (handleRemoteEvent folderTimedOut responseA) !! "/a"%string =
    Some (mkRemoteTreeNode "/a" "a" true (Some ["/a/x"%string]) false None).
Proof. repeat apply conj; vm_compute; reflexivity. Qed.

End RemoteListClaims.

(** ** The connection panel *)

Section RemotePanelFacts.
Import Js RemotePanel.

Lemma update_ids servers i st m :
  List.map id (updateRemoteServerStatus servers i st m) = List.map id servers.
Proof.
  unfold updateRemoteServerStatus. rewrite List.map_map.
  apply List.map_ext. intros server.
  now destruct (String.eqb (id server) i).
Qed.

Lemma update_in servers i st m server' :
  In server' (updateRemoteServerStatus servers i st m) ->
  (id server' = i /\ status server' = st) \/
  (In server' servers /\ id server' <> i).
Proof.
  unfold updateRemoteServerStatus. rewrite List.in_map_iff.
  intros (server & <- & Hin).
  destruct (String.eqb_spec (id server) i) as [E|N]; [left|right]; auto.
Qed.

Lemma update_count_le servers i st m :
  isConnecting st = false ->
  (countConnecting (updateRemoteServerStatus servers i st m)
     <= countConnecting servers)%nat.
Proof.
  intros Hst. unfold countConnecting, updateRemoteServerStatus.
  induction servers as [|server servers IH]; simpl; [lia|].
  destruct (String.eqb (id server) i); simpl.
  - rewrite Hst. destruct (isConnecting (status server)); simpl; lia.
  - destruct (isConnecting (status server)); simpl; lia.
Qed.

Lemma reset_ids snapshot a store :
  List.map id (resetConnectingServers snapshot a store) = List.map id store.
Proof.
  revert store. induction snapshot as [|server snapshot IH]; intros store;
    simpl; [reflexivity|].
  destruct (String.eqb (id server) a); [apply IH|].
  destruct (isConnecting (status server)); [|apply IH].
  rewrite IH. apply update_ids.
Qed.

Lemma status_connecting st : isConnecting st = true <-> st = StatusConnecting.
Proof. destruct st; simpl; split; congruence. Qed.

(** A server still connecting after the reset was connecting in the
    store and shares its id with no connecting server of the snapshot
    other than the active one. *)
Lemma reset_connecting snapshot a store server' :
  In server' (resetConnectingServers snapshot a store) ->
  status server' = StatusConnecting ->
  In server' store /\
  forall server, In server snapshot -> status server = StatusConnecting ->
    id server <> a -> id server <> id server'.
Proof.
  revert store. induction snapshot as [|server0 snapshot IH];
    intros store Hin Hst; simpl in *.
  - split; [exact Hin|]. intros ? [].
  - destruct (String.eqb_spec (id server0) a) as [Ea|Na].
    + destruct (IH _ Hin Hst) as [Hs Hrest]. split; [exact Hs|].
      intros server [<-|Hin'] Hc Hn; [contradiction|]. now apply Hrest.
    + destruct (isConnecting (status server0)) eqn:Ec.
      * destruct (IH _ Hin Hst) as [Hs Hrest].
        apply update_in in Hs as [[_ Hd]|[Hs Hn0]]; [congruence|].
        split; [exact Hs|].
        intros server [<-|Hin'] Hc Hn; [congruence|]. now apply Hrest.
      * destruct (IH _ Hin Hst) as [Hs Hrest]. split; [exact Hs|].
        intros server [<-|Hin'] Hc Hn; [|now apply Hrest].
        apply status_connecting in Hc. congruence.
Qed.

Lemma count_le_one servers i :
  NoDup (List.map id servers) -> onlyConnecting servers i ->
  (countConnecting servers <= 1)%nat.
Proof.
  unfold countConnecting, onlyConnecting.
  induction servers as [|server servers IH]; simpl; intros Hnd Honly; [lia|].
  apply NoDup_cons in Hnd as [Hnotin Hnd].
  destruct (isConnecting (status server)) eqn:Ec; simpl.
  - apply status_connecting in Ec.
    assert (Ei : id server = i) by (apply Honly; auto).
    enough (List.filter (fun s => isConnecting (status s)) servers = []) as ->
      by (simpl; lia).
    apply List.Forall_nil_iff || idtac.
    destruct (List.filter _ servers) as [|other ?] eqn:Ef; [reflexivity|].
    exfalso.
    assert (Hino : In other (List.filter (fun s => isConnecting (status s)) servers))
      by (rewrite Ef; now left).
    apply List.filter_In in Hino as [Hino Hco].
    apply status_connecting in Hco.
    assert (Eo : id other = i) by (apply Honly; auto).
    apply Hnotin. apply list_elem_of_In, List.in_map_iff.
    exists other. split; [congruence|exact Hino].
  - apply IH; [exact Hnd|]. intros s Hin. apply Honly. now right.
Qed.

Lemma connecting_unique servers a b :
  (countConnecting servers <= 1)%nat -> In a servers -> In b servers ->
  status a = StatusConnecting -> status b = StatusConnecting -> a = b.
Proof.
  unfold countConnecting. intros Hc Ha Hb Sa Sb.
  assert (Hfa : In a (List.filter (fun s => isConnecting (status s)) servers))
    by (apply List.filter_In; split; [exact Ha|now apply status_connecting]).
  assert (Hfb : In b (List.filter (fun s => isConnecting (status s)) servers))
    by (apply List.filter_In; split; [exact Hb|now apply status_connecting]).
  destruct (List.filter _ servers) as [|x [|y l]]; simpl in *; try lia.
  destruct Hfa as [<-|[]], Hfb as [<-|[]]. reflexivity.
Qed.

Lemma connectingServerId_some servers c :
  connectingServerId servers = Some c ->
  exists server, In server servers /\ id server = c /\
                 status server = StatusConnecting.
Proof.
  induction servers as [|server servers IH]; simpl; [discriminate|].
  destruct (isConnecting (status server)) eqn:Ec.
  - intros [= <-]. exists server. apply status_connecting in Ec. auto.
  - intros H. destruct (IH H) as (s & Hin & Hid & Hs). exists s. auto.
Qed.

Lemma connectingServerId_none servers server :
  connectingServerId servers = None -> In server servers ->
  status server <> StatusConnecting.
Proof.
  induction servers as [|server0 servers IH]; simpl; [now intros _ []|].
  destruct (isConnecting (status server0)) eqn:Ec; [discriminate|].
  intros H [<-|Hin]; [|now apply IH].
  intros Hs. apply status_connecting in Hs. congruence.
Qed.

Lemma update_sets servers i st m server' :
  In server' (updateRemoteServerStatus servers i st m) ->
  id server' = i -> status server' = st.
Proof.
  intros Hin Hid. apply update_in in Hin as [[_ Hst]|[_ Hne]];
    [exact Hst|contradiction].
Qed.

(** The servers with the id [i] that are disconnected in the store stay
    so through the reset. *)
Lemma reset_keeps_disconnected snapshot a store i :
  (forall server', In server' store -> id server' = i ->
     status server' = StatusDisconnected) ->
  forall server', In server' (resetConnectingServers snapshot a store) ->
    id server' = i -> status server' = StatusDisconnected.
Proof.
  revert store. induction snapshot as [|server0 snapshot IH];
    intros store Hstore; simpl; [exact Hstore|].
  destruct (String.eqb (id server0) a); [now apply IH|].
  destruct (isConnecting (status server0)); [|now apply IH].
  apply IH. intros server' Hin Hid.
  apply update_in in Hin as [[_ Hst]|[Hin _]]; [exact Hst|now apply Hstore].
Qed.

(** The reset disconnects every server that was connecting in the
    snapshot, the active one apart. *)
Lemma reset_disconnects snapshot a store other :
  In other snapshot -> status other = StatusConnecting -> id other <> a ->
  forall server', In server' (resetConnectingServers snapshot a store) ->
    id server' = id other -> status server' = StatusDisconnected.
Proof.
  revert store. induction snapshot as [|server0 snapshot IH];
    intros store Hin Hst Hne; simpl; [destruct Hin|].
  destruct Hin as [->|Hin].
  - destruct (String.eqb_spec (id other) a) as [E|_]; [contradiction|].
    apply status_connecting in Hst. rewrite Hst.
    apply reset_keeps_disconnected. intros server' Hin Hid.
    now apply (update_sets _ _ _ _ _ Hin).
  - destruct (String.eqb (id server0) a); [now apply IH|].
    destruct (isConnecting (status server0)); now apply IH.
Qed.

(** After the reset and the update of a proceeding [handleConnect], only
    the target is connecting. *)
Lemma connect_leaves_only_target servers i m :
  onlyConnecting
    (updateRemoteServerStatus (resetConnectingServers servers i servers)
       i StatusConnecting m) i.
Proof.
  intros server' Hin Hst.
  apply update_in in Hin as [[Hid _]|[Hin Hne]]; [exact Hid|].
  destruct (reset_connecting _ _ _ _ Hin Hst) as [Hs Hrest].
  exfalso. exact (Hrest server' Hs Hst Hne eq_refl).
Qed.

Lemma updateStatus_invariant s i st m :
  panelInvariant s -> isConnecting st = false ->
  panelInvariant (updateStatus i st m s).
Proof.
  intros [Hnd Hc] Hst. split.
  - unfold distinctIds. simpl. now rewrite update_ids.
  - simpl. etransitivity; [apply update_count_le; exact Hst|exact Hc].
Qed.

Lemma updateStatus_connecting_invariant s i m :
  panelInvariant s -> onlyConnecting (remoteServers s) i ->
  panelInvariant (updateStatus i StatusConnecting m s).
Proof.
  intros [Hnd Hc] Honly. split.
  - unfold distinctIds. simpl. now rewrite update_ids.
  - simpl. apply (count_le_one _ i).
    + now rewrite update_ids.
    + intros server' Hin Hst.
      apply update_in in Hin as [[Hid _]|[Hin Hne]]; [exact Hid|].
      now apply Honly.
Qed.

Lemma handleConnect_invariant s server :
  panelInvariant s -> panelInvariant (fst (handleConnect s server)).
Proof.
  intros [Hnd Hc]. unfold handleConnect.
  destruct (negb (truthy (trim (token server)))); [now split|].
  match goal with |- context [if ?b then _ else _] => destruct b end;
    [now split|].
  split.
  - unfold distinctIds. simpl. now rewrite update_ids, reset_ids.
  - simpl. apply (count_le_one _ (id server)).
    + now rewrite update_ids, reset_ids.
    + apply connect_leaves_only_target.
Qed.

Lemma onRemoteStatus_invariant s payload :
  panelInvariant s -> pushOfAttemptInFlight s payload ->
  panelInvariant (onRemoteStatus s payload).
Proof.
  intros Hinv Hadm. unfold onRemoteStatus.
  destruct (pushTarget s payload) as [target|] eqn:Et; [|exact Hinv].
  destruct (negb (truthy target)); [exact Hinv|].
  assert (Hupd : panelInvariant
                   (updateStatus target (pushedStatus payload)
                      (pushedMessage payload) s)).
  { destruct (isConnecting (pushedStatus payload)) eqn:Ec.
    - apply status_connecting in Ec. rewrite Ec.
      apply updateStatus_connecting_invariant; [exact Hinv|].
      intros server Hin Hst.
      specialize (Hadm Ec server Hin Hst). congruence.
    - now apply updateStatus_invariant. }
  destruct (findServerByAddress (remoteServers s) (address payload));
    [|exact Hupd].
  destruct (isConnected (pushedStatus payload) && truthy (id r)); exact Hupd.
Qed.

Lemma step_invariant s s' :
  panelInvariant s -> step pushOfAttemptInFlight s s' -> panelInvariant s'.
Proof.
  intros Hinv Hstep. destruct Hstep.
  - now apply handleConnect_invariant.
  - unfold connectRejected. now apply updateStatus_invariant.
  - exact Hinv.
  - unfold disconnectResolved. now apply updateStatus_invariant.
  - unfold disconnectRejected. now apply updateStatus_invariant.
  - now apply onRemoteStatus_invariant.
  - unfold onStatusPolled.
    destruct (activeRemoteServerId s) as [a|]; [|exact Hinv].
    destruct (negb (truthy a)); [exact Hinv|].
    destruct connected; now apply updateStatus_invariant.
Qed.

Lemma reachable_invariant s0 s :
  panelInvariant s0 -> reachable pushOfAttemptInFlight s0 s ->
  panelInvariant s.
Proof.
  intros H0. induction 1 as [|s s' _ IH Hstep]; [exact H0|].
  eapply step_invariant; eauto.
Qed.

End RemotePanelFacts.

Section RemotePanelClaims.
Import Js RemotePanel.

(** C7, as the code has it. Start from a panel whose servers have
    distinct ids and of which at most one is connecting, and let it take
    connect, disconnect and status-update steps, a pushed [connecting]
    status being delivered only when no server other than its target is
    connecting.  Then at most one server is connecting, and a connect
    attempt for a server while a different server is connecting is
    refused: the server list is untouched and [connectRemote] is not
    called.  In every state of the panel, reachable or not: a connect
    attempt is refused when the first connecting server of the list is a
    different one; and whenever [handleConnect] does call
    [connectRemote], it has first reset the others, so that every server
    that was connecting, the target apart, is disconnected, only the
    target is connecting, and at most one server is if the ids are
    distinct. *)
Theorem single_connection_attempt (s0 s : PanelState) :
  panelInvariant s0 ->
  reachable pushOfAttemptInFlight s0 s ->
  (countConnecting (remoteServers s) <= 1)%nat /\
  (forall server other,
     In other (remoteServers s) -> status other = StatusConnecting ->
     id other <> EmptyString -> id other <> id server ->
     snd (handleConnect s server) = [] /\
     remoteServers (fst (handleConnect s server)) = remoteServers s) /\
  (forall t server connectingId,
     connectingServerId (remoteServers t) = Some connectingId ->
     connectingId <> EmptyString -> connectingId <> id server ->
     snd (handleConnect t server) = [] /\
     remoteServers (fst (handleConnect t server)) = remoteServers t) /\
  (forall t server t' calls,
     handleConnect t server = (t', calls) -> calls <> [] ->
     calls = [ConnectRemote server] /\
     onlyConnecting (remoteServers t') (id server) /\
     (forall other other',
        In other (remoteServers t) -> status other = StatusConnecting ->
        id other <> id server ->
        In other' (remoteServers t') -> id other' = id other ->
        status other' = StatusDisconnected) /\
     List.map id (remoteServers t') = List.map id (remoteServers t) /\
     (distinctIds t -> (countConnecting (remoteServers t') <= 1)%nat)).
Proof.
  intros H0 Hreach.
  destruct (reachable_invariant _ _ H0 Hreach) as [Hnd Hc].
  assert (Hrefused : forall t server connectingId,
     connectingServerId (remoteServers t) = Some connectingId ->
     connectingId <> EmptyString -> connectingId <> id server ->
     snd (handleConnect t server) = [] /\
     remoteServers (fst (handleConnect t server)) = remoteServers t).
  { intros t server c Ec Hid Hne. unfold handleConnect.
    destruct (negb (truthy (trim (token server)))); [now split|].
    rewrite Ec. apply truthy_true in Hid. rewrite Hid.
    destruct (String.eqb_spec c (id server)); [contradiction|]. now split. }
  split; [exact Hc|]. split; [|split; [exact Hrefused|]].
  - intros server other Hin Hst Hid Hne.
    destruct (connectingServerId (remoteServers s)) as [c|] eqn:Ec.
    + pose proof Ec as Ec'.
      apply connectingServerId_some in Ec' as (first & Hf & Hfid & Hfs).
      assert (first = other) as -> by (eapply connecting_unique; eauto).
      apply (Hrefused s server c Ec); congruence.
    + exfalso. eapply connectingServerId_none; eauto.
  - intros t server t' calls Hconn Hcalls. unfold handleConnect in Hconn.
    destruct (negb (truthy (trim (token server))));
      [injection Hconn as <- <-; contradiction|].
    match type of Hconn with
    | context [if ?b then _ else _] => destruct b
    end; [injection Hconn as <- <-; contradiction|].
    injection Hconn as <- <-. split; [reflexivity|]. simpl.
    split; [apply connect_leaves_only_target|].
    split; [|split].
    + intros other other' Hin Hst Hne Hin' Hid.
      apply update_in in Hin' as [[Hid' _]|[Hin' _]]; [congruence|].
      exact (reset_disconnects _ _ _ other Hin Hst Hne other' Hin' Hid).
    + now rewrite update_ids, reset_ids.
    + intros Hdistinct. apply (count_le_one _ (id server)).
      * rewrite update_ids, reset_ids. exact Hdistinct.
      * apply connect_leaves_only_target.
Qed.

Lemma single_connection_attempt_witness :
  (countConnecting (remoteServers connectingA) <= 1)%nat /\
  (forall server t' calls,
     handleConnect afterTwoPushes server = (t', calls) -> calls <> [] ->
     calls = [ConnectRemote server] /\
     onlyConnecting (remoteServers t') (id server) /\
     (forall other other',
        In other (remoteServers afterTwoPushes) ->
        status other = StatusConnecting -> id other <> id server ->
        In other' (remoteServers t') -> id other' = id other ->
        status other' = StatusDisconnected) /\
     List.map id (remoteServers t') = List.map id (remoteServers afterTwoPushes) /\
     (distinctIds afterTwoPushes ->
      (countConnecting (remoteServers t') <= 1)%nat)).
Proof.
  assert (H : panelInvariant twoServers /\
              reachable pushOfAttemptInFlight twoServers connectingA).
  { split.
    - split.
      + unfold distinctIds. simpl.
        apply NoDup_cons. split; [|apply NoDup_singleton].
        intros Hin. apply list_elem_of_In in Hin.
        destruct Hin as [Hin|[]]. discriminate.
      + vm_compute. lia.
    - eapply reachable_step; [apply reachable_refl|].
      apply (step_connect _ twoServers serverA). now left. }
  destruct H as [Hinv Hreach].
  destruct (single_connection_attempt twoServers connectingA Hinv Hreach)
    as (Hcount & _ & _ & Hreset).
  split; [exact Hcount|]. exact (Hreset afterTwoPushes).
Defined.

(** C7 as stated fails: when every status push is delivered, two pushes
    of [connecting], one per address, leave both servers connecting. *)
Lemma two_servers_connecting_after_pushes :
  panelInvariant twoServers /\
  reachable anyPush twoServers afterTwoPushes /\
  countConnecting (remoteServers afterTwoPushes) = 2%nat.
Proof.
  split; [|split].
  - split.
    + unfold distinctIds. simpl.
      apply NoDup_cons. split; [|apply NoDup_singleton].
      intros Hin. apply list_elem_of_In in Hin.
      destruct Hin as [Hin|[]]. discriminate.
    + vm_compute. lia.
  - unfold afterTwoPushes.
    eapply reachable_step; [eapply reachable_step; [apply reachable_refl|]|];
      now apply step_status.
  - vm_compute. reflexivity.
Qed.

(** From the state with both servers connecting, a connect attempt for
    the first server proceeds and resets the second: the reset is at
    work in states outside the invariant. *)
Lemma connect_resets_second_server :
  countConnecting (remoteServers afterTwoPushes) = 2%nat /\
  snd (handleConnect afterTwoPushes serverA) = [ConnectRemote serverA] /\
  List.map status (remoteServers (fst (handleConnect afterTwoPushes serverA))) =
    [StatusConnecting; StatusDisconnected].
Proof. repeat apply conj; vm_compute; reflexivity. Qed.

(** C8, as the code has it. For a server whose token is empty or only
    white space, [handleConnect] records the text "Token is required for
    authentication." in the panel's error banner, leaves the server list
    (so every connection status) as it is and calls nothing; and saving a
    new server with such a token is rejected with an error, the server
    list staying as it is. *)
Theorem blank_token_is_rejected {jsHost : Host} (s : PanelState)
    (server : RemoteServer) (newId : string) :
  (trim (token server) = EmptyString ->
     handleConnect s server =
       (setError (Some "Token is required for authentication."%string) s, []) /\
     remoteServers (fst (handleConnect s server)) = remoteServers s) /\
  (trim (tokenInput s) = EmptyString ->
     (exists text,
        getServerInput (nameInput s) (hostInput s) (portInput s) (tokenInput s)
          = inl text /\
        handleAddServer s newId = setError (Some text) s) /\
     remoteServers (handleAddServer s newId) = remoteServers s).
Proof.
  split.
  - intros Htok. unfold handleConnect. rewrite Htok. simpl. auto.
  - intros Htok. unfold handleAddServer, getServerInput. rewrite Htok.
    destruct (parsePort (portInput s)); simpl;
      [destruct (negb (truthy (trim (hostInput s))))|]; simpl;
      (split; [eexists; split; reflexivity|reflexivity]).
Qed.

Lemma blank_token_is_rejected_witness :
  handleConnect (panelOf [blankTokenServer]) blankTokenServer =
    (setError (Some "Token is required for authentication."%string)
       (panelOf [blankTokenServer]), []) /\
  remoteServers (fst (handleConnect (panelOf [blankTokenServer]) blankTokenServer))
    = remoteServers (panelOf [blankTokenServer]).
Proof.
  apply (proj1 (blank_token_is_rejected (jsHost := literalHost)
                  (panelOf [blankTokenServer]) blankTokenServer "new-id")).
  reflexivity.
Defined.

(** C8 as stated fails on the connection status: after the connect
    action on a server with a blank token the server is still
    [disconnected], not in the [error] status. *)
Lemma blank_token_leaves_status :
  List.map status
    (remoteServers (fst (handleConnect (panelOf [blankTokenServer])
                           blankTokenServer)))
    = [StatusDisconnected] /\
  List.map status
    (remoteServers (fst (handleConnect (panelOf [blankTokenServer])
                           blankTokenServer)))
    <> [StatusError] /\
  snd (handleConnect (panelOf [blankTokenServer]) blankTokenServer) = [].
Proof. split; [reflexivity|]. split; [discriminate|reflexivity]. Qed.

End RemotePanelClaims.

(** * Further properties of the code *)

(** ** More on strings *)

Section StringFacts.
Import Js.

Lemma lastIndexOf_from_split c s :
  forall i found, found < i ->
    (lastIndexOf_from c s i found = found /\
     ~ In c (list_ascii_of_string s)) \/
    (exists pre suf,
       s = String.append pre (String c suf) /\
       lastIndexOf_from c s i found = i + Z.of_nat (String.length pre) /\
       ~ In c (list_ascii_of_string suf)).
Proof.
  induction s as [|d rest IH]; intros i found Hlt.
  - left. split; [reflexivity|]. intros [].
  - cbn [lastIndexOf_from].
    destruct (Ascii.eqb_spec c d) as [<-|Hne].
    + destruct (IH (i + 1) i ltac:(lia)) as [[Hk Hno]|(pre & suf & -> & Hk & Hno)].
      * right. exists EmptyString, rest. simpl.
        split; [reflexivity|]. split; [lia|exact Hno].
      * right. exists (String c pre), suf. simpl String.length.
        split; [reflexivity|]. split; [lia|exact Hno].
    + destruct (IH (i + 1) found ltac:(lia)) as [[Hk Hno]|(pre & suf & -> & Hk & Hno)].
      * left. split; [exact Hk|]. simpl. intros [Heq|Hin]; [congruence|auto].
      * right. exists (String d pre), suf. simpl String.length.
        split; [reflexivity|]. split; [lia|exact Hno].
Qed.

(** The last occurrence of a character splits the string. *)
Lemma lastIndexOf_split s c :
  (lastIndexOf s c = -1 /\ ~ In c (list_ascii_of_string s)) \/
  (exists pre suf,
     s = String.append pre (String c suf) /\
     lastIndexOf s c = Z.of_nat (String.length pre) /\
     ~ In c (list_ascii_of_string suf)).
Proof.
  unfold lastIndexOf.
  destruct (lastIndexOf_from_split c s 0 (-1) ltac:(lia))
    as [H|(pre & suf & H1 & H2 & H3)]; [left; exact H|].
  right. exists pre, suf. split; [exact H1|]. split; [lia|exact H3].
Qed.

Lemma lastIndexOf_last c pre suf :
  ~ In c (list_ascii_of_string suf) ->
  lastIndexOf (String.append pre (String c suf)) c =
    Z.of_nat (String.length pre).
Proof.
  intros Hno. unfold lastIndexOf.
  rewrite lastIndexOf_from_append. cbn [lastIndexOf_from].
  rewrite Ascii.eqb_refl. rewrite lastIndexOf_from_absent by exact Hno. lia.
Qed.

Lemma lastIndexOf_before c d pre suf :
  c <> d -> ~ In d (list_ascii_of_string suf) ->
  lastIndexOf (String.append pre (String c suf)) d <
    Z.of_nat (String.length pre).
Proof.
  intros Hne Hno. unfold lastIndexOf.
  rewrite lastIndexOf_from_append. cbn [lastIndexOf_from].
  destruct (Ascii.eqb_spec d c) as [->|_]; [congruence|].
  rewrite lastIndexOf_from_absent by exact Hno.
  destruct (lastIndexOf_from_range d pre 0 (-1)) as [->|H]; lia.
Qed.

Lemma append_nil s : String.append EmptyString s = s.
Proof. reflexivity. Qed.

Lemma append_cons c s t :
  String.append (String c s) t = String c (String.append s t).
Proof. reflexivity. Qed.

Lemma takeChars_append s t :
  takeChars (String.length s) (String.append s t) = s.
Proof. induction s as [|c s IH]; simpl; [destruct t; reflexivity|now rewrite IH]. Qed.

Lemma slice_prefix s t :
  slice (String.append s t) 0 (Z.of_nat (String.length s)) = s.
Proof.
  unfold slice. rewrite Z.sub_0_r, Nat2Z.id. simpl. apply takeChars_append.
Qed.

Lemma takeChars_length n s :
  String.length (takeChars n s) = Nat.min n (String.length s).
Proof.
  revert s. induction n as [|n IH]; intros [|c s]; simpl; try reflexivity.
  now rewrite IH.
Qed.

Lemma dropChars_length n s :
  String.length (dropChars n s) = (String.length s - n)%nat.
Proof.
  revert s. induction n as [|n IH]; intros [|c s]; simpl; try reflexivity.
  apply IH.
Qed.

Lemma isWhitespace_lower c : isWhitespace (toLowerChar c) = isWhitespace c.
Proof.
  unfold toLowerChar. destruct (isUpper c) eqn:Hu; [|reflexivity].
  unfold isUpper in Hu. apply andb_true_iff in Hu as [H1 H2].
  apply Nat.leb_le in H1, H2.
  unfold isWhitespace. rewrite nat_ascii_embedding by lia.
  assert (Hc : nat_of_ascii c <> 32%nat) by lia.
  apply Nat.eqb_neq in Hc.
  assert (Hc2 : (nat_of_ascii c + 32)%nat <> 32%nat) by lia.
  apply Nat.eqb_neq in Hc2. rewrite Hc, Hc2. simpl.
  assert (H3 : Nat.leb (nat_of_ascii c) 13 = false) by (apply Nat.leb_gt; lia).
  assert (H4 : Nat.leb (nat_of_ascii c + 32) 13 = false) by (apply Nat.leb_gt; lia).
  rewrite H3, H4, !andb_false_r. reflexivity.
Qed.

Lemma trimStart_lower s : trimStart (toLowerCase s) = toLowerCase (trimStart s).
Proof.
  induction s as [|c s IH]; [reflexivity|].
  simpl. rewrite isWhitespace_lower.
  destruct (isWhitespace c); [exact IH|reflexivity].
Qed.

Lemma trimEnd_lower s : trimEnd (toLowerCase s) = toLowerCase (trimEnd s).
Proof.
  induction s as [|c s IH]; [reflexivity|].
  simpl. rewrite IH, isWhitespace_lower.
  destruct (trimEnd s) as [|d s']; simpl.
  - destruct (isWhitespace c); reflexivity.
  - reflexivity.
Qed.

Lemma trim_lower s : trim (toLowerCase s) = toLowerCase (trim s).
Proof. unfold trim. now rewrite trimStart_lower, trimEnd_lower. Qed.

Lemma splitOn_nonempty sep s : splitOn sep s <> [].
Proof.
  destruct s as [|c s]; simpl; [discriminate|].
  destruct (sep c); [discriminate|].
  destruct (splitOn sep s); discriminate.
Qed.

Lemma splitOn_whitespace_lower s :
  splitOn isWhitespace (toLowerCase s) =
  List.map toLowerCase (splitOn isWhitespace s).
Proof.
  induction s as [|c s IH]; [reflexivity|].
  simpl. rewrite isWhitespace_lower, IH.
  destruct (isWhitespace c); [reflexivity|].
  destruct (splitOn isWhitespace s); reflexivity.
Qed.

Lemma truthy_lower s : truthy (toLowerCase s) = truthy s.
Proof. destruct s; reflexivity. Qed.

Lemma filter_truthy_lower l :
  List.filter truthy (List.map toLowerCase l) =
  List.map toLowerCase (List.filter truthy l).
Proof.
  induction l as [|a l IH]; [reflexivity|].
  simpl. rewrite truthy_lower. destruct (truthy a); simpl; now rewrite IH.
Qed.

End StringFacts.

(** ** Treemap: ordering, split point and containment *)

Section TreemapOrder.
Import Treemap.

Lemma insertBySize_same_size k a l :
  filter (fun n => sizeBytes n =? k) (insertBySize a l) =
  filter (fun n => sizeBytes n =? k) (a :: l).
Proof.
  induction l as [|b l IH]; [reflexivity|].
  cbn [insertBySize].
  destruct (Z.leb_spec (sizeBytes b) (sizeBytes a)) as [Hle|Hlt]; [reflexivity|].
  rewrite filter_cons, IH, !filter_cons.
  destruct (decide (sizeBytes b =? k)) as [Hb|Hb];
    destruct (decide (sizeBytes a =? k)) as [Ha|Ha]; try reflexivity.
  apply Is_true_true in Ha, Hb. lia.
Qed.

Lemma sortBySize_same_size k l :
  filter (fun n => sizeBytes n =? k) (sortBySize l) =
  filter (fun n => sizeBytes n =? k) l.
Proof.
  induction l as [|a l IH]; [reflexivity|].
  cbn [sortBySize]. rewrite insertBySize_same_size, !filter_cons, IH.
  reflexivity.
Qed.

(** X1. [sortBySize] rearranges the nodes into descending order of size
    and is stable: nodes of one size keep the order they had. *)
Theorem sortBySize_stable_descending nodes :
  Permutation (sortBySize nodes) nodes /\
  descending (sortBySize nodes) /\
  forall k, filter (fun n => sizeBytes n =? k) (sortBySize nodes) =
            filter (fun n => sizeBytes n =? k) nodes.
Proof.
  split; [apply sortBySize_perm|].
  split; [apply sortBySize_descending|].
  intros k. apply sortBySize_same_size.
Qed.

(** X2. [getSplitIndex] returns the length of the shortest non-empty
    prefix whose sizes add up to at least half of [total]; when no prefix
    does, it returns 1. *)
Theorem getSplitIndex_shortest_prefix nodes total :
  let k := getSplitIndex nodes total in
  ((exists j : nat, (1 <= j <= length nodes)%nat /\
       total <= 2 * sumNodeSizes (firstn j nodes)) ->
     (1 <= k <= length nodes)%nat /\
     total <= 2 * sumNodeSizes (firstn k nodes) /\
     forall j : nat, (1 <= j < k)%nat ->
       2 * sumNodeSizes (firstn j nodes) < total) /\
  ((forall j : nat, (1 <= j <= length nodes)%nat ->
       2 * sumNodeSizes (firstn j nodes) < total) -> k = 1%nat).
Proof.
  intros k. unfold k, getSplitIndex.
  destruct (getSplitIndex_loop nodes total 0 0) as [i|] eqn:Hloop.
  - apply getSplitIndex_loop_some in Hloop as (j & -> & Hj & Hhit & Hmiss).
    change (0 + j + 1)%nat with (j + 1)%nat.
    split.
    + intros _. split; [lia|]. split; [lia|].
      intros j' Hj'. specialize (Hmiss (j' - 1)%nat ltac:(lia)).
      replace (j' - 1 + 1)%nat with j' in Hmiss by lia. lia.
    + intros Hnone. specialize (Hnone (j + 1)%nat ltac:(lia)). lia.
  - pose proof (getSplitIndex_loop_none _ _ _ _ Hloop) as Hmiss.
    split; [|reflexivity].
    intros (j & Hj & Hhit). exfalso.
    specialize (Hmiss (j - 1)%nat ltac:(lia)).
    replace (j - 1 + 1)%nat with j in Hmiss by lia. lia.
Qed.

Lemma getSplitIndex_shortest_prefix_witness :
  (1 <= getSplitIndex (sortBySize sampleNodes) 8 <= length (sortBySize sampleNodes))%nat /\
  8 <= 2 * sumNodeSizes
         (firstn (getSplitIndex (sortBySize sampleNodes) 8) (sortBySize sampleNodes)).
Proof.
  destruct (getSplitIndex_shortest_prefix (sortBySize sampleNodes) 8) as [H _].
  destruct H as (H1 & H2 & _).
  - exists 1%nat. vm_compute. split; [lia|]. discriminate.
  - split; [exact H1|exact H2].
Defined.

End TreemapOrder.

Section TreemapContainment.
Import Treemap.

Lemma sumNodeSizes_nonneg l :
  Forall (fun n => 0 <= sizeBytes n) l -> 0 <= sumNodeSizes l.
Proof.
  induction 1 as [|a l Ha _ IH]; simpl; lia.
Qed.

Lemma Forall_firstn_skipn {A} (P : A -> Prop) k (l : list A) :
  Forall P l -> Forall P (firstn k l) /\ Forall P (skipn k l).
Proof.
  intros H. rewrite <- (firstn_skipn k l) in H.
  apply Forall_app in H. exact H.
Qed.

Lemma ratio_unit (sA total : Z) :
  0 <= sA -> sA <= total -> 0 < total ->
  (0 <= inject_Z sA / inject_Z total /\ inject_Z sA / inject_Z total <= 1)%Q.
Proof.
  intros H0 H1 Ht.
  assert (HT : (0 < inject_Z total)%Q) by (apply inject_Z_pos; exact Ht).
  assert (HA : (0 <= inject_Z sA)%Q) by (rewrite Zle_Qle in H0; exact H0).
  assert (HAT : (inject_Z sA <= inject_Z total)%Q) by (rewrite Zle_Qle in H1; exact H1).
  split.
  - apply Qle_shift_div_l; [exact HT|]. lra.
  - apply Qle_shift_div_r; [exact HT|]. lra.
Qed.

Lemma split_permutation k (nodes : list ScanNode) ra rb restA restB :
  Permutation (List.map node ra ++ restA) (firstn k (sortBySize nodes)) ->
  Permutation (List.map node rb ++ restB) (skipn k (sortBySize nodes)) ->
  Permutation (List.map node (ra ++ rb) ++ (restA ++ restB)) nodes.
Proof.
  intros HpA HpB.
  assert (Hp : Permutation (firstn k (sortBySize nodes) ++
                            skipn k (sortBySize nodes)) nodes)
    by (rewrite firstn_skipn; apply sortBySize_perm).
  etransitivity; [|exact Hp].
  etransitivity; [|apply Permutation_app; [exact HpA|exact HpB]].
  rewrite List.map_app, <- !app_assoc. apply Permutation_app_head.
  rewrite !app_assoc. apply Permutation_app_tail. apply Permutation_app_comm.
Qed.

Lemma recursiveSplit_fuel_within fuel :
  forall nodes x y w h,
    (length nodes <= fuel)%nat ->
    Forall (fun n => 0 <= sizeBytes n) nodes -> (0 <= w)%Q -> (0 <= h)%Q ->
    exists rects,
      recursiveSplit_fuel fuel nodes x y w h = Some rects /\
      (exists rest, Permutation (List.map node rects ++ rest) nodes) /\
      (length rects <= length nodes)%nat /\
      Forall (fun r =>
        (x <= Treemap.x r /\ 0 <= Treemap.w r /\
         Treemap.x r + Treemap.w r <= x + w /\
         y <= Treemap.y r /\ 0 <= Treemap.h r /\
         Treemap.y r + Treemap.h r <= y + h)%Q /\
        In (node r) nodes) rects.
Proof.
  induction fuel as [|fuel IH]; intros nodes x y w h Hlen Hsz Hw Hh.
  - destruct nodes as [|a [|b rest]]; [|simpl in Hlen; lia..].
    exists []. split; [reflexivity|]. split; [exists []; reflexivity|].
    split; [simpl; lia|constructor].
  - destruct nodes as [|a [|b rest]].
    + exists []. split; [reflexivity|]. split; [exists []; reflexivity|].
      split; [simpl; lia|constructor].
    + exists [mkRect x y w h a].
      split; [reflexivity|]. split; [exists []; reflexivity|].
      split; [simpl; lia|].
      constructor; [|constructor]. simpl.
      split; [|now left]. repeat apply conj; lra.
    + destruct (Z_le_gt_dec (sumNodeSizes (a :: b :: rest)) 0) as [Hz|Hpos].
      { rewrite recursiveSplit_fuel_nonpos by exact Hz.
        exists []. split; [reflexivity|].
        split; [exists (a :: b :: rest); reflexivity|].
        split; [simpl; lia|constructor]. }
      set (nodes := a :: b :: rest) in *.
      pose proof (groups_shorter nodes ltac:(simpl; lia) ltac:(lia)) as Hg.
      cbv zeta in Hg. destruct Hg as (Hk & HlenA & HlenB).
      pose proof (recursiveSplit_fuel_step fuel a b rest x y w h) as Hstep.
      cbv zeta in Hstep. fold nodes in Hstep.
      rewrite Hstep by (rewrite sortBySize_sum; lia). clear Hstep.
      set (sorted := sortBySize nodes) in *.
      set (k := getSplitIndex sorted (sumNodeSizes sorted)) in *.
      assert (Hsorted : Forall (fun n => 0 <= sizeBytes n) sorted).
      { apply List.Forall_forall. intros n Hn.
        rewrite List.Forall_forall in Hsz. apply Hsz.
        eapply Permutation_in; [apply sortBySize_perm|exact Hn]. }
      destruct (Forall_firstn_skipn _ k _ Hsorted) as [HszA HszB].
      pose proof (sumNodeSizes_split k sorted) as Hsum.
      pose proof (sumNodeSizes_nonneg _ HszA) as HA0.
      pose proof (sumNodeSizes_nonneg _ HszB) as HB0.
      assert (Htot : 0 < sumNodeSizes sorted)
        by (unfold sorted; rewrite sortBySize_sum; lia).
      destruct (ratio_unit (sumNodeSizes (firstn k sorted)) (sumNodeSizes sorted)
                  HA0 ltac:(lia) Htot) as [Hr0 Hr1].
      set (r := (inject_Z (sumNodeSizes (firstn k sorted)) /
                 inject_Z (sumNodeSizes sorted))%Q) in *.
      assert (HinA : forall n, In n (firstn k sorted) -> In n nodes).
      { intros n Hn. eapply Permutation_in; [apply sortBySize_perm|].
        fold nodes sorted. rewrite <- (firstn_skipn k sorted).
        apply in_or_app. now left. }
      assert (HinB : forall n, In n (skipn k sorted) -> In n nodes).
      { intros n Hn. eapply Permutation_in; [apply sortBySize_perm|].
        fold nodes sorted. rewrite <- (firstn_skipn k sorted).
        apply in_or_app. now right. }
      assert (Hcount : (length (firstn k sorted) + length (skipn k sorted)
                        = length nodes)%nat).
      { rewrite <- length_app, firstn_skipn. apply sortBySize_length. }
      destruct (Qlt_le_dec h w) as [Hwide|Htall].
      * assert (Hwa0 : (0 <= w * r)%Q) by nra.
        assert (Hwa1 : (w * r <= w)%Q) by nra.
        destruct (IH (firstn k sorted) x y (w * r)%Q h)
          as (ra & -> & (restA & HpA) & Hla & Hra); [lia|exact HszA|exact Hwa0|exact Hh|].
        destruct (IH (skipn k sorted) (x + w * r)%Q y (w - w * r)%Q h)
          as (rb & -> & (restB & HpB) & Hlb & Hrb); [lia|exact HszB|lra|exact Hh|].
        exists (ra ++ rb). split; [reflexivity|].
        split; [exists (restA ++ restB); now apply (split_permutation k)|].
        split; [rewrite length_app; lia|].
        apply Forall_app. split.
        -- eapply Forall_impl; [exact Hra|]. cbv beta.
           intros q ((? & ? & ? & ? & ? & ?) & Hq).
           split; [repeat apply conj; lra|auto].
        -- eapply Forall_impl; [exact Hrb|]. cbv beta.
           intros q ((? & ? & ? & ? & ? & ?) & Hq).
           split; [repeat apply conj; lra|auto].
      * assert (Hha0 : (0 <= h * r)%Q) by nra.
        assert (Hha1 : (h * r <= h)%Q) by nra.
        destruct (IH (firstn k sorted) x y w (h * r)%Q)
          as (ra & -> & (restA & HpA) & Hla & Hra); [lia|exact HszA|exact Hw|exact Hha0|].
        destruct (IH (skipn k sorted) x (y + h * r)%Q w (h - h * r)%Q)
          as (rb & -> & (restB & HpB) & Hlb & Hrb); [lia|exact HszB|exact Hw|lra|].
        exists (ra ++ rb). split; [reflexivity|].
        split; [exists (restA ++ restB); now apply (split_permutation k)|].
        split; [rewrite length_app; lia|].
        apply Forall_app. split.
        -- eapply Forall_impl; [exact Hra|]. cbv beta.
           intros q ((? & ? & ? & ? & ? & ?) & Hq).
           split; [repeat apply conj; lra|auto].
        -- eapply Forall_impl; [exact Hrb|]. cbv beta.
           intros q ((? & ? & ? & ? & ? & ?) & Hq).
           split; [repeat apply conj; lra|auto].
Qed.

(** X3. With the arithmetic of the layout taken over the rationals:
    when no size is negative and the box has no negative side,
    [recursiveSplit] returns rectangles of which each lies in the box and
    has no negative side, and of which each carries a node of its own:
    the nodes of the rectangles, together with the nodes that got none,
    are the given nodes in some order.  So no node gets two rectangles,
    and there are at most as many rectangles as nodes.  Nodes of size
    zero are allowed. *)
Theorem recursiveSplit_within_box nodes x y w h :
  Forall (fun n => 0 <= sizeBytes n) nodes -> (0 <= w)%Q -> (0 <= h)%Q ->
  exists rects,
    recursiveSplit nodes x y w h = Some rects /\
    (exists rest, Permutation (List.map node rects ++ rest) nodes) /\
    (length rects <= length nodes)%nat /\
    Forall (fun r =>
      (x <= Treemap.x r /\ 0 <= Treemap.w r /\
       Treemap.x r + Treemap.w r <= x + w /\
       y <= Treemap.y r /\ 0 <= Treemap.h r /\
       Treemap.y r + Treemap.h r <= y + h)%Q /\
      In (node r) nodes) rects.
Proof.
  intros Hsz Hw Hh. unfold recursiveSplit.
  apply recursiveSplit_fuel_within; [lia|exact Hsz|exact Hw|exact Hh].
Qed.

Lemma recursiveSplit_within_box_witness :
  exists rects,
    recursiveSplit (emptyNode :: sampleNodes) 0 0 100 50 = Some rects /\
    (exists rest,
       Permutation (List.map node rects ++ rest) (emptyNode :: sampleNodes)) /\
    (length rects <= length (emptyNode :: sampleNodes))%nat /\
    Forall (fun r =>
      (0 <= Treemap.x r /\ 0 <= Treemap.w r /\
       Treemap.x r + Treemap.w r <= 0 + 100 /\
       0 <= Treemap.y r /\ 0 <= Treemap.h r /\
       Treemap.y r + Treemap.h r <= 0 + 50)%Q /\
      In (node r) (emptyNode :: sampleNodes)) rects.
Proof.
  apply (recursiveSplit_within_box (emptyNode :: sampleNodes) 0 0 100 50).
  - repeat constructor; vm_compute; discriminate.
  - vm_compute; discriminate.
  - vm_compute; discriminate.
Defined.

End TreemapContainment.

(** ** Lists of extensions, size tokens and queries *)

Section QueryFacts.
Import Js Predicate.
Context {host : Host}.

Lemma parseListInput_loop_spec parts :
  forall seen result,
    (forall e, e ∈ seen <-> In e result) -> NoDup result ->
    let out := parseListInput_loop parts seen result in
    NoDup out /\
    forall e, In e out <->
      In e result \/
      (e <> EmptyString /\
       exists raw, In raw parts /\ e = toLowerCase (stripLeadingDot (trim raw))).
Proof.
  induction parts as [|raw parts IH]; intros seen result Hseen Hnd; cbn zeta.
  - simpl. split; [exact Hnd|]. intros e. split; [auto|].
    intros [H|(_ & raw & [] & _)]. exact H.
  - cbn [parseListInput_loop].
    destruct (truthy raw) eqn:Hraw; cbn [negb].
    + set (cleaned := toLowerCase (stripLeadingDot (trim raw))).
      destruct (truthy cleaned) eqn:Hcl; cbn [negb orb].
      * case_bool_decide as Hin.
        -- destruct (IH seen result Hseen Hnd) as [Hnd' Hout].
           split; [exact Hnd'|]. intros e. rewrite Hout.
           split.
           ++ intros [H|(Hne & r & Hr & He)]; [now left|].
              right. split; [exact Hne|]. exists r. split; [now right|exact He].
           ++ intros [H|(Hne & r & [<-|Hr] & He)]; [now left| |].
              ** left. apply Hseen. subst e. exact Hin.
              ** right. split; [exact Hne|]. exists r. split; assumption.
        -- assert (Hnew : ~ In cleaned result) by (rewrite <- Hseen; exact Hin).
           destruct (IH ({[cleaned]} ∪ seen) (result ++ [cleaned])) as [Hnd' Hout].
           { intros e. rewrite in_app_iff, <- Hseen. simpl.
             rewrite elem_of_union, elem_of_singleton. intuition congruence. }
           { apply NoDup_app. split; [exact Hnd|]. split.
             - intros x Hx Hx'. apply list_elem_of_In in Hx, Hx'.
               destruct Hx' as [<-|[]]. auto.
             - apply NoDup_singleton. }
           split; [exact Hnd'|]. intros e. rewrite Hout, in_app_iff. simpl.
           apply truthy_true in Hcl.
           split.
           ++ intros [[H|[<-|[]]]|(Hne & r & Hr & He)].
              ** now left.
              ** right. split; [exact Hcl|]. exists raw. split; [now left|reflexivity].
              ** right. split; [exact Hne|]. exists r. split; [now right|exact He].
           ++ intros [H|(Hne & r & [<-|Hr] & He)].
              ** left. now left.
              ** left. right. left. symmetry. exact He.
              ** right. split; [exact Hne|]. exists r. split; assumption.
      * destruct (IH seen result Hseen Hnd) as [Hnd' Hout].
        split; [exact Hnd'|]. intros e. rewrite Hout.
        split.
        -- intros [H|(Hne & r & Hr & He)]; [now left|].
           right. split; [exact Hne|]. exists r. split; [now right|exact He].
        -- intros [H|(Hne & r & [<-|Hr] & He)]; [now left| |].
           ++ exfalso. apply Hne. subst e. fold cleaned.
              destruct cleaned; [reflexivity|discriminate].
           ++ right. split; [exact Hne|]. exists r. split; assumption.
    + destruct (IH seen result Hseen Hnd) as [Hnd' Hout].
      split; [exact Hnd'|]. intros e. rewrite Hout.
      split.
      * intros [H|(Hne & r & Hr & He)]; [now left|].
        right. split; [exact Hne|]. exists r. split; [now right|exact He].
      * intros [H|(Hne & r & [<-|Hr] & He)]; [now left| |].
        -- exfalso. apply Hne. subst e.
           destruct raw; [reflexivity|discriminate].
        -- right. split; [exact Hne|]. exists r. split; assumption.
Qed.

(** X4. [parseListInput] returns, without repetition, exactly the
    non-empty cleaned pieces of its input: each piece between commas or
    line feeds is trimmed, loses one leading dot and is lower-cased. *)
Theorem parseListInput_cleaned_pieces value :
  NoDup (parseListInput value) /\
  (forall e, In e (parseListInput value) <->
     e <> EmptyString /\
     exists raw, In raw (splitOn isListSeparator value) /\
                 e = toLowerCase (stripLeadingDot (trim raw))) /\
  Forall (fun e => toLowerCase e = e) (parseListInput value).
Proof.
  destruct (parseListInput_loop_spec (splitOn isListSeparator value) ∅ [])
    as [Hnd Hout].
  { intros e. rewrite elem_of_empty. simpl. tauto. }
  { apply NoDup_nil_2. }
  assert (Hin : forall e, In e (parseListInput value) <->
     e <> EmptyString /\
     exists raw, In raw (splitOn isListSeparator value) /\
                 e = toLowerCase (stripLeadingDot (trim raw))).
  { intros e. unfold parseListInput. rewrite Hout. simpl. tauto. }
  split; [exact Hnd|]. split; [exact Hin|].
  apply List.Forall_forall. intros e He.
  apply Hin in He as (_ & raw & _ & ->). apply toLowerCase_idem.
Qed.

Lemma parseSizeValue_first_char c rest n :
  parseSizeValue (String c rest) = Some n -> isWhitespace c = false ->
  isDigit c = true.
Proof.
  unfold parseSizeValue, trim. intros H Hws.
  cbn [trimStart] in H. rewrite Hws in H.
  assert (Ht : exists t, trimEnd (String c rest) = String c t).
  { cbn [trimEnd]. destruct (trimEnd rest); [|eauto].
    rewrite Hws. eauto. }
  destruct Ht as [t Ht]. rewrite Ht in H.
  cbn [toLowerCase] in H. unfold matchSizeValue in H.
  cbn [takeDigits] in H.
  destruct (isDigit (toLowerChar c)) eqn:Hd.
  - unfold toLowerChar in Hd. destruct (isUpper c) eqn:Hu; [|exact Hd].
    exfalso. unfold isUpper in Hu. apply andb_true_iff in Hu as [H1 H2].
    apply Nat.leb_le in H1, H2. unfold isDigit in Hd.
    rewrite nat_ascii_embedding in Hd by lia.
    apply andb_true_iff in Hd as [_ H3]. apply Nat.leb_le in H3. lia.
  - simpl in H. discriminate.
Qed.

Lemma parseSizeValue_empty : parseSizeValue EmptyString = None.
Proof. reflexivity. Qed.

(** The size text after the operator, as the pattern captures it. *)
Lemma matchSizeToken_operator operator v n :
  In operator ["<="; ">="; "="; "<"; ">"]%string ->
  parseSizeValue v = Some n -> noLineTerminator v = true ->
  matchSizeToken (String.append "size" (String.append operator v)) =
    Some (operator, v).
Proof.
  intros Hop Hv Hnl.
  assert (Hne : truthy v = true).
  { destruct v; [discriminate Hv|reflexivity]. }
  assert (Hfirst : forall c, startsWith v (String c EmptyString) = true ->
                     isWhitespace c = false -> isDigit c = true).
  { intros c Hc Hws. destruct v as [|d rest]; [discriminate|].
    unfold startsWith in Hc. simpl in Hc.
    destruct (Ascii.eqb_spec c d) as [->|]; [|destruct (ascii_dec c d); [congruence|discriminate]].
    eapply parseSizeValue_first_char; eauto. }
  assert (Heq : startsWith v "=" = false).
  { destruct (startsWith v "=") eqn:E; [|reflexivity].
    specialize (Hfirst "="%char E eq_refl). discriminate. }
  unfold startsWith in Heq.
  assert (Hpre : String.prefix EmptyString v = true) by (destruct v; reflexivity).
  unfold matchSizeToken, startsWith. simpl in Hop.
  destruct Hop as [<-|[<-|[<-|[<-|[<-|[]]]]]]; simpl;
    change (String.append EmptyString v) with v;
    unfold startsWith;
    rewrite ?Heq, ?Hpre, ?Hne, ?Hnl; reflexivity.
Qed.

(** X5. In a query the strict and the inclusive size operators set the
    same bound: [size>V] and [size>=V] both store V as the minimum,
    [size<V] and [size<=V] both store it as the maximum, and a stored
    bound lets an entry of exactly that size through. *)
Theorem size_operators_are_inclusive params v n :
  parseSizeValue v = Some n -> noLineTerminator v = true ->
  applySizeToken params (String.append "size>" v) = Some (setMinSize params n) /\
  applySizeToken params (String.append "size>=" v) = Some (setMinSize params n) /\
  applySizeToken params (String.append "size<" v) = Some (setMaxSize params n) /\
  applySizeToken params (String.append "size<=" v) = Some (setMaxSize params n) /\
  matchesSizeConstraints n (Some n) None = true /\
  matchesSizeConstraints n None (Some n) = true.
Proof.
  intros Hv Hnl.
  assert (Hne : truthy v = true).
  { destruct v; [discriminate Hv|reflexivity]. }
  assert (Happly : forall operator,
    In operator ["<="; ">="; "="; "<"; ">"]%string ->
    applySizeToken params (String.append "size" (String.append operator v)) =
      Some (let params :=
              if String.eqb operator ">" || String.eqb operator ">="
              then setMinSize params n else params in
            let params :=
              if String.eqb operator "<" || String.eqb operator "<="
              then setMaxSize params n else params in
            if String.eqb operator "="
            then setMaxSize (setMinSize params n) n else params)).
  { intros operator Hop. unfold applySizeToken.
    rewrite (matchSizeToken_operator operator v n Hop Hv Hnl).
    rewrite Hne, Hv. reflexivity. }
  repeat apply conj.
  - apply (Happly ">"%string). simpl. tauto.
  - apply (Happly ">="%string). simpl. tauto.
  - apply (Happly "<"%string). simpl. tauto.
  - apply (Happly "<="%string). simpl. tauto.
  - unfold matchesSizeConstraints. now rewrite Z.ltb_irrefl.
  - unfold matchesSizeConstraints. now rewrite Z.ltb_irrefl.
Qed.

(** X6. A query of white space only constrains nothing: every entry
    matches it. *)
Theorem blank_query_matches_everything query entry :
  trim query = EmptyString ->
  matchesSearchEntry entry (parseSearchQuery query) =
    (true, parseSearchQuery query).
Proof.
  intros Hq. unfold parseSearchQuery. rewrite Hq. reflexivity.
Qed.

Lemma parseSearchQuery_loop_lower tokens :
  forall params,
    parseSearchQuery_loop (List.map toLowerCase tokens) params =
    parseSearchQuery_loop tokens params.
Proof.
  induction tokens as [|t tokens IH]; intros params; [reflexivity|].
  cbn [List.map parseSearchQuery_loop].
  rewrite truthy_lower, toLowerCase_idem.
  destruct (truthy t); cbn [negb]; [|apply IH].
  destruct (applySizeToken params (toLowerCase t)); [apply IH|].
  destruct (applyKeyToken params (toLowerCase t)); apply IH.
Qed.

(** X7. Searching ignores letter case on both sides: a query and its
    lower-cased form parse to the same parameters, and an entry matches
    exactly when the entry with lower-cased name and path does. *)
Theorem search_ignores_case query entry params :
  parseSearchQuery (toLowerCase query) = parseSearchQuery query /\
  matchesSearchEntry
    (mkScanFile (toLowerCase (path entry)) (toLowerCase (name entry))
       (sizeBytes entry)) params =
  matchesSearchEntry entry params.
Proof.
  split.
  - unfold parseSearchQuery.
    rewrite trim_lower, splitOn_whitespace_lower, filter_truthy_lower.
    apply parseSearchQuery_loop_lower.
  - unfold matchesSearchEntry. cbn [path name sizeBytes].
    rewrite !toLowerCase_idem. reflexivity.
Qed.

End QueryFacts.

Section QueryWitnesses.
Import Js Predicate.

Lemma size_operators_are_inclusive_witness :
  applySizeToken (host := literalHost) emptySearchParams "size>10kb" =
    Some (setMinSize emptySearchParams 10240) /\
  applySizeToken (host := literalHost) emptySearchParams "size>=10kb" =
    Some (setMinSize emptySearchParams 10240).
Proof.
  destruct (size_operators_are_inclusive (host := literalHost)
              emptySearchParams "10kb" 10240)
    as (H1 & H2 & _); [reflexivity|reflexivity|].
  split; [exact H1|exact H2].
Defined.

Lemma blank_query_matches_everything_witness :
  matchesSearchEntry (host := literalHost) tinyFile (parseSearchQuery "   ") =
    (true, parseSearchQuery (host := literalHost) "   ").
Proof.
  apply (blank_query_matches_everything (host := literalHost) "   " tinyFile).
  reflexivity.
Defined.

End QueryWitnesses.

(** ** Selection history *)

Section SelectionFacts.
Import ScanView.

Lemma isSameSelection_refl e : isSameSelection (Some e) e = true.
Proof.
  unfold isSameSelection.
  assert (Hk : sameKind (kind e) (kind e) = true) by (destruct (kind e); reflexivity).
  assert (Hp : RemoteList.sameString (parentPath e) (parentPath e) = true).
  { destruct (parentPath e); simpl; [apply String.eqb_refl|reflexivity]. }
  now rewrite Hk, String.eqb_refl, Hp.
Qed.

Lemma last_Some_split {A} (l : list A) e :
  List.last (List.map Some l) None = Some e ->
  exists front, l = front ++ [e].
Proof.
  induction l as [|a l IH]; [discriminate|].
  destruct l as [|b l].
  - simpl. intros [= ->]. exists []. reflexivity.
  - intros H. destruct (IH H) as [front Hf].
    exists (a :: front). rewrite Hf. reflexivity.
Qed.

(** X8. For a limit of at least one, the history
    [createNextSelectionHistory] returns ends with the selected entry (or
    with the equal entry that was current), the returned index points at
    that last element, everything before it is a run of consecutive
    entries of the old history that ended at the clamped index, and the
    length stays within the limit unless the old history already
    exceeded it. *)
Theorem createNextSelectionHistory_shape items currentIndex entry limit :
  1 <= limit ->
  let '(history, index) :=
    createNextSelectionHistory items currentIndex entry limit in
  index = Z.of_nat (length history) - 1 /\
  Z.of_nat (length history) <= Z.max limit (Z.of_nat (length items)) /\
  exists dropped kept rest current,
    history = kept ++ [current] /\
    isSameSelection (Some current) entry = true /\
    (current = entry /\ items = dropped ++ kept ++ rest /\
       Z.of_nat (length (dropped ++ kept)) =
         Z.min (Z.max currentIndex (-1)) (Z.of_nat (length items) - 1) + 1 /\
       Z.of_nat (length history) <= limit
     \/
     dropped = [] /\ items = kept ++ [current] ++ rest /\
       Z.of_nat (length (kept ++ [current])) =
         Z.min (Z.max currentIndex (-1)) (Z.of_nat (length items) - 1) + 1).
Proof.
  intros Hlimit. unfold createNextSelectionHistory.
  set (safeIndex := Z.min (Z.max currentIndex (-1)) (Z.of_nat (length items) - 1)).
  set (m := Z.to_nat (safeIndex + 1)).
  assert (Hm : Z.of_nat m = safeIndex + 1) by (unfold m, safeIndex; lia).
  assert (Hmlen : (m <= length items)%nat) by (unfold m, safeIndex; lia).
  set (head := firstn m items).
  assert (Hhead : length head = m) by (unfold head; rewrite length_firstn; lia).
  destruct (isSameSelection (List.last (List.map Some head) None) entry) eqn:Hsame.
  - destruct (List.last (List.map Some head) None) as [current|] eqn:Hlast;
      [|discriminate].
    destruct (last_Some_split _ _ Hlast) as [front Hfront].
    split; [reflexivity|]. split; [lia|].
    exists [], front, (skipn m items), current.
    split; [exact Hfront|]. split; [exact Hsame|].
    right. split; [reflexivity|]. split.
    + rewrite app_assoc, <- Hfront. unfold head. symmetry. apply firstn_skipn.
    + rewrite <- Hfront. lia.
  - set (next := head ++ [entry]).
    assert (Hnext : length next = S m) by (unfold next; rewrite length_app; simpl; lia).
    destruct (Z.ltb_spec limit (Z.of_nat (length next))) as [Hover|Hfits].
    + set (d := Z.to_nat (Z.of_nat (length next) - limit)).
      assert (Hd : (d <= m)%nat) by (unfold d; lia).
      assert (Hskip : skipn d next = skipn d head ++ [entry]).
      { unfold next. rewrite skipn_app.
        replace (d - length head)%nat with 0%nat by lia. reflexivity. }
      rewrite Hskip.
      assert (Hlen : length (skipn d head ++ [entry]) = (S m - d)%nat).
      { rewrite length_app, length_skipn. simpl. lia. }
      split; [reflexivity|]. split; [lia|].
      exists (firstn d head), (skipn d head), (skipn m items), entry.
      split; [reflexivity|]. split; [apply isSameSelection_refl|].
      left. split; [reflexivity|]. split.
      * rewrite app_assoc, firstn_skipn. unfold head. symmetry. apply firstn_skipn.
      * split; [rewrite firstn_skipn; lia|]. rewrite Hlen. unfold d. lia.
    + split; [reflexivity|]. split; [lia|].
      exists [], head, (skipn m items), entry.
      split; [reflexivity|]. split; [apply isSameSelection_refl|].
      left. split; [reflexivity|]. split.
      * simpl. unfold head. symmetry. apply firstn_skipn.
      * split; [simpl; lia|]. fold next. lia.
Qed.

Lemma createNextSelectionHistory_shape_witness :
  snd (createNextSelectionHistory sampleHistory 0
         (mkSelectionEntry KindFile "/root/f" None) MAX_SELECTION_HISTORY) =
  Z.of_nat (length (fst (createNextSelectionHistory sampleHistory 0
         (mkSelectionEntry KindFile "/root/f" None) MAX_SELECTION_HISTORY))) - 1.
Proof.
  pose proof (createNextSelectionHistory_shape sampleHistory 0
         (mkSelectionEntry KindFile "/root/f" None) MAX_SELECTION_HISTORY
         ltac:(unfold MAX_SELECTION_HISTORY; lia)) as H.
  destruct (createNextSelectionHistory sampleHistory 0
         (mkSelectionEntry KindFile "/root/f" None) MAX_SELECTION_HISTORY)
    as [history index].
  destruct H as [H _]. exact H.
Defined.

End SelectionFacts.

(** ** The largest files of a folder *)

Section LargestFilesFacts.
Import ScanView.

Lemma insertFileBySize_perm a l : Permutation (insertFileBySize a l) (a :: l).
Proof.
  induction l as [|b l IH]; simpl; [reflexivity|].
  destruct (Predicate.sizeBytes b <=? Predicate.sizeBytes a); [reflexivity|].
  rewrite IH. apply perm_swap.
Qed.

Lemma sortFilesBySize_perm l : Permutation (sortFilesBySize l) l.
Proof.
  induction l as [|a l IH]; simpl; [reflexivity|].
  rewrite insertFileBySize_perm. now apply perm_skip.
Qed.

Lemma insertFileBySize_descending a l :
  filesDescending l -> filesDescending (insertFileBySize a l).
Proof.
  unfold filesDescending.
  induction 1 as [|b l Hl IH Hb]; simpl.
  - constructor; [constructor|constructor].
  - destruct (Z.leb_spec (Predicate.sizeBytes b) (Predicate.sizeBytes a)) as [Hle|Hlt].
    + constructor; [constructor; assumption|].
      constructor; [exact Hle|].
      eapply Forall_impl; [exact Hb|]. cbv beta. intros; lia.
    + constructor; [exact IH|].
      apply List.Forall_forall. intros x Hx.
      eapply Permutation_in in Hx; [|apply insertFileBySize_perm].
      destruct Hx as [<-|Hx]; [lia|].
      rewrite List.Forall_forall in Hb. auto.
Qed.

Lemma sortFilesBySize_descending l : filesDescending (sortFilesBySize l).
Proof.
  induction l as [|a l IH]; simpl; [constructor|].
  now apply insertFileBySize_descending.
Qed.

Lemma filesDescending_firstn k l :
  filesDescending l -> filesDescending (firstn k l).
Proof.
  unfold filesDescending. intros H. revert k.
  induction H as [|a l Hl IH Ha]; intros [|k]; simpl; try constructor.
  - apply IH.
  - apply List.Forall_forall. intros x Hx.
    rewrite List.Forall_forall in Ha. apply Ha.
    rewrite <- (firstn_skipn k l). apply in_or_app. now left.
Qed.

Lemma filesDescending_last front z :
  filesDescending (front ++ [z]) ->
  Forall (fun g => Predicate.sizeBytes z <= Predicate.sizeBytes g) (front ++ [z]).
Proof.
  unfold filesDescending.
  induction front as [|a front IH]; simpl; intros H.
  - constructor; [lia|constructor].
  - inversion H as [|? ? Hl Ha]; subst.
    constructor; [|apply IH; exact Hl].
    rewrite List.Forall_forall in Ha. apply Ha.
    apply in_or_app. right. now left.
Qed.

Lemma last_cases {A} (l : list A) :
  (l = [] /\ List.last (List.map Some l) None = None) \/
  (exists front z, l = front ++ [z] /\ List.last (List.map Some l) None = Some z).
Proof.
  induction l as [|a l IH]; [left; split; reflexivity|].
  right. destruct IH as [[-> _]|(front & z & -> & Hz)].
  - exists [], a. split; reflexivity.
  - exists (a :: front), z. split; [reflexivity|].
    destruct front; exact Hz.
Qed.

Lemma keepsLargest_iff limit (seen seen' : Predicate.ScanFile -> Prop) l :
  (forall g, seen g <-> seen' g) -> keepsLargest limit seen l ->
  keepsLargest limit seen' l.
Proof.
  intros Hiff (Hd & Hlen & Hall & Htop).
  split; [exact Hd|]. split; [exact Hlen|]. split.
  - eapply Forall_impl; [exact Hall|]. intros g. apply Hiff.
  - intros f Hf. apply Htop. apply Hiff. exact Hf.
Qed.

(** One call of [updateLargestFiles] keeps the list the largest of the
    files offered so far. *)
Lemma updateLargestFiles_keeps limit seen largest file :
  keepsLargest limit seen largest ->
  keepsLargest limit (fun g => seen g \/ (g = file /\ 0 < Predicate.sizeBytes file))
    (updateLargestFiles largest file limit).
Proof.
  intros (Hd & Hlen & Hall & Htop). unfold updateLargestFiles.
  destruct (Z.leb_spec (Predicate.sizeBytes file) 0) as [Hnonpos|Hpos].
  { apply (keepsLargest_iff limit seen); [|repeat split; assumption].
    intros g. split; [now left|]. intros [H|[_ H]]; [exact H|lia]. }
  set (sorted := sortFilesBySize (largest ++ [file])).
  assert (Hperm : Permutation sorted (largest ++ [file]))
    by apply sortFilesBySize_perm.
  assert (Hsd : filesDescending sorted) by apply sortFilesBySize_descending.
  assert (Hslen : length sorted = S (length largest)).
  { rewrite (Permutation_length Hperm), length_app. simpl. lia. }
  assert (Hin : forall g, In g sorted <-> In g largest \/ g = file).
  { intros g. split.
    - intros H. eapply Permutation_in in H; [|exact Hperm].
      apply in_app_or in H as [H|[H|[]]]; [now left|now right].
    - intros H. eapply Permutation_in; [symmetry; exact Hperm|].
      apply in_or_app. destruct H as [H| ->]; [now left|right; now left]. }
  destruct (Nat.ltb_spec (length largest) limit) as [Hroom|Hfull].
  - split; [exact Hsd|]. split; [lia|]. split.
    + apply List.Forall_forall. intros g Hg. apply Hin in Hg as [Hg| ->].
      * left. rewrite List.Forall_forall in Hall. auto.
      * right. split; [reflexivity|exact Hpos].
    + intros f [Hf|[-> _]].
      * destruct (Htop f Hf) as [H|[H _]]; [|lia].
        left. apply Hin. now left.
      * left. apply Hin. now right.
  - assert (Heq : length largest = limit) by lia.
    assert (Hsmall : forall g z, In g largest ->
              List.last (List.map Some largest) None = Some z ->
              Predicate.sizeBytes z <= Predicate.sizeBytes g).
    { intros g z Hg Hz.
      destruct (last_cases largest) as [[_ Hn]|(front & z' & Hl & Hz')];
        [congruence|].
      assert (z' = z) by congruence. subst z'.
      rewrite Hl in Hd. apply filesDescending_last in Hd.
      rewrite <- Hl in Hd. rewrite List.Forall_forall in Hd. auto. }
    destruct (List.last (List.map Some largest) None) as [z|] eqn:Hz.
    + destruct (Z.leb_spec (Predicate.sizeBytes file) (Predicate.sizeBytes z)) as [Hle|Hgt].
      * split; [exact Hd|]. split; [exact Hlen|]. split.
        -- eapply Forall_impl; [exact Hall|]. cbv beta. intros; now left.
        -- intros f [Hf|[-> _]]; [apply Htop; exact Hf|].
           right. split; [exact Heq|].
           apply List.Forall_forall. intros g Hg.
           specialize (Hsmall g z Hg eq_refl). lia.
      * assert (Hsplit : exists last, sorted = firstn limit sorted ++ [last]).
        { pose proof (firstn_skipn limit sorted) as Hfs.
          assert (Hl1 : length (skipn limit sorted) = 1%nat)
            by (rewrite length_skipn; lia).
          destruct (skipn limit sorted) as [|l0 [|? ?]]; try discriminate.
          exists l0. symmetry. exact Hfs. }
        destruct Hsplit as [out Hsplit].
        assert (Hkeep : forall g, In g sorted ->
                  In g (firstn limit sorted) \/ g = out).
        { intros g Hg. rewrite Hsplit in Hg.
          apply in_app_or in Hg as [Hg|[Hg|[]]]; [now left|now right]. }
        assert (Hout : Forall (fun g => Predicate.sizeBytes out <= Predicate.sizeBytes g)
                         (firstn limit sorted)).
        { rewrite Hsplit in Hsd. apply filesDescending_last in Hsd.
          apply Forall_app in Hsd. apply Hsd. }
        assert (Hlen' : length (firstn limit sorted) = limit)
          by (rewrite length_firstn; lia).
        assert (Hsub : forall g, In g (firstn limit sorted) -> In g sorted).
        { intros g Hg. rewrite <- (firstn_skipn limit sorted).
          apply in_or_app. now left. }
        split; [apply filesDescending_firstn; exact Hsd|].
        split; [lia|]. split.
        -- apply List.Forall_forall. intros g Hg.
           apply Hsub, Hin in Hg as [Hg| ->].
           ++ left. rewrite List.Forall_forall in Hall. auto.
           ++ right. split; [reflexivity|exact Hpos].
        -- assert (Hfull' : forall f, In f sorted ->
                     In f (firstn limit sorted) \/
                     (length (firstn limit sorted) = limit /\
                      Forall (fun g => Predicate.sizeBytes f <= Predicate.sizeBytes g)
                        (firstn limit sorted))).
           { intros f Hf. destruct (Hkeep f Hf) as [H| ->]; [now left|].
             right. split; [exact Hlen'|exact Hout]. }
           intros f [Hf|[-> _]].
           ++ destruct (Htop f Hf) as [H|[_ Hge]].
              ** apply Hfull', Hin. now left.
              ** right. split; [exact Hlen'|].
                 apply List.Forall_forall. intros g Hg.
                 apply Hsub, Hin in Hg as [Hg| ->].
                 --- rewrite List.Forall_forall in Hge. auto.
                 --- destruct (last_cases largest)
                       as [[_ Hn]|(front & z' & Hl & Hz')]; [congruence|].
                     assert (z' = z) by congruence. subst z'.
                     assert (Hzin : In z largest)
                       by (rewrite Hl; apply in_or_app; right; now left).
                     rewrite List.Forall_forall in Hge.
                     specialize (Hge z Hzin). lia.
           ++ apply Hfull', Hin. now right.
    + assert (Hnil : largest = []).
      { destruct (last_cases largest) as [[H _]|(front & z' & _ & Hz')];
          [exact H|congruence]. }
      subst largest. simpl in Heq. subst limit.
      destruct (Z.leb_spec (Predicate.sizeBytes file) 0) as [|_]; [lia|].
      simpl. split; [constructor|]. split; [simpl; lia|].
      split; [constructor|].
      intros f _. right. split; [reflexivity|constructor].
Qed.

Lemma scanFilesOf_keeps limit shouldInclude files :
  forall seen largest,
    keepsLargest limit seen largest ->
    keepsLargest limit
      (fun g => seen g \/
         (In g files /\ 0 < Predicate.sizeBytes g /\
          match shouldInclude with
          | Some include => include g = true
          | None => True
          end))
      (scanFilesOf files shouldInclude largest limit).
Proof.
  induction files as [|file files IH]; intros seen largest Hk.
  - simpl. apply (keepsLargest_iff limit seen); [|exact Hk].
    intros g. split; [now left|]. intros [H|[[] _]]. exact H.
  - cbn [scanFilesOf].
    set (skip := match shouldInclude with
                 | Some include => negb (include file)
                 | None => false
                 end).
    destruct skip eqn:Hskip.
    + eapply keepsLargest_iff; [|apply (IH seen largest Hk)].
      intros g. cbv beta. split.
      * intros [H|(Hin & Hp & Hi)]; [now left|].
        right. split; [now right|]. split; assumption.
      * intros [H|([<-|Hin] & Hp & Hi)]; [now left| |].
        -- exfalso. unfold skip in Hskip. destruct shouldInclude; [|discriminate].
           rewrite Hi in Hskip. discriminate.
        -- right. split; [exact Hin|]. split; assumption.
    + eapply keepsLargest_iff;
        [|apply (IH _ _ (updateLargestFiles_keeps limit seen largest file Hk))].
      intros g. cbv beta. split.
      * intros [[H|[-> Hp]]|(Hin & Hp & Hi)].
        -- now left.
        -- right. split; [now left|]. split; [exact Hp|].
           unfold skip in Hskip. destruct shouldInclude; [|exact I].
           now apply negb_false_iff in Hskip.
        -- right. split; [now right|]. split; assumption.
      * intros [H|([<-|Hin] & Hp & Hi)].
        -- left. now left.
        -- left. right. split; [reflexivity|exact Hp].
        -- right. split; [exact Hin|]. split; assumption.
Qed.

Lemma FileIn_inv f t :
  FileIn f t <->
  In f (treeFiles t) \/ exists c, In c (treeChildren t) /\ FileIn f c.
Proof.
  split.
  - intros H. inversion H; subst; [now left|right; eauto].
  - intros [H|(c & Hc & H)]; [now apply FileIn_here|eapply FileIn_below; eauto].
Qed.

Lemma treeNodeCount_children t :
  treeNodeCount t = S (list_sum (List.map treeNodeCount (treeChildren t))).
Proof. destruct t; reflexivity. Qed.

Lemma list_sum_rev l : list_sum (List.rev l) = list_sum l.
Proof.
  induction l as [|a l IH]; [reflexivity|].
  simpl. rewrite list_sum_app, IH. simpl. lia.
Qed.

Lemma getLargestFiles_loop_keeps limit shouldInclude fuel :
  forall stack seen largest,
    (list_sum (List.map treeNodeCount stack) <= fuel)%nat ->
    keepsLargest limit seen largest ->
    exists result,
      getLargestFiles_loop fuel stack shouldInclude largest limit = Some result /\
      keepsLargest limit
        (fun g => seen g \/
           exists t, In t stack /\ candidateFile t shouldInclude g)
        result.
Proof.
  induction fuel as [|fuel IH]; intros stack seen largest Hfuel Hk.
  - destruct stack as [|t stack].
    + exists largest. split; [reflexivity|].
      apply (keepsLargest_iff limit seen); [|exact Hk].
      intros g. split; [now left|]. intros [H|(t & [] & _)]. exact H.
    + simpl in Hfuel. rewrite treeNodeCount_children in Hfuel. lia.
  - destruct stack as [|t stack].
    + exists largest. split; [reflexivity|].
      apply (keepsLargest_iff limit seen); [|exact Hk].
      intros g. split; [now left|]. intros [H|(t & [] & _)]. exact H.
    + cbn [getLargestFiles_loop].
      pose proof (scanFilesOf_keeps limit shouldInclude (treeFiles t) seen largest Hk)
        as Hk'.
      destruct (IH (List.rev (treeChildren t) ++ stack) _ _ ltac:(
        rewrite List.map_app, list_sum_app, List.map_rev, list_sum_rev;
        simpl in Hfuel; rewrite treeNodeCount_children in Hfuel; lia) Hk')
        as (result & Hres & Hkr).
      exists result. split; [exact Hres|].
      eapply keepsLargest_iff; [|exact Hkr].
      intros g. cbv beta. unfold candidateFile. split.
      * intros [[H|(Hin & Hp & Hi)]|(c & Hc & Hf & Hp & Hi)].
        -- now left.
        -- right. exists t. split; [now left|].
           split; [apply FileIn_here; exact Hin|]. split; assumption.
        -- apply in_app_or in Hc as [Hc|Hc].
           ++ right. exists t. split; [now left|].
              split; [|split; assumption].
              eapply FileIn_below; [|exact Hf]. now apply in_rev.
           ++ right. exists c. split; [now right|]. repeat split; assumption.
      * intros [H|(c & [<-|Hc] & Hf & Hp & Hi)].
        -- left. now left.
        -- apply FileIn_inv in Hf as [Hf|(c & Hc & Hf)].
           ++ left. right. split; [exact Hf|]. split; assumption.
           ++ right. exists c. split; [|repeat split; assumption].
              apply in_or_app. left. now apply in_rev in Hc.
        -- right. exists c. split; [|repeat split; assumption].
           apply in_or_app. now right.
Qed.

(** X9. [getLargestFilesForNode] returns, largest first, the [limit]
    largest files of the tree among those of positive size that pass the
    optional predicate: every file returned is such a file, and a such
    file that is left out is no larger than any of the [limit] files
    returned. *)
Theorem getLargestFilesForNode_keeps_largest node limit shouldInclude :
  exists largest,
    getLargestFilesForNode node limit shouldInclude = Some largest /\
    keepsLargest limit (candidateFile node shouldInclude) largest.
Proof.
  unfold getLargestFilesForNode.
  destruct (getLargestFiles_loop_keeps limit shouldInclude (treeNodeCount node)
              [node] (fun _ => False) [])
    as (result & Hres & Hk).
  - simpl. lia.
  - split; [constructor|]. split; [simpl; lia|]. split; [constructor|].
    intros f [].
  - exists result. split; [exact Hres|].
    eapply keepsLargest_iff; [|exact Hk].
    intros g. cbv beta. split.
    + intros [[]|(t & [<-|[]] & H)]. exact H.
    + intros H. right. exists node. split; [now left|exact H].
Qed.

End LargestFilesFacts.

(** ** Usage bars and the context menu *)

Section ViewGeometry.
Import Js ScanView.

Lemma mathRound_mono a b : (a <= b)%Q -> mathRound a <= mathRound b.
Proof.
  intros H. unfold mathRound. apply Qfloor_resp_le. lra.
Qed.




(** X11. The context menu is placed at least 8 pixels from the left and
    top edges; when the window has room for the menu and both margins the
    menu also ends 8 pixels before the right and bottom edges, and a
    pointer position that already leaves that room is used as it is. *)
Theorem getMenuPosition_in_window clientX clientY innerWidth innerHeight
    menuWidth menuHeight :
  let '(px, py) := getMenuPosition clientX clientY innerWidth innerHeight
                     menuWidth menuHeight in
  (8 <= px /\ 8 <= py /\
   (menuWidth + 16 <= innerWidth -> px + menuWidth + 8 <= innerWidth) /\
   (menuHeight + 16 <= innerHeight -> py + menuHeight + 8 <= innerHeight) /\
   (8 <= clientX -> clientX + menuWidth + 8 <= innerWidth -> px == clientX) /\
   (8 <= clientY -> clientY + menuHeight + 8 <= innerHeight -> py == clientY))%Q.
Proof.
  unfold getMenuPosition.
  destruct (Q.max_spec 8 (Qmin clientX (innerWidth - menuWidth - 8)))
    as [[Hx1 Hx2]|[Hx1 Hx2]];
  destruct (Q.min_spec clientX (innerWidth - menuWidth - 8))
    as [[Hx3 Hx4]|[Hx3 Hx4]];
  destruct (Q.max_spec 8 (Qmin clientY (innerHeight - menuHeight - 8)))
    as [[Hy1 Hy2]|[Hy1 Hy2]];
  destruct (Q.min_spec clientY (innerHeight - menuHeight - 8))
    as [[Hy3 Hy4]|[Hy3 Hy4]];
  repeat apply conj; intros; lra.
Qed.

Lemma getMenuPosition_in_window_witness :
  (fst (getMenuPosition 1000 5 800 600 MENU_WIDTH MENU_HEIGHT) + MENU_WIDTH + 8
     <= 800)%Q.
Proof.
  pose proof (getMenuPosition_in_window 1000 5 800 600 MENU_WIDTH MENU_HEIGHT) as H.
  destruct (getMenuPosition 1000 5 800 600 MENU_WIDTH MENU_HEIGHT) as [px py].
  destruct H as (_ & _ & H & _). apply H. vm_compute. discriminate.
Defined.

End ViewGeometry.

(** ** Parent folder and last segment of a path *)

Section PathFacts.
Import Js RemoteList ScanView.

Lemma isPathSeparator_cases c :
  isPathSeparator c = true <-> c = "/"%char \/ c = "\"%char.
Proof.
  unfold isPathSeparator. rewrite orb_true_iff.
  split; (intros [H|H]; [left|right]).
  - now apply Ascii.eqb_eq in H.
  - now apply Ascii.eqb_eq in H.
  - subst. reflexivity.
  - subst. reflexivity.
Qed.

(** No character of the string is a path separator. *)
Lemma separator_free_absent s c :
  Forall (fun d => isPathSeparator d = false) (list_ascii_of_string s) ->
  isPathSeparator c = true -> ~ In c (list_ascii_of_string s).
Proof.
  intros Hfree Hc Hin. rewrite List.Forall_forall in Hfree.
  specialize (Hfree c Hin). congruence.
Qed.

Lemma lastSeparator_index pre c suf :
  isPathSeparator c = true ->
  Forall (fun d => isPathSeparator d = false) (list_ascii_of_string suf) ->
  let s := String.append pre (String c suf) in
  Z.max (lastIndexOf s "/") (lastIndexOf s "\") = Z.of_nat (String.length pre).
Proof.
  intros Hc Hfree s. unfold s.
  apply isPathSeparator_cases in Hc as [-> | ->].
  - rewrite lastIndexOf_last
      by (apply separator_free_absent; [exact Hfree|reflexivity]).
    pose proof (lastIndexOf_before "/" "\" pre suf ltac:(discriminate)
      ltac:(apply separator_free_absent; [exact Hfree|reflexivity])). lia.
  - rewrite (lastIndexOf_last "\")
      by (apply separator_free_absent; [exact Hfree|reflexivity]).
    pose proof (lastIndexOf_before "\" "/" pre suf ltac:(discriminate)
      ltac:(apply separator_free_absent; [exact Hfree|reflexivity])). lia.
Qed.

Lemma noSeparator_index s :
  Forall (fun d => isPathSeparator d = false) (list_ascii_of_string s) ->
  Z.max (lastIndexOf s "/") (lastIndexOf s "\") = -1.
Proof.
  intros Hfree. unfold lastIndexOf.
  rewrite !lastIndexOf_from_absent
    by (apply separator_free_absent; [exact Hfree|reflexivity]).
  reflexivity.
Qed.

Lemma splitOn_separator_free s :
  Forall (fun d => isPathSeparator d = false) (list_ascii_of_string s) ->
  splitOn isPathSeparator s = [s].
Proof.
  induction s as [|c s IH]; [reflexivity|].
  simpl. intros H. inversion H as [|? ? Hc Hs]; subst.
  rewrite Hc, (IH Hs). reflexivity.
Qed.

Lemma splitOn_at_separator sep pre c suf :
  sep c = true ->
  splitOn sep (String.append pre (String c suf)) =
  splitOn sep pre ++ splitOn sep suf.
Proof.
  intros Hc. induction pre as [|d pre IH].
  - simpl. rewrite Hc. reflexivity.
  - change (String.append (String d pre) (String c suf))
      with (String d (String.append pre (String c suf))).
    cbn [splitOn]. rewrite IH.
    destruct (sep d); [reflexivity|].
    pose proof (splitOn_nonempty sep pre) as Hne.
    destruct (splitOn sep pre); [congruence|reflexivity].
Qed.

Lemma stripTrailingSeparators_end s :
  forall pre c,
    stripTrailingSeparators s = String.append pre (String c EmptyString) ->
    isPathSeparator c = false.
Proof.
  induction s as [|a s IH]; intros pre c H.
  - destruct pre; discriminate.
  - cbn [stripTrailingSeparators] in H.
    destruct (stripTrailingSeparators s) as [|b r] eqn:Hs.
    + destruct (isPathSeparator a) eqn:Ha; [destruct pre; discriminate|].
      destruct pre as [|p pre].
      * rewrite append_nil in H. congruence.
      * rewrite append_cons in H. injection H as _ H. destruct pre; discriminate.
    + destruct pre as [|p pre].
      * rewrite append_nil in H. discriminate.
      * rewrite append_cons in H. injection H as _ H. eapply IH. exact H.
Qed.

(** Every string either has no separator or splits at its last one. *)
Lemma lastSeparator_exists s :
  Forall (fun d => isPathSeparator d = false) (list_ascii_of_string s) \/
  exists pre c suf,
    s = String.append pre (String c suf) /\ isPathSeparator c = true /\
    Forall (fun d => isPathSeparator d = false) (list_ascii_of_string suf).
Proof.
  induction s as [|a s IH]; [left; constructor|].
  destruct IH as [Hfree|(pre & c & suf & -> & Hc & Hsuf)].
  - destruct (isPathSeparator a) eqn:Ha.
    + right. exists EmptyString, a, s. auto.
    + left. simpl. constructor; assumption.
  - right. exists (String a pre), c, suf. auto.
Qed.

(** X12. Parent folder and last segment.  Once the trailing separators
    are stripped, a path that splits at its last separator into [pre],
    the separator and [suf] has the non-empty [suf] as its name and [pre]
    as its parent, except that an empty [pre] gives no parent; a path
    without separator has no parent and is its own name; and every path
    is of one of these two kinds. *)
Theorem parent_and_name_of_path path :
  let trimmed := stripTrailingSeparators path in
  (forall pre c suf,
     trimmed = String.append pre (String c suf) ->
     isPathSeparator c = true ->
     Forall (fun d => isPathSeparator d = false) (list_ascii_of_string suf) ->
     suf <> EmptyString /\
     getRemoteNodeName path = suf /\
     getParentPath path =
       if String.eqb pre EmptyString then None else Some pre) /\
  (Forall (fun d => isPathSeparator d = false) (list_ascii_of_string trimmed) ->
     getParentPath path = None /\
     getRemoteNodeName path =
       if String.eqb trimmed EmptyString then path else trimmed) /\
  (Forall (fun d => isPathSeparator d = false) (list_ascii_of_string trimmed) \/
   exists pre c suf,
     trimmed = String.append pre (String c suf) /\ isPathSeparator c = true /\
     Forall (fun d => isPathSeparator d = false) (list_ascii_of_string suf)).
Proof.
  intros trimmed. split; [|split; [|apply lastSeparator_exists]].
  - intros pre c suf Htrim Hc Hfree.
    assert (Hsuf : suf <> EmptyString).
    { intros ->. apply stripTrailingSeparators_end in Htrim. congruence. }
    split; [exact Hsuf|]. split.
    + unfold getRemoteNodeName.
      destruct (String.eqb_spec path "/") as [->|_];
        [destruct pre; discriminate Htrim|].
      fold trimmed. rewrite Htrim, splitOn_at_separator by exact Hc.
      rewrite (splitOn_separator_free suf Hfree), List.filter_app.
      cbn [List.filter].
      assert (Ht : truthy suf = true) by (destruct suf; [congruence|reflexivity]).
      rewrite Ht. apply last_last.
    + unfold getParentPath. fold trimmed. rewrite Htrim.
      rewrite (lastSeparator_index pre c suf Hc Hfree).
      destruct (Z.leb_spec (Z.of_nat (String.length pre)) 0) as [Hz|Hz].
      * destruct pre; [reflexivity|simpl in Hz; lia].
      * rewrite slice_prefix. destruct pre; [simpl in Hz; lia|reflexivity].
  - intros Hfree. split.
    + unfold getParentPath. fold trimmed. rewrite (noSeparator_index _ Hfree).
      reflexivity.
    + unfold getRemoteNodeName. fold trimmed.
      rewrite (splitOn_separator_free _ Hfree). cbn [List.filter].
      destruct (String.eqb_spec path "/") as [->|Hp]; [reflexivity|].
      destruct trimmed; reflexivity.
Qed.

Lemma parent_and_name_of_path_witness :
  getRemoteNodeName "/home/user/" = "user"%string /\
  getParentPath "/home/user/" = Some "/home"%string /\
  getParentPath "/home" = None.
Proof.
  destruct (parent_and_name_of_path "/home/user/") as (H & _ & _).
  destruct (H "/home"%string "/"%char "user"%string) as (_ & Hn & Hp);
    [reflexivity|reflexivity|repeat constructor|].
  destruct (parent_and_name_of_path "/home") as (H' & _ & _).
  destruct (H' ""%string "/"%char "home"%string) as (_ & _ & Hp');
    [reflexivity|reflexivity|repeat constructor|].
  split; [exact Hn|]. split; [exact Hp|exact Hp'].
Defined.

End PathFacts.

(** ** Segments of the usage chart *)

Section UsageChartFacts.
Import UsageCharts.

Lemma sumSegmentBytes_app l1 l2 :
  sumSegmentBytes (l1 ++ l2) = sumSegmentBytes l1 + sumSegmentBytes l2.
Proof. induction l1 as [|a l1 IH]; simpl; lia. Qed.

Lemma sumSegmentBytes_of_nodes l :
  sumSegmentBytes
    (List.map (fun n => mkChartSegment (Treemap.name n) (Treemap.sizeBytes n)) l) =
  Treemap.sumNodeSizes l.
Proof. induction l as [|a l IH]; simpl; lia. Qed.

(** The loop pushes the positive items in order until the limit is
    reached. *)
Lemma buildSegments_loop_closed sorted limit :
  forall segments used,
    let top :=
      firstn (Z.to_nat limit - length segments)
        (List.filter (fun n => 0 <? Treemap.sizeBytes n) sorted) in
    buildSegments_loop sorted limit segments used =
      (segments ++
         List.map (fun n => mkChartSegment (Treemap.name n) (Treemap.sizeBytes n)) top,
       used + Treemap.sumNodeSizes top).
Proof.
  induction sorted as [|item sorted IH]; intros segments used; cbn zeta.
  - cbn [buildSegments_loop List.filter]. rewrite firstn_nil. simpl.
    rewrite app_nil_r, Z.add_0_r. reflexivity.
  - cbn [buildSegments_loop List.filter].
    destruct (Z.ltb_spec (Z.of_nat (length segments)) limit) as [Hroom|Hfull].
    + destruct (Z.leb_spec (Treemap.sizeBytes item) 0) as [Hz|Hp].
      * assert (Hf : (0 <? Treemap.sizeBytes item) = false) by lia.
        rewrite Hf. apply IH.
      * assert (Hf : (0 <? Treemap.sizeBytes item) = true) by lia.
        rewrite Hf, IH. cbn zeta. rewrite length_app. simpl length.
        replace (Z.to_nat limit - length segments)%nat
          with (S (Z.to_nat limit - (length segments + 1)))%nat by lia.
        cbn [firstn List.map Treemap.sumNodeSizes].
        rewrite <- app_assoc. simpl. f_equal. lia.
    + replace (Z.to_nat limit - length segments)%nat with 0%nat by lia.
      simpl. rewrite app_nil_r, Z.add_0_r. reflexivity.
Qed.

(** X13. [buildSegments] charts, in descending order of size, the first
    [limit] children of positive size, followed by an [Other] segment for
    whatever part of the node's total they leave; every segment is
    positive, there are at most [limit] + 1 of them, and together they
    amount to the total, or to the charted children when these exceed
    it. *)
Theorem buildSegments_accounts_for_total node limit :
  children node <> [] ->
  let top :=
    firstn (Z.to_nat limit)
      (List.filter (fun n => 0 <? Treemap.sizeBytes n) (sortBySize (children node))) in
  let used := Treemap.sumNodeSizes top in
  let total := getTotalBytes node in
  let segments := buildSegments (Some node) limit in
  segments =
    List.map (fun n => mkChartSegment (Treemap.name n) (Treemap.sizeBytes n)) top ++
    (if used <? total then [mkChartSegment "Other" (total - used)] else []) /\
  Forall (fun s => 0 < sizeBytes s) segments /\
  Z.of_nat (length segments) <= Z.max limit 0 + 1 /\
  sumSegmentBytes segments = Z.max total used.
Proof.
  intros Hne.
  assert (Hbody : buildSegments (Some node) limit =
    let '(segments, used) :=
      buildSegments_loop (sortBySize (children node)) limit [] 0 in
    if used <? getTotalBytes node
    then segments ++ [mkChartSegment "Other" (getTotalBytes node - used)]
    else segments).
  { unfold buildSegments. destruct (children node); [congruence|reflexivity]. }
  intros top used total segments.
  assert (Hclosed : segments =
    List.map (fun n => mkChartSegment (Treemap.name n) (Treemap.sizeBytes n)) top ++
    (if used <? total then [mkChartSegment "Other" (total - used)] else [])).
  { unfold segments. rewrite Hbody, buildSegments_loop_closed. cbn zeta.
    simpl length. rewrite Nat.sub_0_r, Z.add_0_l.
    change (@app ChartSegment [] ?l) with l.
    fold top. fold used. fold total.
    destruct (used <? total); [reflexivity|]. now rewrite app_nil_r. }
  assert (Hpos : Forall (fun n => 0 < Treemap.sizeBytes n) top).
  { apply List.Forall_forall. intros n Hn.
    assert (Hin : In n (List.filter (fun n => 0 <? Treemap.sizeBytes n)
                          (sortBySize (children node)))).
    { unfold top in Hn.
      rewrite <- (firstn_skipn (Z.to_nat limit)
        (List.filter (fun n => 0 <? Treemap.sizeBytes n)
           (sortBySize (children node)))).
      apply in_or_app. now left. }
    apply List.filter_In in Hin as [_ Hin]. lia. }
  assert (Hlen : (length top <= Z.to_nat limit)%nat).
  { unfold top. rewrite length_firstn. lia. }
  split; [exact Hclosed|]. rewrite Hclosed. split; [|split].
  - apply Forall_app. split.
    + apply List.Forall_forall. intros s Hs.
      apply List.in_map_iff in Hs as (n & <- & Hn).
      rewrite List.Forall_forall in Hpos. simpl. auto.
    + destruct (Z.ltb_spec used total); constructor; [simpl; lia|constructor].
  - rewrite length_app, length_map.
    destruct (used <? total); simpl length; lia.
  - rewrite sumSegmentBytes_app, sumSegmentBytes_of_nodes. fold used.
    destruct (Z.ltb_spec used total); simpl; lia.
Qed.

Lemma buildSegments_accounts_for_total_witness :
  sumSegmentBytes
    (buildSegments (Some (mkChartNode 100 Treemap.sampleNodes)) 2) = 100.
Proof.
  destruct (buildSegments_accounts_for_total
              (mkChartNode 100 Treemap.sampleNodes) 2) as (_ & _ & _ & H).
  - discriminate.
  - exact H.
Defined.

End UsageChartFacts.

(** ** The bind address of the settings panel *)

Section SettingsFacts.
Import Js Settings.

Lemma allDigits_no_colon s :
  allDigits s = true -> ~ In ":"%char (list_ascii_of_string s).
Proof.
  induction s as [|c s IH]; simpl; [tauto|].
  intros H. apply andb_true_iff in H as [Hc Hs].
  intros [->|Hin]; [discriminate Hc|]. exact (IH Hs Hin).
Qed.

Lemma toLowerCase_keeps_colon s :
  In ":"%char (list_ascii_of_string s) ->
  In ":"%char (list_ascii_of_string (toLowerCase s)).
Proof.
  induction s as [|c s IH]; simpl; [tauto|].
  intros [->|Hin]; [left; reflexivity|right; auto].
Qed.

Lemma in_append_middle pre c suf :
  In c (list_ascii_of_string (String.append pre (String c suf))).
Proof.
  induction pre as [|d pre IH]; [left; reflexivity|].
  rewrite append_cons. right. exact IH.
Qed.

(** The pattern matches exactly the strings of the form host, colon,
    digits. *)
Lemma matchBindAddress_some s hostText portText :
  matchBindAddress s = Some (hostText, portText) <->
  s = String.append hostText (String ":" portText) /\
  portText <> EmptyString /\ allDigits portText = true /\
  Predicate.noLineTerminator hostText = true.
Proof.
  unfold matchBindAddress. split.
  - destruct (lastIndexOf_split s ":") as [[Hk _]|(pre & suf & -> & Hk & Hno)].
    + rewrite Hk. discriminate.
    + rewrite Hk.
      destruct (Z.ltb_spec (Z.of_nat (String.length pre)) 0) as [|_]; [lia|].
      rewrite slice_prefix, sliceFrom_after_char.
      destruct (truthy suf) eqn:Ht; [|discriminate].
      destruct (allDigits suf) eqn:Hd; [|discriminate].
      destruct (Predicate.noLineTerminator pre) eqn:Hn; [|discriminate].
      intros [= <- <-]. apply truthy_true in Ht. auto.
  - intros (-> & Hne & Hd & Hn).
    rewrite lastIndexOf_last by (apply allDigits_no_colon; exact Hd).
    destruct (Z.ltb_spec (Z.of_nat (String.length hostText)) 0) as [|_]; [lia|].
    rewrite slice_prefix, sliceFrom_after_char, Hd, Hn.
    apply truthy_true in Hne. rewrite Hne. reflexivity.
Qed.

Lemma host_port_unique h p h' p' :
  allDigits p = true -> allDigits p' = true ->
  String.append h (String ":" p) = String.append h' (String ":" p') ->
  h' = h /\ p' = p.
Proof.
  intros Hd Hd' Hv.
  pose proof (lastIndexOf_last ":" h' p' (allDigits_no_colon _ Hd')) as H1.
  pose proof (lastIndexOf_last ":" h p (allDigits_no_colon _ Hd)) as H2.
  rewrite <- Hv, H2 in H1.
  pose proof (slice_prefix h' (String ":" p')) as S1.
  pose proof (slice_prefix h (String ":" p)) as S2.
  pose proof (sliceFrom_after_char h' ":" p') as T1.
  pose proof (sliceFrom_after_char h ":" p) as T2.
  rewrite <- Hv, <- H1 in S1. rewrite <- Hv, <- H1 in T1.
  split; congruence.
Qed.

(** X14. [validateTcpBind] accepts a value exactly when, trimmed, it is
    empty or reads host, colon, port, where the host is not blank and
    holds no line break, and the port is a run of digits whose value is
    between 1 and 65535. *)
Theorem validateTcpBind_accepts value :
  validateTcpBind value = None <->
  trim value = EmptyString \/
  exists hostText portText,
    trim value = String.append hostText (String ":" portText) /\
    trim hostText <> EmptyString /\
    Predicate.noLineTerminator hostText = true /\
    portText <> EmptyString /\ allDigits portText = true /\
    1 <= digitsValue portText 0 <= 65535.
Proof.
  unfold validateTcpBind.
  destruct (truthy (trim value)) eqn:Ht; cbn [negb].
  - apply truthy_true in Ht.
    destruct (String.eqb_spec (toLowerCase (trim value)) "localhost") as [Hl|Hl].
    + split; [discriminate|].
      intros [H|(h & p & Hv & _)]; [congruence|]. exfalso.
      pose proof (in_append_middle h ":" p) as Hin. rewrite <- Hv in Hin.
      apply toLowerCase_keeps_colon in Hin. rewrite Hl in Hin.
      simpl in Hin. repeat (destruct Hin as [Hin|Hin]; [discriminate|]). exact Hin.
    + destruct (matchBindAddress (trim value)) as [[h p]|] eqn:Hm.
      * apply matchBindAddress_some in Hm as (Hv & Hne & Hd & Hn).
        assert (Hsame : forall h' p',
          trim value = String.append h' (String ":" p') ->
          allDigits p' = true -> h' = h /\ p' = p).
        { intros h' p' Hv' Hd'. apply host_port_unique; congruence. }
        destruct (truthy (trim h)) eqn:Hh; cbn [negb].
        -- apply truthy_true in Hh.
           destruct (Z.ltb_spec (digitsValue p 0) 1) as [Hlo|Hlo]; cbn [orb].
           ++ split; [discriminate|].
              intros [H|(h' & p' & Hv' & _ & _ & _ & Hd' & Hr)]; [congruence|].
              destruct (Hsame h' p' Hv' Hd') as [-> ->]. lia.
           ++ destruct (Z.ltb_spec 65535 (digitsValue p 0)) as [Hhi|Hhi].
              ** split; [discriminate|].
                 intros [H|(h' & p' & Hv' & _ & _ & _ & Hd' & Hr)]; [congruence|].
                 destruct (Hsame h' p' Hv' Hd') as [-> ->]. lia.
              ** split; [|reflexivity]. intros _. right.
                 exists h, p. repeat apply conj; auto; lia.
        -- split; [discriminate|].
           intros [H|(h' & p' & Hv' & Hh' & _ & _ & Hd' & _)]; [congruence|].
           destruct (Hsame h' p' Hv' Hd') as [-> ->]. exfalso. apply Hh'.
           destruct (trim h); [reflexivity|discriminate].
      * split; [discriminate|].
        intros [H|(h & p & Hv & _ & Hn & Hne & Hd & _)]; [congruence|].
        exfalso.
        assert (Hm' : matchBindAddress (trim value) = Some (h, p))
          by (apply matchBindAddress_some; auto).
        congruence.
  - split; [|reflexivity]. intros _. left.
    destruct (trim value); [reflexivity|discriminate].
Qed.

End SettingsFacts.

(** ** Shortening a label in the middle *)

Section TruncateFacts.
Import Js Utils.

Lemma slice_length s k :
  0 <= k <= Z.of_nat (String.length s) ->
  Z.of_nat (String.length (slice s 0 k)) = k.
Proof.
  intros Hk. unfold slice. rewrite Z.sub_0_r. simpl dropChars.
  rewrite takeChars_length. lia.
Qed.

Lemma sliceFrom_length s k :
  0 <= k <= Z.of_nat (String.length s) ->
  Z.of_nat (String.length (sliceFrom s (Z.of_nat (String.length s) - k))) = k.
Proof.
  intros Hk. unfold sliceFrom. rewrite dropChars_length. lia.
Qed.

Lemma mathFloor_half (q : Q) (k : Z) :
  (0 <= q)%Q -> (2 * q <= inject_Z k)%Q ->
  0 <= mathFloor q /\ 2 * mathFloor q <= k.
Proof.
  intros H0 Hk. unfold mathFloor. split.
  - change 0 with (Qfloor 0). apply Qfloor_resp_le. exact H0.
  - pose proof (Qfloor_le q) as Hf.
    assert (H2 : (inject_Z (2 * Qfloor q) <= inject_Z k)%Q).
    { rewrite inject_Z_mult. change (inject_Z 2) with 2%Q. lra. }
    rewrite <- Zle_Qle in H2. exact H2.
Qed.

(** X15. [truncateMiddle] returns a short enough value unchanged and
    nothing for a non-positive length.  A longer value is cut to exactly
    the requested whole length when that is at most 4 or at least 7; for
    a requested length of 5 or 6 the result has 7 characters, more than
    was asked for.  This holds however the product by 0.35 is rounded,
    as long as it stays between 0 and half of [keep]. *)
Theorem truncateMiddle_length scale value maxLength :
  (forall keep, 0 <= keep ->
     (0 <= scale keep)%Q /\ (2 * scale keep <= inject_Z keep)%Q) ->
  let safeMax := mathFloor maxLength in
  let result := truncateMiddle scale value maxLength in
  let len := Z.of_nat (String.length value) in
  (safeMax <= 0 -> result = EmptyString) /\
  (0 < safeMax -> len <= safeMax -> result = value) /\
  (0 < safeMax < len -> safeMax <= 4 \/ 7 <= safeMax ->
     Z.of_nat (String.length result) = safeMax) /\
  (safeMax < len -> safeMax = 5 \/ safeMax = 6 ->
     Z.of_nat (String.length result) = 7).
Proof.
  intros Hscale safeMax result len. unfold result, truncateMiddle.
  fold safeMax. fold len.
  assert (Hlong : 4 < safeMax < len ->
    let keep := safeMax - 3 in
    let startLen := Z.max 2 (mathFloor (scale keep)) in
    let endLen := Z.max 2 (keep - startLen) in
    Z.of_nat (String.length
      (String.append (slice value 0 startLen)
         (String.append "..." (sliceFrom value (len - endLen))))) =
    startLen + 3 + endLen /\
    2 <= startLen /\ 2 * startLen <= Z.max 4 keep).
  { intros Hs keep startLen endLen.
    destruct (Hscale keep ltac:(unfold keep; lia)) as [H0 H1].
    destruct (mathFloor_half _ _ H0 H1) as [Hf0 Hf1].
    assert (Hstart : 2 <= startLen /\ 2 * startLen <= Z.max 4 keep)
      by (unfold startLen; lia).
    split; [|exact Hstart].
    rewrite !length_append.
    change (String.length "...") with 3%nat.
    rewrite !Nat2Z.inj_add.
    rewrite slice_length by (fold len; unfold keep in *; lia).
    unfold len. rewrite sliceFrom_length
      by (fold len; unfold endLen, keep in *; lia).
    simpl Z.of_nat. lia. }
  repeat apply conj.
  - intros H. destruct (Z.leb_spec safeMax 0); [reflexivity|lia].
  - intros H0 H. destruct (Z.leb_spec safeMax 0); [lia|].
    destruct (Z.leb_spec len safeMax); [reflexivity|lia].
  - intros H0 H. destruct (Z.leb_spec safeMax 0); [lia|].
    destruct (Z.leb_spec len safeMax); [lia|].
    destruct (Z.leb_spec safeMax 4).
    + apply slice_length. fold len. lia.
    + destruct (Hlong ltac:(lia)) as (Hlen & Hs2 & Hs3).
      rewrite Hlen. lia.
  - intros H0 H. destruct (Z.leb_spec safeMax 0); [lia|].
    destruct (Z.leb_spec len safeMax); [lia|].
    destruct (Z.leb_spec safeMax 4); [lia|].
    destruct (Hlong ltac:(lia)) as (Hlen & Hs2 & Hs3).
    rewrite Hlen. lia.
Qed.

Lemma exactScale_bounds keep :
  0 <= keep ->
  (0 <= exactScale keep)%Q /\ (2 * exactScale keep <= inject_Z keep)%Q.
Proof.
  intros Hk. unfold exactScale.
  assert (H : (0 <= inject_Z keep)%Q) by (rewrite Zle_Qle in Hk; exact Hk).
  split.
  - assert (E : (inject_Z keep * (35 # 100) == inject_Z keep * (7 # 20))%Q) by ring.
    rewrite E. apply Qmult_le_0_compat; [exact H|discriminate].
  - assert (E : (inject_Z keep - 2 * (inject_Z keep * (35 # 100))
                 == inject_Z keep * (3 # 10))%Q) by ring.
    assert (E2 : (0 <= inject_Z keep * (3 # 10))%Q)
      by (apply Qmult_le_0_compat; [exact H|discriminate]).
    lra.
Qed.

Lemma truncateMiddle_length_witness :
  Z.of_nat (String.length
    (truncateMiddle exactScale "abcdefghijklmnopqrstuvwxyz" 5)) = 7.
Proof.
  destruct (truncateMiddle_length exactScale "abcdefghijklmnopqrstuvwxyz" 5
              exactScale_bounds) as (_ & _ & _ & H).
  apply H; vm_compute; [reflexivity|left; reflexivity].
Defined.

End TruncateFacts.

(** ** Remote listing: the watchdog bookkeeping *)

Section WatchdogFacts.
Import Js RemoteList Watchdog.

Lemma timersTracked_ext s s' :
  tracking s' = tracking s -> timersTracked s -> timersTracked s'.
Proof.
  unfold tracking, timersTracked. intros [= -> -> -> ->] H. exact H.
Qed.

Lemma forgetRequest_tracking requestId s :
  tracking (forgetRequest requestId s) =
  (delete requestId (remoteListRequestMapRef s),
   delete requestId (remoteListTimeoutsRef s),
   match remoteListTimeoutsRef s !! requestId with
   | Some timeoutId =>
       if timeoutId =? 0 then timers s else delete timeoutId (timers s)
   | None => timers s
   end,
   nextTimerId s).
Proof.
  unfold tracking, forgetRequest. cbn.
  destruct (remoteListTimeoutsRef s !! requestId) as [t|]; [|reflexivity].
  destruct (t =? 0); reflexivity.
Qed.

(** Retiring a request keeps the bookkeeping. *)
Lemma retire_tracked s s' requestId :
  timersTracked s ->
  tracking s' =
    (delete requestId (remoteListRequestMapRef s),
     delete requestId (remoteListTimeoutsRef s),
     match remoteListTimeoutsRef s !! requestId with
     | Some timeoutId => delete timeoutId (timers s)
     | None => timers s
     end,
     nextTimerId s) ->
  timersTracked s'.
Proof.
  intros (Hbij & Hrange & Hdom & Hnext). unfold tracking, timersTracked.
  intros [= -> -> -> ->].
  split; [|split; [|split; [|exact Hnext]]].
  - intros i t.
    destruct (decide (i = requestId)) as [->|Hi].
    + rewrite lookup_delete_eq. split; [discriminate|].
      intros Ht. exfalso.
      destruct (remoteListTimeoutsRef s !! requestId) as [t0|] eqn:Ht0.
      * destruct (decide (t = t0)) as [->|Hne].
        -- rewrite lookup_delete_eq in Ht. discriminate.
        -- rewrite lookup_delete_ne in Ht by congruence.
           apply Hbij in Ht. congruence.
      * apply Hbij in Ht. congruence.
    + rewrite lookup_delete_ne by congruence. rewrite Hbij.
      destruct (remoteListTimeoutsRef s !! requestId) as [t0|] eqn:Ht0;
        [|reflexivity].
      destruct (decide (t = t0)) as [->|Hne].
      * rewrite lookup_delete_eq. apply Hbij in Ht0. rewrite Ht0.
        split; [intros [= ?]; congruence|discriminate].
      * rewrite lookup_delete_ne by congruence. reflexivity.
  - intros t armed Ht. apply Hrange.
    destruct (remoteListTimeoutsRef s !! requestId) as [t0|]; [|exact Ht].
    destruct (decide (t = t0)) as [->|Hne].
    + rewrite lookup_delete_eq in Ht. discriminate.
    + rewrite lookup_delete_ne in Ht by congruence. exact Ht.
  - intros i. destruct (decide (i = requestId)) as [->|Hi].
    + rewrite !lookup_delete_eq. tauto.
    + rewrite !lookup_delete_ne by congruence. apply Hdom.
Qed.

Lemma forgetRequest_tracked s requestId :
  timersTracked s -> timersTracked (forgetRequest requestId s).
Proof.
  intros Hs. apply (retire_tracked s _ requestId Hs).
  rewrite forgetRequest_tracking.
  destruct (remoteListTimeoutsRef s !! requestId) as [t|] eqn:Ht; [|reflexivity].
  destruct (Z.eqb_spec t 0) as [->|_]; [|reflexivity].
  exfalso. destruct Hs as (Hbij & Hrange & _).
  apply Hbij in Ht. apply Hrange in Ht. lia.
Qed.

Lemma failTrackedRequest_tracking s requestId text :
  tracking (failTrackedRequest s requestId text) =
  tracking (forgetRequest requestId s).
Proof.
  unfold failTrackedRequest.
  destruct (lookupRequestPath s requestId) as [p|]; [|reflexivity].
  destruct (truthy p); reflexivity.
Qed.

Lemma roots_update_tracking (requestPath listPath : option string)
    entries s :
  tracking
    (match requestPath, listPath with
     | None, Some "/"%string =>
         setRemoteTreeExpanded ({["/"%string]} ∪ remoteTreeExpanded s)
           (setRemoteTreeRoots ["/"%string] s)
     | None, None => setRemoteTreeRoots (List.map entryPath entries) s
     | _, _ => s
     end) = tracking s.
Proof.
  destruct requestPath; [reflexivity|].
  destruct listPath as [[|[[] [] [] [] [] [] [] []] [|]]|]; reflexivity.
Qed.

(** What [handleListComplete] does to the bookkeeping: it retires the
    answered request when the response passes the latest-id guard and
    carries data and an id, and changes nothing otherwise. *)
Lemma handleListComplete_tracking s payload :
  tracking (handleListComplete s payload) =
  if truthyOpt (id payload) && truthyOpt (remoteListRequestIdRef s) &&
     negb (sameString (id payload) (remoteListRequestIdRef s))
  then tracking s
  else
    match data payload, id payload with
    | Some _, Some i => if truthy i then tracking (forgetRequest i s)
                        else tracking s
    | _, _ => tracking s
    end.
Proof.
  unfold handleListComplete.
  destruct (truthyOpt (id payload) && truthyOpt (remoteListRequestIdRef s) &&
            negb (sameString (id payload) (remoteListRequestIdRef s)));
    [reflexivity|].
  destruct (data payload) as [d|].
  - set (s1 := if truthyOpt (os d) then setRemoteOs (os d) s else s).
    assert (H1 : tracking s1 = tracking s)
      by (unfold s1; destruct (truthyOpt (os d)); reflexivity).
    assert (Hl : forall i, lookupRequestPath s1 i = lookupRequestPath s i)
      by (intros i; unfold s1; destruct (truthyOpt (os d)); reflexivity).
    set (requestPath := match id payload with
                        | Some i => if truthy i then lookupRequestPath s1 i else None
                        | None => None
                        end).
    set (listPath := match
                       (if sameString (os d) (Some "windows"%string) &&
                           sameString (listedPath d) (Some "/"%string)
                        then None else listedPath d)
                     with
                     | Some p => Some p
                     | None => requestPath
                     end).
    set (s3 := match id payload with
               | Some i => if truthy i
                           then forgetRequest i (setRemoteFocusPath listPath s1)
                           else setRemoteFocusPath listPath s1
               | None => setRemoteFocusPath listPath s1
               end).
    assert (H3 : tracking s3 =
                 match id payload with
                 | Some i => if truthy i then tracking (forgetRequest i s)
                             else tracking s
                 | None => tracking s
                 end).
    { unfold s3. destruct (id payload) as [i|]; [|exact H1].
      destruct (truthy i); [|exact H1].
      rewrite !forgetRequest_tracking.
      change (remoteListTimeoutsRef (setRemoteFocusPath listPath s1))
        with (remoteListTimeoutsRef s1).
      change (remoteListRequestMapRef (setRemoteFocusPath listPath s1))
        with (remoteListRequestMapRef s1).
      change (timers (setRemoteFocusPath listPath s1)) with (timers s1).
      change (nextTimerId (setRemoteFocusPath listPath s1)) with (nextTimerId s1).
      unfold tracking in H1. injection H1 as -> -> -> ->. reflexivity. }
    cbv zeta.
    fold s1. fold requestPath. fold listPath. fold s3.
    set (s4 := setRemoteTree
                 (applyListing (match entries d with Some l => l | None => [] end)
                    listPath (remoteTree s3)) s3).
    assert (H4 : tracking s4 = tracking s3) by reflexivity.
    pose proof (roots_update_tracking requestPath listPath
                  (match entries d with Some l => l | None => [] end) s4) as H5.
    rewrite <- H3, <- H4, <- H5.
    destruct requestPath; reflexivity.
  - reflexivity.
Qed.

Lemma handleRemoteEvent_tracking s payload :
  tracking (handleRemoteEvent s payload) = tracking s \/
  exists i, tracking (handleRemoteEvent s payload) = tracking (forgetRequest i s).
Proof.
  unfold handleRemoteEvent.
  destruct (remoteSyncEnabled s); cbn [negb]; [|now left].
  destruct (String.eqb (event payload) "list-complete").
  { rewrite handleListComplete_tracking.
    destruct (truthyOpt (id payload) && truthyOpt (remoteListRequestIdRef s) &&
              negb (sameString (id payload) (remoteListRequestIdRef s)));
      [now left|].
    destruct (data payload); [|now left].
    destruct (id payload) as [i|]; [|now left].
    destruct (truthy i); [right; eauto|now left]. }
  destruct (String.eqb (event payload) "list-error").
  { unfold handleListError.
    destruct (truthyOpt (id payload)); [|now left].
    destruct (id payload) as [i|]; [|now left].
    right. exists i. apply failTrackedRequest_tracking. }
  destruct (String.eqb (event payload) "error"); [|now left].
  unfold handleErrorEvent.
  destruct (id payload) as [i|]; [|now left].
  destruct (truthy i); [|now left].
  right. exists i.
  change (tracking (failTrackedRequest s i (messageOr (message payload) "Remote error"))
          = tracking (forgetRequest i s)).
  apply failTrackedRequest_tracking.
Qed.

Lemma timerExpires_tracked s timeoutId :
  timersTracked s -> timersTracked (timerExpires s timeoutId).
Proof.
  intros Hs. unfold timerExpires.
  destruct (timers s !! timeoutId) as [[i d]|] eqn:Ht; [|exact Hs].
  pose proof Hs as (Hbij & Hrange & _).
  assert (Hd : d = LIST_TIMEOUT_MS) by (apply Hrange in Ht; apply Ht).
  subst d. pose proof Ht as Hi. apply Hbij in Hi.
  apply (retire_tracked s _ i Hs). rewrite Hi.
  unfold listTimeoutCallback.
  destruct (negb (truthyOpt (lookupRequestPath (clearTimeout timeoutId s) i)));
    [reflexivity|].
  destruct (lookupRequestPath (clearTimeout timeoutId s) i); reflexivity.
Qed.

Lemma requestRemoteListing_tracking s requestId path :
  remoteSyncEnabled s = true -> isRemoteConnected s = true ->
  tracking (requestRemoteListing s requestId path) =
  (<[requestId := path]> (remoteListRequestMapRef s),
   <[requestId := nextTimerId s]> (delete requestId (remoteListTimeoutsRef s)),
   <[nextTimerId s := (requestId, LIST_TIMEOUT_MS)]>
     (match remoteListTimeoutsRef s !! requestId with
      | Some previous => if previous =? 0 then timers s
                         else delete previous (timers s)
      | None => timers s
      end),
   nextTimerId s + 1).
Proof.
  intros He Hc. unfold requestRemoteListing. rewrite He, Hc. cbn [negb].
  cbv zeta.
  change (remoteListTimeoutsRef
            (setRequestMap (<[requestId := path]>
               (remoteListRequestMapRef (setRequestIdRef (Some requestId) s)))
               (setRequestIdRef (Some requestId) s)) !! requestId)
    with (remoteListTimeoutsRef s !! requestId).
  destruct (remoteListTimeoutsRef s !! requestId) as [previous|] eqn:Hp.
  - destruct (previous =? 0); destruct (negb (truthyOpt path));
      destruct path as [p|]; try destruct (truthy p);
      unfold tracking; cbn; reflexivity.
  - rewrite (delete_id (remoteListTimeoutsRef s) requestId Hp).
    destruct (negb (truthyOpt path));
      destruct path as [p|]; try destruct (truthy p);
      unfold tracking; cbn; reflexivity.
Qed.

Lemma requestRemoteListing_tracked s requestId path :
  timersTracked s -> timersTracked (requestRemoteListing s requestId path).
Proof.
  intros Hs.
  destruct (remoteSyncEnabled s) eqn:He;
    [|unfold requestRemoteListing; rewrite He; exact Hs].
  destruct (isRemoteConnected s) eqn:Hc;
    [|unfold requestRemoteListing; rewrite He, Hc; exact Hs].
  pose proof (requestRemoteListing_tracking s requestId path He Hc) as Ht.
  pose proof Hs as (Hbij & Hrange & Hdom & Hnext).
  set (timers1 := match remoteListTimeoutsRef s !! requestId with
                  | Some previous => if previous =? 0 then timers s
                                     else delete previous (timers s)
                  | None => timers s
                  end) in Ht.
  assert (H1 : forall t armed, timers1 !! t = Some armed ->
                 timers s !! t = Some armed /\ fst armed <> requestId).
  { intros t armed Hl. unfold timers1 in Hl.
    destruct (remoteListTimeoutsRef s !! requestId) as [previous|] eqn:Hp.
    - assert (Hprev : timers s !! previous = Some (requestId, LIST_TIMEOUT_MS))
        by (apply Hbij; exact Hp).
      destruct (Z.eqb_spec previous 0) as [->|_];
        [apply Hrange in Hprev; lia|].
      destruct (decide (t = previous)) as [->|Hne].
      + rewrite lookup_delete_eq in Hl. discriminate.
      + rewrite lookup_delete_ne in Hl by congruence.
        split; [exact Hl|]. intros Hf.
        destruct armed as [i d]. simpl in Hf. subst i.
        pose proof (Hrange _ _ Hl) as [_ Hd]. simpl in Hd. subst d.
        apply Hbij in Hl. congruence.
    - split; [exact Hl|]. intros Hf.
      destruct armed as [i d]. simpl in Hf. subst i.
      pose proof (Hrange _ _ Hl) as [_ Hd]. simpl in Hd. subst d.
      apply Hbij in Hl. congruence. }
  assert (H2 : forall t i d, i <> requestId -> timers s !! t = Some (i, d) ->
                 timers1 !! t = Some (i, d)).
  { intros t i d Hi Hl. unfold timers1.
    destruct (remoteListTimeoutsRef s !! requestId) as [previous|] eqn:Hp;
      [|exact Hl].
    destruct (previous =? 0); [exact Hl|].
    assert (Hprev : timers s !! previous = Some (requestId, LIST_TIMEOUT_MS))
      by (apply Hbij; exact Hp).
    destruct (decide (t = previous)) as [->|Hne]; [congruence|].
    rewrite lookup_delete_ne by congruence. exact Hl. }
  revert Ht. generalize (requestRemoteListing s requestId path). intros s' Ht.
  unfold tracking in Ht. unfold timersTracked.
  injection Ht as -> -> -> ->.
  split; [|split; [|split; [|lia]]].
  - intros i t. destruct (decide (i = requestId)) as [->|Hi].
    + rewrite lookup_insert_eq.
      destruct (decide (t = nextTimerId s)) as [->|Hne].
      * rewrite lookup_insert_eq. tauto.
      * rewrite lookup_insert_ne by congruence.
        split; [intros [= ?]; congruence|].
        intros Hl. apply H1 in Hl as [_ Hl]. simpl in Hl. congruence.
    + rewrite lookup_insert_ne by congruence.
      rewrite lookup_delete_ne by congruence.
      destruct (decide (t = nextTimerId s)) as [->|Hne].
      * rewrite lookup_insert_eq. split.
        -- intros Hl. apply Hbij, Hrange in Hl. lia.
        -- intros [= ?]. congruence.
      * rewrite lookup_insert_ne by congruence. rewrite Hbij. split.
        -- apply H2. exact Hi.
        -- intros Hl. apply H1 in Hl. apply Hl.
  - intros t armed. destruct (decide (t = nextTimerId s)) as [->|Hne].
    + rewrite lookup_insert_eq. intros [= <-]. simpl. split; [lia|reflexivity].
    + rewrite lookup_insert_ne by congruence. intros Hl.
      apply H1 in Hl as [Hl _]. apply Hrange in Hl. lia.
  - intros i. destruct (decide (i = requestId)) as [->|Hi].
    + rewrite !lookup_insert_eq. split; discriminate.
    + rewrite !lookup_insert_ne by congruence.
      rewrite lookup_delete_ne by congruence. apply Hdom.
Qed.

(** X16. The watchdog bookkeeping is kept by every operation on the
    remote listing: issuing a request, handling an event of the channel,
    a timer expiring and a rejected send all leave each tracked request
    with exactly one armed timer of the list delay and each armed timer
    with its tracked request; the initial state has the property too. *)
Theorem watchdog_bookkeeping_kept s :
  timersTracked s ->
  (forall requestId path, timersTracked (requestRemoteListing s requestId path)) /\
  (forall payload, timersTracked (handleRemoteEvent s payload)) /\
  (forall timeoutId, timersTracked (timerExpires s timeoutId)) /\
  (forall isTopLevelRequest text,
     timersTracked (listRequestRejected s isTopLevelRequest text)).
Proof.
  intros Hs. repeat apply conj.
  - intros requestId path. apply requestRemoteListing_tracked. exact Hs.
  - intros payload.
    destruct (handleRemoteEvent_tracking s payload) as [H|[i H]].
    + exact (timersTracked_ext _ _ H Hs).
    + exact (timersTracked_ext _ _ H (forgetRequest_tracked s i Hs)).
  - intros timeoutId. apply timerExpires_tracked. exact Hs.
  - intros [] text; exact Hs.
Qed.

Lemma initialState_tracked syncEnabled connected :
  timersTracked (initialState syncEnabled connected).
Proof.
  unfold timersTracked. cbn. repeat apply conj.
  - intros i t. rewrite !lookup_empty. split; discriminate.
  - intros t armed. rewrite lookup_empty. discriminate.
  - intros i. rewrite !lookup_empty. tauto.
  - lia.
Qed.

Lemma watchdog_bookkeeping_kept_witness :
  timersTracked twoInFlight.
Proof.
  destruct (watchdog_bookkeeping_kept
              (requestRemoteListing (initialState true true) "req-1" (Some "/a"%string)))
    as (H & _).
  - destruct (watchdog_bookkeeping_kept (initialState true true)) as (H & _).
    + unfold timersTracked. cbn. repeat apply conj.
      * intros i t. rewrite !lookup_empty. split; discriminate.
      * intros t armed. rewrite lookup_empty. discriminate.
      * intros i. rewrite !lookup_empty. tauto.
      * lia.
    + apply H.
  - apply H.
Defined.

End WatchdogFacts.

Section WatchdogDisarmed.
Import Js RemoteList Watchdog.

(** X17. A [list-complete] response that arrives in time for the latest
    request disarms its watchdog: the timer is no longer armed, the
    request is no longer tracked, and the timer firing afterwards would
    change nothing. *)
Theorem response_disarms_watchdog s payload requestId listed timeoutId :
  timersTracked s ->
  remoteSyncEnabled s = true ->
  event payload = "list-complete"%string ->
  id payload = Some requestId -> requestId <> EmptyString ->
  remoteListRequestIdRef s = Some requestId ->
  data payload = Some listed ->
  remoteListTimeoutsRef s !! requestId = Some timeoutId ->
  let s' := handleRemoteEvent s payload in
  timers s' !! timeoutId = None /\
  remoteListTimeoutsRef s' !! requestId = None /\
  remoteListRequestMapRef s' !! requestId = None /\
  timerExpires s' timeoutId = s'.
Proof.
  intros Hs He Hev Hid Hne Hlatest Hdata Ht s'.
  assert (Htr : tracking s' = tracking (forgetRequest requestId s)).
  { unfold s', handleRemoteEvent. rewrite He, Hev. cbn [negb].
    rewrite String.eqb_refl, handleListComplete_tracking.
    rewrite Hid, Hlatest, Hdata. cbn [truthyOpt sameString].
    rewrite String.eqb_refl.
    apply truthy_true in Hne. rewrite Hne. reflexivity. }
  rewrite forgetRequest_tracking, Ht in Htr.
  assert (H0 : (timeoutId =? 0) = false).
  { destruct Hs as (Hbij & Hrange & _). apply Hbij, Hrange in Ht. lia. }
  rewrite H0 in Htr. unfold tracking in Htr.
  injection Htr as Hmap Htimeouts Htimers _.
  assert (Hgone : timers s' !! timeoutId = None)
    by (rewrite Htimers; apply lookup_delete_eq).
  repeat apply conj.
  - exact Hgone.
  - rewrite Htimeouts. apply lookup_delete_eq.
  - rewrite Hmap. apply lookup_delete_eq.
  - unfold timerExpires. rewrite Hgone. reflexivity.
Qed.

Lemma response_disarms_watchdog_witness :
  timerExpires (handleRemoteEvent topLevelPending lateRootResponse) 1 =
  handleRemoteEvent topLevelPending lateRootResponse.
Proof.
  destruct (response_disarms_watchdog topLevelPending lateRootResponse
              "req-1"%string (listing "/" [("/home"%string, "home"%string)]) 1)
    as (_ & _ & _ & H).
  - apply requestRemoteListing_tracked, initialState_tracked.
  - reflexivity.
  - reflexivity.
  - reflexivity.
  - discriminate.
  - reflexivity.
  - reflexivity.
  - vm_compute. reflexivity.
  - exact H.
Defined.

End WatchdogDisarmed.

(** ** Adding a server *)

Section AddServerFacts.
Import Js RemotePanel.
Context {jsHost : Host}.

Lemma parsePort_range value port :
  parsePort value = Some port -> 1 <= port <= 65535.
Proof.
  unfold parsePort. destruct (toNumber value) as [parsed|]; [|discriminate].
  destruct (Qlt_le_dec parsed 1) as [|Hlo]; [discriminate|].
  destruct (Qlt_le_dec 65535 parsed) as [|Hhi]; [discriminate|].
  intros [= <-]. unfold mathFloor. split.
  - change 1 with (Qfloor 1). apply Qfloor_resp_le. exact Hlo.
  - change 65535 with (Qfloor 65535). apply Qfloor_resp_le. exact Hhi.
Qed.

(** X18. [handleAddServer] either rejects the input, leaving the server
    list as it was and showing an error, or saves a server that is fit
    to connect to: its id is the fresh one, its host and token are the
    trimmed, non-blank inputs, its port is a whole number between 1 and
    65535, its name is not empty (the host stands in for a blank name),
    and it starts out disconnected; the form is reset and the new server
    becomes the active one. *)
Theorem handleAddServer_saves_valid_server s newId :
  let s' := handleAddServer s newId in
  (remoteServers s' = remoteServers s /\
   (error s' = Some "Provide a valid host and port."%string /\
      (parsePort (portInput s) = None \/ trim (hostInput s) = EmptyString) \/
    error s' = Some "Token is required for authentication."%string /\
      trim (tokenInput s) = EmptyString)) \/
  (exists server,
     remoteServers s' = addRemoteServer (remoteServers s) server /\
     id server = newId /\
     host server = trim (hostInput s) /\ host server <> EmptyString /\
     token server = trim (tokenInput s) /\ token server <> EmptyString /\
     parsePort (portInput s) = Some (port server) /\
     1 <= port server <= 65535 /\
     name server <> EmptyString /\
     status server = StatusDisconnected /\
     activeRemoteServerId s' = Some newId /\ error s' = None /\
     (nameInput s', hostInput s', portInput s', tokenInput s') =
       (EmptyString, EmptyString, "4799"%string, EmptyString)).
Proof.
  intros s'. unfold s', handleAddServer, getServerInput.
  destruct (parsePort (portInput s)) as [p|] eqn:Hp.
  - destruct (truthy (trim (hostInput s))) eqn:Hh; cbn [negb].
    + destruct (truthy (trim (tokenInput s))) eqn:Ht; cbn [negb].
      * right. eexists. split; [reflexivity|]. cbn.
        apply truthy_true in Hh, Ht.
        repeat apply conj; try reflexivity; try assumption;
          try (apply (parsePort_range _ _ Hp)).
        destruct (truthy (trim (nameInput s))) eqn:Hn;
          [apply truthy_true; exact Hn|exact Hh].
      * left. split; [reflexivity|]. right. split; [reflexivity|].
        destruct (trim (tokenInput s)); [reflexivity|discriminate].
    + left. split; [reflexivity|]. left. split; [reflexivity|]. right.
      destruct (trim (hostInput s)); [reflexivity|discriminate].
  - left. split; [reflexivity|]. left. split; [reflexivity|]. now left.
Qed.

End AddServerFacts.

(** ** The rows of the explorer *)

Section ExplorerFacts.
Import ScanView Explorer.

Lemma preorderRows_unfold expanded showFiles hideEmptyFolders current depth isRoot :
  preorderRows expanded showFiles hideEmptyFolders current depth isRoot =
  if hideEmptyFolders && negb isRoot && isEmptyFolder current then []
  else
    folderRow current depth showFiles ::
    (if bool_decide (treePath current ∈ expanded) then
       List.map (fileRow current depth)
         (List.rev (if showFiles then sortFilesBySize (treeFiles current) else [])) ++
       List.flat_map
         (fun child =>
            preorderRows expanded showFiles hideEmptyFolders child (depth + 1) false)
         (treeChildren current)
     else []).
Proof. destruct current; reflexivity. Qed.

Lemma flat_map_of_map {A B C} (f : B -> list C) (g : A -> B) l :
  List.flat_map f (List.map g l) = List.flat_map (fun x => f (g x)) l.
Proof.
  induction l as [|a l IH]; [reflexivity|]. simpl. now rewrite IH.
Qed.

Lemma buildTreeItems_loop_preorder expanded showFiles hideEmptyFolders fuel :
  forall stack result,
    (list_sum (List.map (fun e => treeNodeCount (entryNode e)) stack) <= fuel)%nat ->
    buildTreeItems_loop fuel stack expanded showFiles hideEmptyFolders result =
    Some (result ++
          List.flat_map
            (fun e => preorderRows expanded showFiles hideEmptyFolders
                        (entryNode e) (entryDepth e) (isRoot e))
            stack).
Proof.
  induction fuel as [|fuel IH]; intros stack result Hfuel.
  - destruct stack as [|e stack].
    + simpl. now rewrite app_nil_r.
    + simpl in Hfuel. rewrite treeNodeCount_children in Hfuel. lia.
  - destruct stack as [|e stack].
    + simpl. now rewrite app_nil_r.
    + cbn [buildTreeItems_loop List.flat_map].
      rewrite preorderRows_unfold.
      simpl in Hfuel.
      rewrite treeNodeCount_children in Hfuel.
      destruct (hideEmptyFolders && negb (isRoot e) && isEmptyFolder (entryNode e)).
      * rewrite IH by lia. reflexivity.
      * destruct (bool_decide (treePath (entryNode e) ∈ expanded)); cbn [negb].
        -- rewrite IH.
           ++ rewrite List.flat_map_app, flat_map_of_map, <- !app_assoc.
              cbn [app entryNode entryDepth isRoot].
              rewrite <- !app_assoc. reflexivity.
           ++ rewrite List.map_app, list_sum_app, List.map_map.
              change (List.map _ (treeChildren (entryNode e)))
                with (List.map treeNodeCount (treeChildren (entryNode e))).
              lia.
        -- rewrite IH by lia. rewrite <- app_assoc. reflexivity.
Qed.

(** X19. [buildTreeItems] terminates and lists the rows in pre-order:
    its stack loop returns what the recursion over the tree gives, a
    folder's row first, then (when the folder is expanded) its files from
    the smallest to the largest, then its child folders in order with
    their rows; empty folders are left out on request, but never the
    root, whose row always comes first. *)
Theorem buildTreeItems_preorder root expanded showFiles hideEmptyFolders :
  buildTreeItems root expanded showFiles hideEmptyFolders =
    Some (preorderRows expanded showFiles hideEmptyFolders root 0 true) /\
  exists rows,
    preorderRows expanded showFiles hideEmptyFolders root 0 true =
      folderRow root 0 showFiles :: rows /\
    (treePath root ∉ expanded -> rows = []).
Proof.
  split.
  - unfold buildTreeItems. rewrite buildTreeItems_loop_preorder.
    + simpl. now rewrite app_nil_r.
    + simpl. lia.
  - rewrite preorderRows_unfold. rewrite andb_false_r. cbn [andb].
    eexists. split; [reflexivity|].
    intros Hno. case_bool_decide; [contradiction|reflexivity].
Qed.

End ExplorerFacts.

Section NodeMapFacts.
Import ScanView Explorer.

Lemma FolderIn_inv node t :
  FolderIn node t ->
  node = t \/ exists child, In child (treeChildren t) /\ FolderIn node child.
Proof.
  intros H. inversion H; subst; [now left|right; eauto].
Qed.

Lemma buildNodeMap_loop_spec fuel :
  forall stack map,
    (list_sum (List.map treeNodeCount stack) <= fuel)%nat ->
    exists result,
      buildNodeMap_loop fuel stack map = Some result /\
      (forall p node, result !! p = Some node ->
         map !! p = Some node \/
         (treePath node = p /\ exists t, In t stack /\ FolderIn node t)) /\
      (forall t node, In t stack -> FolderIn node t ->
         is_Some (result !! treePath node)) /\
      (forall p, is_Some (map !! p) -> is_Some (result !! p)).
Proof.
  induction fuel as [|fuel IH]; intros stack map Hfuel.
  - destruct stack as [|t stack].
    + exists map. split; [reflexivity|]. split; [auto|]. split; [|auto].
      intros t node [].
    + simpl in Hfuel. rewrite treeNodeCount_children in Hfuel. lia.
  - destruct stack as [|cur stack].
    + exists map. split; [reflexivity|]. split; [auto|]. split; [|auto].
      intros t node [].
    + cbn [buildNodeMap_loop].
      destruct (IH (List.rev (treeChildren cur) ++ stack)
                  (<[treePath cur := cur]> map))
        as (result & Hres & Hfrom & Hall & Hmono).
      { rewrite List.map_app, list_sum_app, List.map_rev, list_sum_rev.
        simpl in Hfuel. rewrite treeNodeCount_children in Hfuel. lia. }
      exists result. split; [exact Hres|]. split; [|split].
      * intros p node Hp. destruct (Hfrom p node Hp) as [Hm|(Hpath & t & Ht & Hin)].
        -- destruct (decide (p = treePath cur)) as [->|Hne].
           ++ rewrite lookup_insert_eq in Hm. injection Hm as <-.
              right. split; [reflexivity|]. exists cur.
              split; [now left|apply FolderIn_here].
           ++ rewrite lookup_insert_ne in Hm by congruence. now left.
        -- right. split; [exact Hpath|].
           apply in_app_or in Ht as [Ht|Ht].
           ++ exists cur. split; [now left|].
              eapply FolderIn_below; [|exact Hin]. now apply in_rev.
           ++ exists t. split; [now right|exact Hin].
      * intros t node [<-|Ht] Hin.
        -- apply FolderIn_inv in Hin as [->|(child & Hc & Hin)].
           ++ apply Hmono. rewrite lookup_insert_eq. eauto.
           ++ apply (Hall child node); [|exact Hin].
              apply in_or_app. left. now apply in_rev in Hc.
        -- apply (Hall t node); [|exact Hin]. apply in_or_app. now right.
      * intros p Hp. apply Hmono.
        destruct (decide (p = treePath cur)) as [->|Hne].
        -- rewrite lookup_insert_eq. eauto.
        -- rewrite lookup_insert_ne by congruence. exact Hp.
Qed.

(** X20. [buildNodeMap] terminates with a map whose keys are exactly the
    paths of the folders of the tree, each key mapped to a folder of the
    tree that has this path. *)
Theorem buildNodeMap_indexes_folders root :
  exists map,
    buildNodeMap root = Some map /\
    (forall p node, map !! p = Some node ->
       FolderIn node root /\ treePath node = p) /\
    (forall node, FolderIn node root -> is_Some (map !! treePath node)).
Proof.
  unfold buildNodeMap.
  destruct (buildNodeMap_loop_spec (treeNodeCount root) [root] ∅)
    as (map & Hres & Hfrom & Hall & _).
  { simpl. lia. }
  exists map. split; [exact Hres|]. split.
  - intros p node Hp.
    destruct (Hfrom p node Hp) as [Hm|(Hpath & t & [<-|[]] & Hin)].
    + rewrite lookup_empty in Hm. discriminate.
    + split; assumption.
  - intros node Hin. apply (Hall root node); [now left|exact Hin].
Qed.

End NodeMapFacts.

(** ** Navigating the selection history *)

Section NavigationFacts.
Import ScanView.

Lemma sameString_eq a b : RemoteList.sameString a b = true -> a = b.
Proof.
  destruct a as [x|], b as [y|]; simpl; try discriminate; [|reflexivity].
  intros H. apply String.eqb_eq in H. now subst.
Qed.

Lemma isSameSelection_eq a b : isSameSelection (Some a) b = true -> a = b.
Proof.
  unfold isSameSelection. intros H.
  apply andb_true_iff in H as [H Hp]. apply andb_true_iff in H as [Hk Hs].
  apply sameString_eq in Hp. apply String.eqb_eq in Hs.
  destruct a as [ka pa qa], b as [kb pb qb]. simpl in *. subst.
  destruct ka, kb; try discriminate; reflexivity.
Qed.

Lemma adjacent_split {A} (front : list A) a b rest head entry :
  front ++ a :: b :: rest = head ++ [entry] ->
  (rest = [] /\ b = entry /\ head = front ++ [a]) \/
  (exists rest', rest = rest' ++ [entry] /\ head = front ++ a :: b :: rest').
Proof.
  intros H. induction rest as [|x rest' _] using rev_ind.
  - left.
    change (front ++ a :: [b]) with (front ++ [a] ++ [b]) in H.
    rewrite app_assoc in H. apply app_inj_tail in H as [H1 H2]. auto.
  - right. exists rest'.
    change (front ++ a :: b :: rest' ++ [x])
      with (front ++ (a :: b :: rest') ++ [x]) in H.
    rewrite app_assoc in H. apply app_inj_tail in H as [H1 ->]. auto.
Qed.

(** What [createNextSelectionHistory] returns for a history in which no
    entry repeats the one before it. *)
Lemma createNextSelectionHistory_next items currentIndex entry limit :
  1 <= limit ->
  (forall front a b rest,
     items = front ++ a :: b :: rest -> isSameSelection (Some a) b = false) ->
  let '(history, index) :=
    createNextSelectionHistory items currentIndex entry limit in
  index = Z.of_nat (length history) - 1 /\
  (exists kept, history = kept ++ [entry]) /\
  Z.of_nat (length history) <= Z.max limit (Z.of_nat (length items)) /\
  (forall front a b rest,
     history = front ++ a :: b :: rest -> isSameSelection (Some a) b = false).
Proof.
  intros Hlimit Hadj. unfold createNextSelectionHistory.
  set (safeIndex := Z.min (Z.max currentIndex (-1)) (Z.of_nat (length items) - 1)).
  set (m := Z.to_nat (safeIndex + 1)).
  assert (Hmlen : (m <= length items)%nat) by (unfold m, safeIndex; lia).
  set (head := firstn m items).
  assert (Hhead : length head = m) by (unfold head; rewrite length_firstn; lia).
  assert (Hitems : items = head ++ skipn m items)
    by (unfold head; symmetry; apply firstn_skipn).
  assert (Hadjhead : forall front a b rest,
            head = front ++ a :: b :: rest -> isSameSelection (Some a) b = false).
  { intros front a b rest Hh. apply (Hadj front a b (rest ++ skipn m items)).
    rewrite Hitems at 1. rewrite Hh, <- app_assoc. reflexivity. }
  destruct (isSameSelection (List.last (List.map Some head) None) entry) eqn:Hsame.
  - destruct (List.last (List.map Some head) None) as [current|] eqn:Hlast;
      [|discriminate].
    destruct (last_Some_split _ _ Hlast) as [front Hfront].
    apply isSameSelection_eq in Hsame. subst current.
    split; [reflexivity|]. split; [eauto|]. split; [lia|exact Hadjhead].
  - set (next := head ++ [entry]).
    assert (Hnext : length next = S m)
      by (unfold next; rewrite length_app; simpl; lia).
    assert (Hadjnext : forall front a b rest,
              next = front ++ a :: b :: rest -> isSameSelection (Some a) b = false).
    { intros front a b rest Hn. symmetry in Hn. unfold next in Hn.
      apply adjacent_split in Hn as [(-> & -> & Hh)|(rest' & -> & Hh)].
      - rewrite Hh in Hsame.
        rewrite List.map_app in Hsame. cbn [List.map] in Hsame.
        rewrite List.last_last in Hsame. exact Hsame.
      - eapply Hadjhead. exact Hh. }
    destruct (Z.ltb_spec limit (Z.of_nat (length next))) as [Hover|Hfits].
    + set (d := Z.to_nat (Z.of_nat (length next) - limit)).
      assert (Hd : (d <= m)%nat) by (unfold d; lia).
      assert (Hskip : skipn d next = skipn d head ++ [entry]).
      { unfold next. rewrite skipn_app.
        replace (d - length head)%nat with 0%nat by lia. reflexivity. }
      split; [reflexivity|]. split; [rewrite Hskip; eauto|].
      split; [rewrite length_skipn; lia|].
      intros front a b rest Hs. apply (Hadjnext (firstn d next ++ front) a b rest).
      rewrite <- app_assoc, <- Hs. symmetry. apply firstn_skipn.
    + split; [reflexivity|]. split; [unfold next; eauto|].
      split; [lia|exact Hadjnext].
Qed.

Lemma nth_error_last {A} (kept : list A) entry :
  nth_error (kept ++ [entry]) (Z.to_nat (Z.of_nat (length (kept ++ [entry])) - 1)) =
  Some entry.
Proof.
  rewrite length_app. simpl length.
  replace (Z.to_nat (Z.of_nat (length kept + 1) - 1)) with (length kept) by lia.
  rewrite nth_error_app2 by lia. now rewrite Nat.sub_diag.
Qed.

Lemma addSelectionHistory_consistent entry s :
  Z.of_nat (length (selectionHistory s)) <= MAX_SELECTION_HISTORY ->
  (forall front a b rest,
     selectionHistory s = front ++ a :: b :: rest ->
     isSameSelection (Some a) b = false) ->
  (selectedPath s, selectedFilePath s) = shownFor entry ->
  selectionConsistent (addSelectionHistory entry s).
Proof.
  intros Hlen Hadj Hsel.
  unfold addSelectionHistory.
  pose proof (createNextSelectionHistory_next (selectionHistory s)
                (historyIndexRef s) entry MAX_SELECTION_HISTORY
                ltac:(unfold MAX_SELECTION_HISTORY; lia) Hadj) as Hnext.
  destruct (createNextSelectionHistory (selectionHistory s) (historyIndexRef s)
              entry MAX_SELECTION_HISTORY) as [history index].
  destruct Hnext as (Hindex & (kept & Hkept) & Hlen' & Hadj').
  unfold selectionConsistent. cbn.
  assert (Hpos : 0 < Z.of_nat (length history)).
  { rewrite Hkept, length_app. simpl. lia. }
  repeat apply conj.
  - reflexivity.
  - right. lia.
  - lia.
  - exact Hadj'.
  - intros e _ He. rewrite Hindex, Hkept, nth_error_last in He.
    injection He as <-. exact Hsel.
Qed.

Lemma navigateToHistoryIndex_consistent nextIndex s :
  selectionConsistent s -> selectionConsistent (navigateToHistoryIndex nextIndex s).
Proof.
  intros Hs. unfold navigateToHistoryIndex.
  destruct (Z.ltb_spec nextIndex 0) as [|Hlo]; [exact Hs|].
  destruct (Z.leb_spec (Z.of_nat (length (selectionHistory s))) nextIndex)
    as [|Hhi]; [exact Hs|]. cbn [orb].
  destruct (nth_error (selectionHistory s) (Z.to_nat nextIndex)) as [entry|] eqn:He;
    [|exact Hs].
  destruct Hs as (Href & Hidx & Hlen & Hadj & Hshown).
  unfold selectionConsistent, applySelectionFromHistory, shownFor.
  destruct (kind entry) eqn:Hk; cbn; repeat apply conj;
    try reflexivity; try (right; lia); try assumption;
    intros e _ He'; rewrite He in He'; injection He' as <-;
    rewrite Hk; reflexivity.
Qed.

(** X21. The selection history and the selection shown stay in step
    under selecting a folder or a file and under going back, forward or
    to any position: the state index and the ref agree, the index is a
    position of the history, the history holds at most 50 entries and
    never the same entry twice in a row, and the folder and file shown
    are those of the entry at the index. *)
Theorem selection_stays_consistent s :
  selectionConsistent s ->
  (forall folderPath, selectionConsistent (selectFolder folderPath s)) /\
  (forall filePath folderPath,
     selectionConsistent (selectFile filePath folderPath s)) /\
  selectionConsistent (goBack s) /\
  selectionConsistent (goForward s) /\
  (forall nextIndex, selectionConsistent (navigateToHistoryIndex nextIndex s)).
Proof.
  intros Hs. pose proof Hs as (Href & Hidx & Hlen & Hadj & Hshown).
  split; [|split; [|split; [|split]]].
  - intros folderPath. unfold selectFolder.
    apply addSelectionHistory_consistent; [exact Hlen|exact Hadj|reflexivity].
  - intros filePath folderPath. unfold selectFile.
    apply addSelectionHistory_consistent; [exact Hlen|exact Hadj|reflexivity].
  - unfold goBack. destruct (selectionHistoryIndex s <=? 0); [exact Hs|].
    apply navigateToHistoryIndex_consistent. exact Hs.
  - unfold goForward.
    destruct (Z.of_nat (length (selectionHistory s)) - 1 <=? selectionHistoryIndex s);
      [exact Hs|].
    apply navigateToHistoryIndex_consistent. exact Hs.
  - intros nextIndex. apply navigateToHistoryIndex_consistent. exact Hs.
Qed.

Lemma initialSelection_consistent : selectionConsistent initialSelection.
Proof.
  unfold selectionConsistent, initialSelection. cbn. repeat apply conj.
  - reflexivity.
  - left. split; reflexivity.
  - unfold MAX_SELECTION_HISTORY. lia.
  - intros [|? front] a b rest H; discriminate H.
  - intros entry H. lia.
Qed.

Lemma selection_stays_consistent_witness :
  selectionConsistent (goBack (selectFolder "/root/a" (selectFolder "/root" initialSelection))).
Proof.
  destruct (selection_stays_consistent initialSelection
              initialSelection_consistent) as (H1 & _).
  destruct (selection_stays_consistent _ (H1 "/root"%string)) as (H2 & _).
  destruct (selection_stays_consistent _ (H2 "/root/a"%string)) as (_ & _ & H3 & _).
  exact H3.
Defined.

(** X22. Going back and then forward, or forward and then back, returns
    to the state one started from, whenever the first move is possible
    and the selection is in step with the history. *)
Theorem back_and_forward_round_trip s :
  selectionConsistent s ->
  (0 < selectionHistoryIndex s -> goForward (goBack s) = s) /\
  (selectionHistoryIndex s < Z.of_nat (length (selectionHistory s)) - 1 ->
     goBack (goForward s) = s).
Proof.
  intros (Href & Hidx & Hlen & Hadj & Hshown).
  destruct s as [history index ref selPath selFile]. cbn in *. subst ref.
  assert (Hcur : forall i, 0 <= i < Z.of_nat (length history) ->
            exists e, nth_error history (Z.to_nat i) = Some e).
  { intros i Hi. destruct (nth_error history (Z.to_nat i)) eqn:E; [eauto|].
    apply nth_error_None in E. lia. }
  assert (Hnav : forall i j p f, 0 <= i < Z.of_nat (length history) ->
            forall e, nth_error history (Z.to_nat i) = Some e ->
            navigateToHistoryIndex i (mkSelection history j j p f) =
            mkSelection history i i (fst (shownFor e)) (snd (shownFor e))).
  { intros i j p f Hi e He. unfold navigateToHistoryIndex. cbn.
    destruct (Z.ltb_spec i 0); [lia|].
    destruct (Z.leb_spec (Z.of_nat (length history)) i); [lia|]. cbn.
    rewrite He. unfold applySelectionFromHistory, shownFor.
    destruct (kind e); reflexivity. }
  split.
  - intros Hpos. destruct Hidx as [[_ Hi]|Hin]; [lia|].
    destruct (Hcur (index - 1) ltac:(lia)) as [e He].
    destruct (Hcur index ltac:(lia)) as [e' He'].
    unfold goBack. cbn. destruct (Z.leb_spec index 0); [lia|].
    rewrite (Hnav (index - 1) index selPath selFile ltac:(lia) e He).
    unfold goForward. cbn.
    destruct (Z.leb_spec (Z.of_nat (length history) - 1) (index - 1)); [lia|].
    replace (index - 1 + 1) with index by lia.
    rewrite (Hnav index (index - 1) _ _ ltac:(lia) e' He').
    rewrite <- (Hshown e' ltac:(lia) He'). reflexivity.
  - intros Hnext.
    destruct Hidx as [[Hnil Hi]|Hin];
      [rewrite Hnil in Hnext; simpl in Hnext; lia|].
    destruct (Hcur (index + 1) ltac:(lia)) as [e He].
    destruct (Hcur index ltac:(lia)) as [e' He'].
    unfold goForward. cbn.
    destruct (Z.leb_spec (Z.of_nat (length history) - 1) index); [lia|].
    rewrite (Hnav (index + 1) index selPath selFile ltac:(lia) e He).
    unfold goBack. cbn. destruct (Z.leb_spec (index + 1) 0); [lia|].
    replace (index + 1 - 1) with index by lia.
    rewrite (Hnav index (index + 1) _ _ ltac:(lia) e' He').
    rewrite <- (Hshown e' ltac:(lia) He'). reflexivity.
Qed.

Lemma back_and_forward_round_trip_witness :
  goForward (goBack (selectFolder "/root/a" (selectFolder "/root" initialSelection))) =
  selectFolder "/root/a" (selectFolder "/root" initialSelection).
Proof.
  destruct (back_and_forward_round_trip
              (selectFolder "/root/a" (selectFolder "/root" initialSelection)))
    as [H _].
  - apply addSelectionHistory_consistent.
    + vm_compute. discriminate.
    + intros [|x [|y front]] a b rest H; discriminate H.
    + reflexivity.
  - apply H. vm_compute. reflexivity.
Defined.

End NavigationFacts.

(** ** Sizes written with a unit *)

Section SizeValueFacts.
Import Js Predicate Settings.

Lemma digitsValue_nonneg s :
  allDigits s = true -> forall acc, 0 <= acc -> 0 <= digitsValue s acc.
Proof.
  induction s as [|c s IH]; simpl; intros Hd acc Hacc; [exact Hacc|].
  apply andb_true_iff in Hd as [Hc Hs]. apply IH; [exact Hs|].
  unfold isDigit in Hc. apply andb_true_iff in Hc as [H1 _].
  apply Nat.leb_le in H1. lia.
Qed.

Lemma takeDigits_allDigits s :
  allDigits (fst (takeDigits s)) = true.
Proof.
  induction s as [|c s IH]; [reflexivity|].
  simpl. destruct (isDigit c) eqn:Hc; [|reflexivity].
  destruct (takeDigits s) as [ds tail]. simpl in *. now rewrite Hc, IH.
Qed.

Lemma takeDigits_append ds u :
  allDigits ds = true ->
  match u with String c _ => isDigit c = false | EmptyString => True end ->
  takeDigits (String.append ds u) = (ds, u).
Proof.
  intros Hd Hu. induction ds as [|c ds IH].
  - rewrite append_nil. destruct u as [|c u]; [reflexivity|].
    simpl. now rewrite Hu.
  - rewrite append_cons. simpl in Hd. apply andb_true_iff in Hd as [Hc Hs].
    simpl. rewrite Hc, (IH Hs). reflexivity.
Qed.

Lemma mathRound_whole (z : Z) : mathRound (inject_Z z) = z.
Proof.
  unfold mathRound.
  assert (Hlo : z <= Qfloor (inject_Z z + (1 # 2))).
  { rewrite <- (Qfloor_Z z) at 1. apply Qfloor_resp_le. lra. }
  assert (Hhi : Qfloor (inject_Z z + (1 # 2)) < z + 1).
  {
    pose proof (Qfloor_le (inject_Z z + (1 # 2))) as H.
    assert (H' : (inject_Z (Qfloor (inject_Z z + (1 # 2))) < inject_Z (z + 1))%Q).
    { rewrite inject_Z_plus. change (inject_Z 1) with 1%Q. lra. }
    rewrite <- Zlt_Qlt in H'. exact H'. }
  lia.
Qed.

Lemma nearestDouble_nonneg p q v :
  nearestDouble p q = Some v -> (0 <= v)%Q.
Proof.
  unfold nearestDouble.
  destruct (Z.leb_spec p 0) as [Hp|Hp]; [intros [= <-]; apply Qle_refl|].
  cbv zeta.
  match goal with
  | |- context [Z.max (-1022) ?x] => set (e := Z.max (-1022) x)
  end.
  set (num := p * 2 ^ Z.max 0 (52 - e)).
  set (den := Z.pos q * 2 ^ Z.max 0 (e - 52)).
  assert (Hnum : 0 <= num) by (apply Z.mul_nonneg_nonneg; [lia|apply Z.pow_nonneg; lia]).
  assert (Hden : 0 < den) by (apply Z.mul_pos_pos; [lia|apply Z.pow_pos_nonneg; lia]).
  assert (Hdiv : 0 <= num / den) by (apply Z.div_pos; assumption).
  set (m := if _ : bool then num / den + 1 else num / den).
  assert (Hm : 0 <= m) by (subst m; destruct (_ || _); lia).
  clearbody m.
  destruct (Qle_bool _ _); [discriminate|]. intros [= <-].
  destruct (0 <=? e - 52).
  - change 0%Q with (inject_Z 0). rewrite <- Zle_Qle.
    apply Z.mul_nonneg_nonneg; [exact Hm|apply Z.pow_nonneg; lia].
  - unfold Qle. cbn [Qnum Qden]. lia.
Qed.

(** Whole numbers below [2 ^ 53] are doubles. *)
Lemma nearestDouble_whole p :
  0 <= p < 2 ^ 53 ->
  exists v, nearestDouble p 1 = Some v /\ (v == inject_Z p)%Q.
Proof.
  intros [Hlo Hhi].
  assert (Hbig : 2 ^ 53 <= 2 ^ 1024) by (apply Z.pow_le_mono_r; lia).
  assert (Hfinite : forall v, (v == inject_Z p)%Q ->
            Qle_bool (inject_Z (2 ^ 1024)) v = false).
  { intros v Hv. destruct (Qle_bool (inject_Z (2 ^ 1024)) v) eqn:E; [|reflexivity].
    apply Qle_bool_iff in E. rewrite Hv in E. rewrite <- Zle_Qle in E.
    revert E Hbig Hhi. generalize (2 ^ 1024) (2 ^ 53). intros; lia. }
  unfold nearestDouble.
  destruct (Z.leb_spec p 0) as [Hp|Hp].
  { exists 0%Q. split; [reflexivity|]. assert (p = 0) as -> by lia. reflexivity. }
  change (Z.log2 (Z.pos 1)) with 0. rewrite Z.sub_0_r.
  pose proof (Z.log2_nonneg p) as HL0.
  assert (HL1 : Z.log2 p < 53) by (apply Z.log2_lt_pow2; [exact Hp|exact Hhi]).
  destruct (Z.log2_spec p Hp) as [Hspec _].
  set (L := Z.log2 p) in *.
  cbv zeta.
  replace (0 <=? L) with true by (symmetry; apply Z.leb_le; lia).
  replace (p <? 1 * 2 ^ L) with false by (symmetry; apply Z.ltb_ge; lia).
  replace (Z.max (-1022) L) with L by lia.
  replace (Z.max 0 (52 - L)) with (52 - L) by lia.
  replace (Z.max 0 (L - 52)) with 0 by lia.
  change (1 * 2 ^ 0) with 1.
  rewrite Z.div_1_r, Z.mod_1_r.
  change (1 <? 2 * 0) with false. change (1 =? 2 * 0) with false.
  cbn [orb andb].
  assert (Hpow : 0 < 2 ^ (52 - L)) by (apply Z.pow_pos_nonneg; lia).
  destruct (Z.leb_spec 0 (L - 52)) as [H52|H52].
  - assert (L = 52) as HL by lia. rewrite HL in *. clear HL.
    change (52 - 52) with 0. change (2 ^ 0) with 1. rewrite !Z.mul_1_r.
    exists (inject_Z p). split; [|reflexivity].
    now rewrite (Hfinite (inject_Z p) (Qeq_refl _)).
  - assert (Heq : (Qmake (p * 2 ^ (52 - L)) (Z.to_pos (2 ^ (52 - L)))
                   == inject_Z p)%Q).
    { unfold Qeq. cbn [Qnum Qden inject_Z]. rewrite Z2Pos.id by exact Hpow. lia. }
    eexists. split; [|exact Heq]. now rewrite (Hfinite _ Heq).
Qed.

(** Known doubles: 0.1; the tie at 2^53 + 1, which goes to the even
    mantissa, and 2^53 + 3, which goes up; the largest double, and the
    least number that [Number] reads as [Infinity]. *)
Lemma nearestDouble_known_values :
  nearestDouble 1 10 = Some (7205759403792794 # 72057594037927936) /\
  nearestDouble (2 ^ 53 + 1) 1 = Some (inject_Z (2 ^ 53)) /\
  nearestDouble (2 ^ 53 + 3) 1 = Some (inject_Z (2 ^ 53 + 4)) /\
  nearestDouble (2 ^ 1024 - 2 ^ 970 - 1) 1 =
    Some (inject_Z (2 ^ 1024 - 2 ^ 971)) /\
  nearestDouble (2 ^ 1024 - 2 ^ 970) 1 = None.
Proof. repeat apply conj; vm_compute; reflexivity. Qed.

Lemma roundScaled_whole v z multiplier :
  (v == inject_Z z)%Q -> 0 <= z * multiplier < INFINITE_SIZE ->
  roundScaled v multiplier = z * multiplier.
Proof.
  intros Hv [Hlo Hhi]. unfold roundScaled.
  assert (Heq : (v * inject_Z multiplier == inject_Z (z * multiplier))%Q)
    by (rewrite Hv, inject_Z_mult; reflexivity).
  destruct (Qle_bool (inject_Z INFINITE_SIZE) (v * inject_Z multiplier)) eqn:E.
  - apply Qle_bool_iff in E. rewrite Heq in E. rewrite <- Zle_Qle in E. lia.
  - unfold mathRound. rewrite Heq. apply mathRound_whole.
Qed.

Lemma roundScaled_nonneg v multiplier :
  (0 <= v)%Q -> 0 <= multiplier -> 0 <= roundScaled v multiplier.
Proof.
  intros Hv Hm. unfold roundScaled.
  destruct (Qle_bool _ _).
  - unfold INFINITE_SIZE. apply Z.pow_nonneg. lia.
  - change 0 with (mathRound 0). apply mathRound_mono.
    apply Qmult_le_0_compat; [exact Hv|].
    change 0%Q with (inject_Z 0). now rewrite <- Zle_Qle.
Qed.

Lemma SIZE_UNITS_cases unit multiplier :
  SIZE_UNITS unit = Some multiplier ->
  (unit = "b" /\ multiplier = 1 \/ unit = "kb" /\ multiplier = 1024 \/
   unit = "mb" /\ multiplier = 1024 ^ 2 \/ unit = "gb" /\ multiplier = 1024 ^ 3 \/
   unit = "tb" /\ multiplier = 1024 ^ 4)%string.
Proof.
  unfold SIZE_UNITS.
  repeat match goal with
         | |- context [String.eqb unit ?u] =>
             destruct (String.eqb_spec unit u) as [->|_];
             [intros [= <-]; tauto|]
         end.
  discriminate.
Qed.

Lemma SIZE_UNITS_range unit multiplier :
  SIZE_UNITS unit = Some multiplier -> 1 <= multiplier <= 2 ^ 40.
Proof.
  intros H. apply SIZE_UNITS_cases in H.
  destruct H as [[_ ->]|[[_ ->]|[[_ ->]|[[_ ->]|[_ ->]]]]]; lia.
Qed.

Lemma append_assoc s t u :
  String.append (String.append s t) u = String.append s (String.append t u).
Proof.
  induction s as [|c s IH]; [reflexivity|].
  rewrite !append_cons, IH. reflexivity.
Qed.

Lemma toLowerCase_append s t :
  toLowerCase (String.append s t) =
  String.append (toLowerCase s) (toLowerCase t).
Proof.
  induction s as [|c s IH]; [reflexivity|].
  rewrite append_cons. simpl. rewrite IH. reflexivity.
Qed.

Lemma isDigit_plain c :
  isDigit c = true -> isWhitespace c = false /\ toLowerChar c = c.
Proof.
  unfold isDigit, isWhitespace, toLowerChar, isUpper. intros H.
  apply andb_true_iff in H as [H1 H2]. apply Nat.leb_le in H1, H2.
  assert (E1 : Nat.eqb (nat_of_ascii c) 32 = false) by (apply Nat.eqb_neq; lia).
  assert (E2 : Nat.leb (nat_of_ascii c) 13 = false) by (apply Nat.leb_gt; lia).
  assert (E3 : Nat.leb 65 (nat_of_ascii c) = false) by (apply Nat.leb_gt; lia).
  rewrite E1, E2, E3, andb_false_r. split; reflexivity.
Qed.

Lemma toLowerCase_digits s : allDigits s = true -> toLowerCase s = s.
Proof.
  induction s as [|c s IH]; [reflexivity|].
  simpl. intros H. apply andb_true_iff in H as [Hc Hs].
  destruct (isDigit_plain c Hc) as [_ ->]. now rewrite (IH Hs).
Qed.

Lemma trimEnd_kept s c :
  isWhitespace c = false ->
  trimEnd (String.append s (String c EmptyString)) =
  String.append s (String c EmptyString).
Proof.
  intros Hc. induction s as [|d s IH].
  - rewrite append_nil. simpl. now rewrite Hc.
  - rewrite append_cons. cbn [trimEnd]. rewrite IH.
    destruct s; reflexivity.
Qed.

Lemma trim_kept d s c :
  isWhitespace d = false -> isWhitespace c = false ->
  trim (String d (String.append s (String c EmptyString))) =
  String d (String.append s (String c EmptyString)).
Proof.
  intros Hd Hc. unfold trim. cbn [trimStart]. rewrite Hd.
  rewrite <- append_cons. apply trimEnd_kept. exact Hc.
Qed.

(** Digits followed by a unit: the digits are read as [Number] reads
    them, and the result is scaled by the unit. *)
Lemma parseSizeValue_digits_unit digits unit multiplier :
  digits <> EmptyString -> allDigits digits = true ->
  SIZE_UNITS unit = Some multiplier ->
  parseSizeValue (String.append digits unit) =
    option_map (fun value => roundScaled value multiplier)
      (nearestDouble (digitsValue digits 0) 1).
Proof.
  intros Hne Hd Hu.
  destruct digits as [|d digits]; [congruence|].
  pose proof Hd as Hd'. simpl in Hd'. apply andb_true_iff in Hd' as [Hdd _].
  destruct (isDigit_plain d Hdd) as [Hws _].
  assert (Hclean : forall front,
    unit = String.append front "b" ->
    toLowerCase (trim (String.append (String d digits) unit)) =
    String.append (String d digits) unit).
  { intros front ->. rewrite append_cons, <- append_assoc.
    rewrite trim_kept by (exact Hws || reflexivity).
    rewrite append_assoc, <- append_cons.
    rewrite toLowerCase_append, (toLowerCase_digits _ Hd).
    f_equal. clear -Hu. apply SIZE_UNITS_cases in Hu.
    destruct Hu as [[H _]|[[H _]|[[H _]|[[H _]|[H _]]]]];
      rewrite H; reflexivity. }
  assert (Hfront : exists front, unit = String.append front "b").
  { apply SIZE_UNITS_cases in Hu.
    destruct Hu as [[-> _]|[[-> _]|[[-> _]|[[-> _]|[-> _]]]]];
      [exists ""%string|exists "k"%string|exists "m"%string
      |exists "g"%string|exists "t"%string]; reflexivity. }
  destruct Hfront as [front Hfront].
  unfold parseSizeValue. rewrite (Hclean front Hfront).
  unfold matchSizeValue. rewrite takeDigits_append; [|exact Hd|].
  - cbn [truthy String.eqb negb].
    assert (Hmatch :
      match unit with
      | String "." afterDot =>
          let '(frac, afterFrac) := takeDigits afterDot in
          if truthy frac then (Some frac, afterFrac) else (None, unit)
      | _ => (None, unit)
      end = (None, unit)).
    { pose proof Hu as Hu'. apply SIZE_UNITS_cases in Hu'.
      destruct Hu' as [[-> _]|[[-> _]|[[-> _]|[[-> _]|[-> _]]]]]; reflexivity. }
    change (negb (truthy (String d digits))) with false. cbv iota.
    rewrite Hmatch.
    assert (Htr : truthy unit = true).
    { pose proof Hu as Hu'. apply SIZE_UNITS_cases in Hu'.
      destruct Hu' as [[-> _]|[[-> _]|[[-> _]|[[-> _]|[-> _]]]]]; reflexivity. }
    rewrite Htr. cbn [negb]. rewrite Hu. rewrite Hu.
    unfold numberOfNumeral, decimalValue. cbn [Qnum Qden inject_Z].
    destruct (nearestDouble _ 1); reflexivity.
  - pose proof Hu as Hu'. apply SIZE_UNITS_cases in Hu'.
    destruct Hu' as [[-> _]|[[-> _]|[[-> _]|[[-> _]|[-> _]]]]]; reflexivity.
Qed.

(** X23. Sizes with a unit.  [parseSizeValue] ignores letter case and
    never returns a negative size.  Digits followed by a unit are read as
    [Number] reads them, as the nearest double, and scaled by 1, 1024,
    1024^2, 1024^3 or 1024^4 for b, kb, mb, gb and tb; so the result is
    exactly the digits times the multiplier for whole numbers below
    2^53, while 9007199254740993 is read as 9007199254740992, a numeral
    beyond the range of the doubles gives no size, and a double whose
    product with the multiplier leaves that range gives the infinite
    size. *)
Theorem parseSizeValue_units :
  (forall raw, parseSizeValue (toLowerCase raw) = parseSizeValue raw) /\
  (forall raw n, parseSizeValue raw = Some n -> 0 <= n) /\
  (forall digits unit multiplier,
     digits <> EmptyString -> allDigits digits = true ->
     SIZE_UNITS unit = Some multiplier ->
     parseSizeValue (String.append digits unit) =
       option_map (fun value => roundScaled value multiplier)
         (nearestDouble (digitsValue digits 0) 1)) /\
  (forall digits unit multiplier,
     digits <> EmptyString -> allDigits digits = true ->
     SIZE_UNITS unit = Some multiplier ->
     digitsValue digits 0 < 2 ^ 53 ->
     parseSizeValue (String.append digits unit) =
       Some (digitsValue digits 0 * multiplier)) /\
  parseSizeValue "9007199254740993" = Some 9007199254740992 /\
  parseSizeValue (String.append "1" (zeros 309)) = None /\
  parseSizeValue (String.append "1" (String.append (zeros 308) "kb")) =
    Some INFINITE_SIZE.
Proof.
  split; [|split; [|split; [|split; [|split; [|split]]]]].
  - intros raw. unfold parseSizeValue.
    now rewrite trim_lower, toLowerCase_idem.
  - intros raw n. unfold parseSizeValue.
    destruct (matchSizeValue (toLowerCase (trim raw)))
      as [[[intPart fracPart] unit]|]; [|discriminate].
    unfold numberOfNumeral.
    destruct (nearestDouble _ _) as [value|] eqn:Hv; [|discriminate].
    apply nearestDouble_nonneg in Hv.
    destruct (SIZE_UNITS (match unit with Some u => u | None => "b"%string end))
      as [multiplier|] eqn:Hu; [|discriminate].
    intros [= <-]. apply SIZE_UNITS_range in Hu.
    apply roundScaled_nonneg; [exact Hv|lia].
  - exact parseSizeValue_digits_unit.
  - intros digits unit multiplier Hne Hd Hu Hsmall.
    rewrite (parseSizeValue_digits_unit digits unit multiplier Hne Hd Hu).
    pose proof (digitsValue_nonneg digits Hd 0 ltac:(lia)) as H0.
    destruct (nearestDouble_whole (digitsValue digits 0) (conj H0 Hsmall))
      as (v & -> & Hv).
    cbn [option_map]. f_equal. apply roundScaled_whole; [exact Hv|].
    apply SIZE_UNITS_range in Hu. unfold INFINITE_SIZE.
    assert (Hbig : 2 ^ 53 * 2 ^ 40 <= 2 ^ 1024)
      by (rewrite <- Z.pow_add_r by lia; apply Z.pow_le_mono_r; lia).
    revert Hbig Hsmall Hu. generalize (2 ^ 1024) (2 ^ 53) (2 ^ 40).
    intros; nia.
  - vm_compute. reflexivity.
  - vm_compute. reflexivity.
  - vm_compute. reflexivity.
Qed.

Lemma parseSizeValue_units_witness :
  parseSizeValue "10kb" = Some 10240.
Proof.
  destruct parseSizeValue_units as (_ & _ & _ & H & _).
  apply (H "10"%string "kb"%string 1024);
    [discriminate|reflexivity|reflexivity|reflexivity].
Defined.

End SizeValueFacts.

(** ** What a search query asks of an entry *)

Section SearchFacts.
Import Js Predicate.
Context {host : Host}.

Lemma matchesAllTokens_true value tokens :
  matchesAllTokens value tokens = true <->
  forall t, In t tokens -> t <> EmptyString -> includes value t = true.
Proof.
  induction tokens as [|t tokens IH]; simpl.
  - split; [intros _ t []|reflexivity].
  - destruct (truthy t) eqn:Ht; cbn [negb].
    + apply truthy_true in Ht.
      destruct (includes value t) eqn:Hi; cbn [negb].
      * rewrite IH. split.
        -- intros H x [<-|Hx] Hne; [exact Hi|auto].
        -- intros H x Hx Hne. apply H; [now right|exact Hne].
      * split; [discriminate|]. intros H.
        rewrite (H t (or_introl eq_refl) Ht) in Hi. discriminate.
    + rewrite IH. split.
      * intros H x [<-|Hx] Hne; [|auto].
        exfalso. destruct t; [congruence|discriminate].
      * intros H x Hx Hne. apply H; [now right|exact Hne].
Qed.

Lemma matchesSearchTerms_true name path terms :
  matchesSearchTerms name path terms = true <->
  forall t, In t terms -> t <> EmptyString ->
    includes name t = true \/ includes path t = true.
Proof.
  induction terms as [|t terms IH]; simpl.
  - split; [intros _ t []|reflexivity].
  - destruct (truthy t) eqn:Ht; cbn [negb].
    + apply truthy_true in Ht.
      destruct (includes name t) eqn:Hn; cbn [negb andb].
      * rewrite IH. split.
        -- intros H x [<-|Hx] Hne; [now left|auto].
        -- intros H x Hx Hne. apply H; [now right|exact Hne].
      * destruct (includes path t) eqn:Hp; cbn [negb].
        -- rewrite IH. split.
           ++ intros H x [<-|Hx] Hne; [now right|auto].
           ++ intros H x Hx Hne. apply H; [now right|exact Hne].
        -- split; [discriminate|]. intros H.
           destruct (H t (or_introl eq_refl) Ht); congruence.
    + rewrite IH. split.
      * intros H x [<-|Hx] Hne; [|auto].
        exfalso. destruct t; [congruence|discriminate].
      * intros H x Hx Hne. apply H; [now right|exact Hne].
Qed.

Lemma matchesSizeConstraints_true size minSize maxSize :
  matchesSizeConstraints size minSize maxSize = true <->
  (forall m, minSize = Some m -> m <= size) /\
  (forall M, maxSize = Some M -> size <= M).
Proof.
  unfold matchesSizeConstraints.
  destruct minSize as [m|], maxSize as [M|];
    repeat match goal with
           | |- context [?a <? ?b] => destruct (Z.ltb_spec a b)
           end;
    split; try discriminate; try reflexivity;
    try (intros _; split; intros ? [= <-]; lia);
    try (intros _; split; intros ? ?; (discriminate || (injection H0 as <-; lia)));
    try (intros [H1 H2]; try specialize (H1 _ eq_refl);
         try specialize (H2 _ eq_refl); lia).
Qed.

Lemma extension_rejection path (exts : gset string) :
  ((0 <? Z.of_nat (size exts)) &&
   match getPathExtension path with
   | Some ext => negb (truthy ext) || negb (bool_decide (ext ∈ exts))
   | None => true
   end) = false <->
  ((exists x, x ∈ exts) ->
     exists e, getPathExtension path = Some e /\ e ∈ exts).
Proof.
  rewrite andb_false_iff.
  destruct (0 <? Z.of_nat (size exts)) eqn:Hs.
  - apply size_positive in Hs.
    destruct (getPathExtension path) as [e|] eqn:He.
    + pose proof (getPathExtension_nonempty _ _ He) as Hne.
      apply truthy_true in Hne. rewrite Hne. cbn [negb orb].
      case_bool_decide as Hin; cbn [negb].
      * split; [eauto|]. intros _. now right.
      * split; [intros [H|H]; discriminate|].
        intros H. destruct (H Hs) as (e' & [= <-] & Hin'). contradiction.
    + split; [intros [H|H]; discriminate|].
      intros H. destruct (H Hs) as (e' & He' & _). discriminate.
  - split; [|intros _; now left].
    intros _ Hx. apply size_positive in Hx. congruence.
Qed.

Lemma matchesRegexConstraint_stateless name path regex :
  (forall re, regex = Some re -> stateless re) ->
  matchesRegexConstraint name path regex =
    (match regex with
     | Some re => fst (regexTest re path) || fst (regexTest re name)
     | None => true
     end, regex).
Proof.
  intros Hre. unfold matchesRegexConstraint. destruct regex as [re|]; [|reflexivity].
  now rewrite (testPathOrName_stateless re path name (Hre re eq_refl)).
Qed.

Lemma setRegex_same params : setRegex params (regex params) = params.
Proof. destruct params. reflexivity. Qed.

(** X24. What a parsed query asks of an entry.  For a query whose
    regular expression, if it has one, is without state (without the
    flags [g] and [y]), [matchesSearchEntry] accepts an entry exactly
    when, on the lower-cased name and path, every non-empty name term
    occurs in the name, every non-empty path term in the path, every
    other non-empty term in the name or the path, the extension of the
    path is one of the requested ones if any were requested, the size is
    within the bounds, and the regular expression matches the path or
    the name; and the call leaves the parameters as they were, so that
    this holds for every entry they are applied to. *)
Theorem matchesSearchEntry_conditions entry params :
  (forall re, regex params = Some re -> stateless re) ->
  let lowName := toLowerCase (name entry) in
  let lowPath := toLowerCase (path entry) in
  (fst (matchesSearchEntry entry params) = true <->
   (forall t, In t (nameTerms params) -> t <> EmptyString ->
      includes lowName t = true) /\
   (forall t, In t (pathTerms params) -> t <> EmptyString ->
      includes lowPath t = true) /\
   (forall t, In t (terms params) -> t <> EmptyString ->
      includes lowName t = true \/ includes lowPath t = true) /\
   ((exists x, x ∈ exts params) ->
      exists e, getPathExtension lowPath = Some e /\ e ∈ exts params) /\
   (forall m, minSize params = Some m -> m <= sizeBytes entry) /\
   (forall M, maxSize params = Some M -> sizeBytes entry <= M) /\
   (forall re, regex params = Some re ->
      fst (regexTest re lowPath) = true \/ fst (regexTest re lowName) = true)) /\
  snd (matchesSearchEntry entry params) = params.
Proof.
  intros Hstateless lowName lowPath. unfold matchesSearchEntry.
  fold lowName. fold lowPath.
  rewrite (matchesRegexConstraint_stateless lowName lowPath _ Hstateless).
  rewrite setRegex_same.
  rewrite <- matchesAllTokens_true, <- matchesAllTokens_true,
    <- matchesSearchTerms_true, <- extension_rejection.
  rewrite (and_assoc (forall m, _)), <- matchesSizeConstraints_true.
  set (matched := match regex params with
                  | Some re => fst (regexTest re lowPath) || fst (regexTest re lowName)
                  | None => true
                  end).
  assert (Hre : matched = true <->
            forall re, regex params = Some re ->
              fst (regexTest re lowPath) = true \/
              fst (regexTest re lowName) = true).
  { subst matched. destruct (regex params) as [re|].
    - rewrite orb_true_iff. split; [intros H r [= <-]; exact H|].
      intros H. exact (H re eq_refl).
    - split; [intros _ r; discriminate|reflexivity]. }
  rewrite <- Hre. clearbody matched.
  destruct (matchesAllTokens lowName (nameTerms params)); cbn [negb];
    [|split; [intuition discriminate|reflexivity]].
  destruct (matchesAllTokens lowPath (pathTerms params)); cbn [negb];
    [|split; [intuition discriminate|reflexivity]].
  destruct (matchesSearchTerms lowName lowPath (terms params)); cbn [negb];
    [|split; [intuition discriminate|reflexivity]].
  destruct ((0 <? Z.of_nat (size (exts params))) &&
            match getPathExtension lowPath with
            | Some ext => negb (truthy ext) || negb (bool_decide (ext ∈ exts params))
            | None => true
            end); [split; [intuition discriminate|reflexivity]|].
  destruct (matchesSizeConstraints (sizeBytes entry) (minSize params)
              (maxSize params)); cbn [negb];
    [|split; [intuition discriminate|reflexivity]].
  cbn [fst snd]. split; [intuition|reflexivity].
Qed.

End SearchFacts.

Section SearchWitnesses.
Import Js Predicate.

Lemma matchesSearchEntry_conditions_witness :
  snd (matchesSearchEntry (host := literalHost) tinyFile
         (parseSearchQuery (host := literalHost) "regex:/note/ size>=1")) =
  parseSearchQuery (host := literalHost) "regex:/note/ size>=1".
Proof.
  apply (matchesSearchEntry_conditions (host := literalHost) tinyFile
           (parseSearchQuery (host := literalHost) "regex:/note/ size>=1")).
  intros re H. vm_compute in H. injection H as <-. intros s. reflexivity.
Defined.

(** A regular expression given with the flag [g] keeps its [lastIndex]
    from one entry to the next: of two entries that both contain
    [docs], the query [regex:/docs/g] accepts the first and rejects the
    second, because the search starts behind the match in the first. *)
Lemma global_regex_rejects_next_entry :
  let params := parseSearchQuery (host := literalHost) "regex:/docs/g" in
  let first := mkScanFile "/docs/a.txt" "a.txt" 1 in
  let second := mkScanFile "/docs/b.txt" "b.txt" 1 in
  fst (matchesSearchEntry (host := literalHost) first params) = true /\
  fst (matchesSearchEntry (host := literalHost) second
         (snd (matchesSearchEntry (host := literalHost) first params))) = false /\
  fst (matchesSearchEntry (host := literalHost) second params) = true.
Proof.
  cbv zeta. repeat apply conj; vm_compute; reflexivity.
Qed.

End SearchWitnesses.

